(** * A shallow embedding of the Redux store, its reducer combinator,
    function composition and the react-redux container binding, with the
    helpers around them.

  Sources embedded here:
  - [src/redux/compose.js]            (module [Compose])
  - [src/unnamed/part_004]            (combineReducers, module [CombineReducers])
  - [src/redux/createStore.js]        (module [Store])
  - [src/react-redux/connect/mergeProps.js]
                                      (connectAdvanced, module [Connect];
                                       mergeProps and match, module [MergeProps])
  - [src/unnamed/part_003]            (bindActionCreators, module
                                       [BindActionCreators])
  - [src/redux/applyMiddleware.js], [src/redux-thunk/index.js]
                                      (module [Middleware])
  - [src/unnamed/part_000]            (wrapMapToProps, module [MapToProps])
  - [src/unnamed/part_001]            (debounce, module [Debounce])
  - [src/unnamed/part_002]            (the short debounce and throttle,
                                       module [SimpleDebounce])

  JavaScript values are modelled with references into an object heap, so
  that [===] on objects is reference identity.  Client code (reducers,
  listeners, observers) is modelled as data: either as a computation in a
  heap-and-exception monad, or, where it may call back into the store, as a
  tree of store calls that the store model interprets. *)

From Stdlib Require Import ZArith.
From stdpp Require Import gmap strings list pretty sorting.

Set Warnings "-register-all,-clear-no-such-hyp".

Local Open Scope string_scope.
Local Open Scope list_scope.

(* ===================================================================== *)
(** ** JavaScript values                                                  *)
(* ===================================================================== *)

Module JS.

(** Object references and function identities. *)
Abbreviation loc := nat (only parsing).
Abbreviation fid := nat (only parsing).

(** A JavaScript value.  Numbers are the integers plus [NaN] (the only
    number that is not [===] to itself); a function value is known by its
    identity; every other object is a reference into the heap. *)
Inductive value : Type :=
| VUndefined
| VNull
| VBool (b : bool)
| VNum (z : Z)
| VNaN
| VStr (s : string)
| VFun (f : fid)
| VRef (l : loc).

#[global] Instance value_eq_dec : EqDecision value.
Proof. solve_decision. Defined.

(** [new Error(msg)] and [new TypeError(msg)]. *)
Inductive error_class : Type := ErrorC | TypeErrorC.

#[global] Instance error_class_eq_dec : EqDecision error_class.
Proof. solve_decision. Defined.

(** What a [throw] carries: an error object made by library code (always
    a fresh object, whose identity nothing here inspects), or whatever
    value client code chose to throw. *)
Inductive exn : Type :=
| JsError (c : error_class) (msg : string)
| Thrown (v : value).

#[global] Instance exn_eq_dec : EqDecision exn.
Proof. solve_decision. Defined.

(** The result of a call: a returned value or a thrown exception. *)
Inductive outcome (A : Type) : Type :=
| Normal (a : A)
| Raise (e : exn).
Arguments Normal {A} a.
Arguments Raise {A} e.

(** A heap object: its own enumerable properties, and whether its
    prototype is [Object.prototype] or [null] (what lodash's
    [isPlainObject] tests). *)
Record object : Type := mkObject {
  plain : bool;
  fields : gmap string value
}.

Abbreviation heap := (gmap loc object).

Inductive type_tag : Type :=
| TUndefined | TObject | TBoolean | TNumber | TString | TFunction.

#[global] Instance type_tag_eq_dec : EqDecision type_tag.
Proof. solve_decision. Defined.

(** [typeof v]. *)
Definition typeof (v : value) : type_tag :=
  match v with
  | VUndefined => TUndefined
  | VNull => TObject
  | VBool _ => TBoolean
  | VNum _ | VNaN => TNumber
  | VStr _ => TString
  | VFun _ => TFunction
  | VRef _ => TObject
  end.

(** [typeof v === 'undefined']. *)
Definition is_undefined (v : value) : bool :=
  bool_decide (typeof v = TUndefined).

(** [typeof v === 'function']. *)
Definition is_function (v : value) : bool :=
  bool_decide (typeof v = TFunction).

(** ToBoolean, as used by [if (v)], [v && ...] and [!v]. *)
Definition truthy (v : value) : bool :=
  match v with
  | VUndefined | VNull | VNaN => false
  | VBool b => b
  | VNum z => negb (z =? 0)%Z
  | VStr s => negb (bool_decide (s = EmptyString))
  | VFun _ | VRef _ => true
  end.

(** ToBoolean of a caught exception. *)
Definition truthy_exn (e : exn) : bool :=
  match e with
  | JsError _ _ => true
  | Thrown v => truthy v
  end.

(** [a === b]. *)
Definition strict_eq (a b : value) : bool :=
  match a, b with
  | VNaN, _ | _, VNaN => false
  | _, _ => bool_decide (a = b)
  end.

(** lodash's [isPlainObject]. *)
Definition isPlainObject (h : heap) (v : value) : bool :=
  match v with
  | VRef l => match h !! l with
              | Some o => plain o
              | None => false
              end
  | _ => false
  end.

(** [v[key]] (own properties; a missing property reads as [undefined],
    and reading a property of [null] or [undefined] is a TypeError). *)
Definition get_prop (h : heap) (v : value) (key : string) : outcome value :=
  match v with
  | VUndefined =>
      Raise (JsError TypeErrorC
               ("Cannot read property '" +:+ key +:+ "' of undefined"))
  | VNull =>
      Raise (JsError TypeErrorC
               ("Cannot read property '" +:+ key +:+ "' of null"))
  | VRef l => match h !! l with
              | Some o => Normal (default VUndefined (fields o !! key))
              | None => Normal VUndefined
              end
  | _ => Normal VUndefined
  end.

(** A location that the heap does not use yet. *)
Definition fresh_loc {A} (h : gmap loc A) : loc := fresh (dom h).

Lemma fresh_loc_None {A} (h : gmap loc A) : h !! fresh_loc h = None.
Proof. apply not_elem_of_dom, is_fresh. Qed.

(** *** Computations of client code: heap state and exceptions *)

Definition M (A : Type) : Type := heap -> heap * outcome A.

Definition ret {A} (a : A) : M A := fun h => (h, Normal a).

Definition throw {A} (e : exn) : M A := fun h => (h, Raise e).

Definition bind {A B} (m : M A) (k : A -> M B) : M B :=
  fun h => match m h with
           | (h', Normal a) => k a h'
           | (h', Raise e) => (h', Raise e)
           end.

(** [try { m } catch (e) { handler e }]. *)
Definition try_catch {A} (m : M A) (handler : exn -> M A) : M A :=
  fun h => match m h with
           | (h', Normal a) => (h', Normal a)
           | (h', Raise e) => handler e h'
           end.

(** A JavaScript function: called with its argument list. *)
Definition jsfun := list value -> M value.

End JS.

Export JS.

Declare Scope js_scope.
Delimit Scope js_scope with js.
Notation "x <- m ;; k" := (bind m (fun x => k))
(at level 100, m at next level, right associativity) : js_scope.
Notation "m ;;; k" := (bind m (fun _ => k))
(at level 100, right associativity) : js_scope.

(* ===================================================================== *)
(** ** compose (src/redux/compose.js)                                     *)
(* ===================================================================== *)

Module Compose.

(** [arg => arg]: the first argument, [undefined] when there is none. *)
Definition identity : jsfun :=
  fun args => ret (hd VUndefined args).

(** [(a, b) => (...args) => a(b(...args))] *)
Definition compose2 (a b : jsfun) : jsfun :=
  fun args => (y <- b args ;; a [y])%js.

(** [funcs.reduce(cb)] without an initial value: the first element is the
    accumulator and the iteration starts at the second. *)
Definition reduce {A} (cb : A -> A -> A) (first : A) (rest : list A) : A :=
  fold_left cb rest first.

(** [compose(...funcs)] of src/redux/compose.js. *)
Definition compose (funcs : list jsfun) : jsfun :=
  match funcs with
  | [] => identity
  | [f] => f
  | f :: rest => reduce compose2 f rest
  end.

(** The older body kept in src/unnamed/part_005:
    [(...args) => rest.reduceRight((composed, f) => f(composed), last(...args))]. *)
Definition compose_reduceRight (funcs : list jsfun) : jsfun :=
  match funcs with
  | [] => identity
  | [f] => f
  | _ =>
      let last_ := List.last funcs identity in
      let rest := removelast funcs in
      fun args =>
        (v <- last_ args ;;
         fold_right (fun f (composed : M value) => (c <- composed ;; f [c]))
                    (ret v) rest)%js
  end.

End Compose.

(* ===================================================================== *)
(** ** combineReducers (src/unnamed/part_004)                             *)
(* ===================================================================== *)

Module CombineReducers.

(** The double quote character. *)
Definition dq : string := String (Ascii.ascii_of_nat 34) EmptyString.

(** [ActionTypes.INIT], imported from createStore. *)
Definition INIT : string := "@@redux/INIT".

(** A sub-reducer: a function of the client, which may read and write the
    heap and may throw. *)
Definition reducer : Type := value -> value -> M value.

(** A value of the object [reducers]: a function or something else. *)
Inductive entry : Type :=
| Fn (r : reducer)
| NotFn (v : value).

(** [new Object] with the given properties. *)
Definition alloc (o : object) : M value :=
  fun h => let l := fresh_loc h in (<[l := o]> h, Normal (VRef l)).

(** [v[key]] *)
Definition get (v : value) (key : string) : M value :=
  fun h => (h, get_prop h v key).

(** The own properties of the object at [l]. *)
Definition fields_at (h : heap) (l : loc) : gmap string value :=
  match h !! l with
  | Some o => fields o
  | None => ∅
  end.

(** [nextState[key] = v], for the plain object [nextState]. *)
Definition set_field (l : loc) (key : string) (v : value) : M unit :=
  fun h => (<[l := mkObject true (<[key := v]> (fields_at h l))]> h, Normal tt).

(** What the closure [combination] captured. *)
Record combined : Type := mkCombined {
  finalReducers : list (string * reducer);
  shapeAssertionError : option exn
}.

(** The keys whose value is a function, in the order of [Object.keys]. *)
Fixpoint functions_of (reducers : list (string * entry))
  : list (string * reducer) :=
  match reducers with
  | [] => []
  | (key, Fn r) :: rest => (key, r) :: functions_of rest
  | (key, NotFn _) :: rest => functions_of rest
  end.

Definition init_error (key : string) : exn :=
  JsError ErrorC
    ("Reducer " +:+ dq +:+ key +:+ dq +:+
     " returned undefined during initialization. " +:+
     "If the state passed to the reducer is undefined, you must " +:+
     "explicitly return the initial state. The initial state may " +:+
     "not be undefined. If you don't want to set a value for this reducer, " +:+
     "you can use null instead of undefined.").

Definition probe_error (key : string) : exn :=
  JsError ErrorC
    ("Reducer " +:+ dq +:+ key +:+ dq +:+
     " returned undefined when probed with a random type. " +:+
     "Don't try to handle " +:+ INIT +:+ " or other actions in " +:+
     dq +:+ "redux/*" +:+ dq +:+ " " +:+
     "namespace. They are considered private. Instead, you must return the " +:+
     "current state for any unknown actions, unless it is undefined, " +:+
     "in which case you must return the initial state, regardless of the " +:+
     "action type. The initial state may not be undefined, but can be null.").

Section WithEnvironment.

(** [actionType.toString()] for the [type] of an action, which may be any
    value and may run code of the client. *)
Variable toString : heap -> value -> string.

(** The strings that
    [Math.random().toString(36).substring(7).split('').join('.')] gives, by
    the number of the draw. *)
Variable random : nat -> string.

(** [getUndefinedStateErrorMessage(key, action)] *)
Definition getUndefinedStateErrorMessage (h : heap) (key : string)
  (action : value) : string :=
  let actionType :=
    if truthy action
    then match get_prop h action "type" with
         | Normal t => t
         | Raise _ => VUndefined
         end
    else action in
  let actionName :=
    if truthy actionType
    then dq +:+ toString h actionType +:+ dq
    else "an action" in
  "Given action " +:+ actionName +:+ ", reducer " +:+ dq +:+ key +:+ dq +:+
  " returned undefined. " +:+
  "To ignore an action, you must explicitly return the previous state. " +:+
  "If you want this reducer to hold no value, you can return null instead of undefined.".

(** The callback of the [forEach] of [assertReducerShape], for the [i]-th
    key. *)
Definition probe (i : nat) (key : string) (r : reducer) : M unit :=
  (initAction <- alloc (mkObject true {[ "type" := VStr INIT ]}) ;;
   initialState <- r VUndefined initAction ;;
   if is_undefined initialState then throw (init_error key)
   else
     let type := "@@redux/PROBE_UNKNOWN_ACTION_" +:+ random i in
     probeAction <- alloc (mkObject true {[ "type" := VStr type ]}) ;;
     probed <- r VUndefined probeAction ;;
     if is_undefined probed then throw (probe_error key)
     else ret tt)%js.

(** [assertReducerShape(reducers)], from the [i]-th key on. *)
Fixpoint assertReducerShape (i : nat) (reducers : list (string * reducer))
  : M unit :=
  match reducers with
  | [] => ret tt
  | (key, r) :: rest =>
      (probe i key r ;;; assertReducerShape (S i) rest)%js
  end.

(** [combineReducers(reducers)]: the closure [combination] it returns.
    The warnings of development builds are left out: they write to the
    console and change neither the state of the program nor what is
    returned or thrown. *)
Definition combineReducers (reducers : list (string * entry)) : M combined :=
  let finalReducers := functions_of reducers in
  fun h =>
    match assertReducerShape 0 finalReducers h with
    | (h', Normal _) => (h', Normal (mkCombined finalReducers None))
    | (h', Raise e) => (h', Normal (mkCombined finalReducers (Some e)))
    end.

(** The [for] loop of [combination], from some key on: [hasChanged] so
    far in, [hasChanged] at the end out. *)
Fixpoint combination_loop (reducers : list (string * reducer))
  (state action : value) (nextState : loc) (hasChanged : bool) : M bool :=
  match reducers with
  | [] => ret hasChanged
  | (key, r) :: rest =>
      (previousStateForKey <- get state key ;;
       nextStateForKey <- r previousStateForKey action ;;
       if is_undefined nextStateForKey then
         fun h => (h, Raise (JsError ErrorC
                               (getUndefinedStateErrorMessage h key action)))
       else
         set_field nextState key nextStateForKey ;;;
         combination_loop rest state action nextState
           (hasChanged || negb (strict_eq nextStateForKey previousStateForKey)))%js
  end.

(** [if (shapeAssertionError)] *)
Definition pending_error (c : combined) : option exn :=
  match shapeAssertionError c with
  | Some e => if truthy_exn e then Some e else None
  | None => None
  end.

(** [combination(state = {}, action)] *)
Definition combination (c : combined) (state action : value) : M value :=
  (state <- (if bool_decide (state = VUndefined)
             then alloc (mkObject true ∅) else ret state) ;;
   match pending_error c with
   | Some e => throw e
   | None =>
       nextState <- alloc (mkObject true ∅) ;;
       match nextState with
       | VRef l =>
           hasChanged <- combination_loop (finalReducers c) state action l false ;;
           ret (if hasChanged then nextState else state)
       | _ => ret state
       end
   end)%js.

(** Ghost: the slices that the loop went through, as pairs of
    [previousStateForKey] and [nextStateForKey], for the keys whose
    sub-reducer returned. *)
Fixpoint slices (reducers : list (string * reducer))
  (state action : value) (nextState : loc) (h : heap) : list (value * value) :=
  match reducers with
  | [] => []
  | (key, r) :: rest =>
      match get_prop h state key with
      | Raise _ => []
      | Normal previousStateForKey =>
          match r previousStateForKey action h with
          | (_, Raise _) => []
          | (h1, Normal nextStateForKey) =>
              (previousStateForKey, nextStateForKey) ::
              (if is_undefined nextStateForKey then []
               else slices rest state action nextState
                      (set_field nextState key nextStateForKey h1).1)
          end
      end
  end.

End WithEnvironment.

End CombineReducers.

(* ===================================================================== *)
(** ** createStore (src/redux/createStore.js)                             *)
(* ===================================================================== *)

Module Store.

(** The double quote character, for the messages that quote a word. *)
Definition dq : string := String (Ascii.ascii_of_nat 34) EmptyString.

(** [ActionTypes.INIT] *)
Definition INIT : string := "@@redux/INIT".

(** What the listener arrays hold: a function of the client, or the closure
    [observeState] that the [c]-th call of the observable's [subscribe]
    created for its [observer].  Two listeners are the same function object
    exactly when they are equal here. *)
Inductive listener : Type :=
| UserFn (f : fid)
| ObserveState (c : nat) (observer : value).

#[global] Instance listener_eq_dec : EqDecision listener.
Proof. solve_decision. Defined.

(** Ghost events: what the store did, in order.  They are not part of the
    JavaScript state; they record the calls that the store makes into client
    code and the replacement of the reducer. *)
Inductive event : Type :=
| EvReducer (f : fid) (state action : value)
| EvReplace (f : fid)
| EvListener (l : listener)
| EvNext (c : nat) (observer state : value).

#[global] Instance event_eq_dec : EqDecision event.
Proof. solve_decision. Defined.

(** The variables that the closure of [createStore] holds, with the two
    heaps they point into.  [currentListeners] and [nextListeners] are
    references to arrays, so that [nextListeners === currentListeners] is a
    comparison of references and a [push] is seen through every alias.
    [subs] has one entry per closure [unsubscribe] returned so far: its
    variable [isSubscribed] and the [listener] it captured. *)
Record world : Type := mkWorld {
  currentReducer : fid;
  currentState : value;
  currentListeners : loc;
  nextListeners : loc;
  isDispatching : bool;
  arrays : gmap loc (list listener);
  subs : list (bool * listener);
  observers : nat;
  objs : heap;
  log : list event
}.

Definition set_currentReducer (f : fid) (w : world) : world :=
  mkWorld f (currentState w) (currentListeners w) (nextListeners w)
          (isDispatching w) (arrays w) (subs w) (observers w) (objs w) (log w).

Definition set_currentState (v : value) (w : world) : world :=
  mkWorld (currentReducer w) v (currentListeners w) (nextListeners w)
          (isDispatching w) (arrays w) (subs w) (observers w) (objs w) (log w).

Definition set_currentListeners (a : loc) (w : world) : world :=
  mkWorld (currentReducer w) (currentState w) a (nextListeners w)
          (isDispatching w) (arrays w) (subs w) (observers w) (objs w) (log w).

Definition set_nextListeners (a : loc) (w : world) : world :=
  mkWorld (currentReducer w) (currentState w) (currentListeners w) a
          (isDispatching w) (arrays w) (subs w) (observers w) (objs w) (log w).

Definition set_isDispatching (b : bool) (w : world) : world :=
  mkWorld (currentReducer w) (currentState w) (currentListeners w)
          (nextListeners w) b (arrays w) (subs w) (observers w) (objs w) (log w).

Definition set_arrays (m : gmap loc (list listener)) (w : world) : world :=
  mkWorld (currentReducer w) (currentState w) (currentListeners w)
          (nextListeners w) (isDispatching w) m (subs w) (observers w)
          (objs w) (log w).

Definition set_subs (s : list (bool * listener)) (w : world) : world :=
  mkWorld (currentReducer w) (currentState w) (currentListeners w)
          (nextListeners w) (isDispatching w) (arrays w) s (observers w)
          (objs w) (log w).

Definition set_observers (c : nat) (w : world) : world :=
  mkWorld (currentReducer w) (currentState w) (currentListeners w)
          (nextListeners w) (isDispatching w) (arrays w) (subs w) c
          (objs w) (log w).

Definition set_objs (h : heap) (w : world) : world :=
  mkWorld (currentReducer w) (currentState w) (currentListeners w)
          (nextListeners w) (isDispatching w) (arrays w) (subs w)
          (observers w) h (log w).

(** Ghost: append an event to the log. *)
Definition log_event (e : event) (w : world) : world :=
  mkWorld (currentReducer w) (currentState w) (currentListeners w)
          (nextListeners w) (isDispatching w) (arrays w) (subs w)
          (observers w) (objs w) (log w ++ [e]).

(** The array a reference points to. *)
Definition array_at (w : world) (a : loc) : list listener :=
  default [] (arrays w !! a).

(** *** Client code

    A function of the client is a tree of the calls it makes on the store;
    each continuation receives what the call returned or threw, so a
    [try]/[catch] around a store call is a continuation that goes on after
    [Raise], and an uncaught exception is a continuation that rethrows it.
    [Heap] is any computation of the client on its own objects. *)
Inductive prog : Type :=
| Ret (v : value)
| Throw (e : exn)
| Heap (f : heap -> heap * value) (k : value -> prog)
| GetState (k : value -> prog)
| Dispatch (action : value) (k : outcome value -> prog)
| Subscribe (listener : value) (k : outcome nat -> prog)
| Unsubscribe (handle : nat) (k : prog)
| ReplaceReducer (nextReducer : value) (k : outcome value -> prog)
| Observe (observer : value) (k : outcome nat -> prog).

(** What running client code gives: [None] when the fuel ran out. *)
Definition result (A : Type) : Type := option (world * outcome A).

(** [nextListeners.indexOf(listener)]: [-1] when absent. *)
Fixpoint indexOf (l : listener) (arr : list listener) : Z :=
  match arr with
  | [] => -1
  | x :: rest =>
      if bool_decide (x = l) then 0
      else let i := indexOf l rest in
           if (i <? 0)%Z then -1 else (i + 1)%Z
  end.

(** [arr.splice(start, 1)]: a negative [start] counts from the end (and is
    clamped at 0), a [start] beyond the end removes nothing. *)
Definition splice1 (start : Z) (arr : list listener) : list listener :=
  let len := Z.of_nat (length arr) in
  let s := if (start <? 0)%Z then Z.max (len + start) 0 else Z.min start len in
  delete (Z.to_nat s) arr.

(** [ensureCanMutateNextListeners] *)
Definition ensureCanMutateNextListeners (w : world) : world :=
  if bool_decide (nextListeners w = currentListeners w) then
    let a := fresh_loc (arrays w) in
    set_nextListeners a
      (set_arrays (<[a := array_at w (currentListeners w)]> (arrays w)) w)
  else w.

(** [subscribe] once its argument is known to be a function: the new
    closure [unsubscribe] is the handle returned. *)
Definition subscribe_listener (l : listener) (w : world) : world * nat :=
  let handle := length (subs w) in
  let w1 := set_subs (subs w ++ [(true, l)]) w in
  let w2 := ensureCanMutateNextListeners w1 in
  let w3 :=
    set_arrays (<[nextListeners w2 := array_at w2 (nextListeners w2) ++ [l]]>
                  (arrays w2)) w2 in
  (w3, handle).
Arguments subscribe_listener : simpl never.

(** [subscribe(listener)] *)
Definition subscribe (listener : value) (w : world) : world * outcome nat :=
  match listener with
  | VFun f => let '(w', handle) := subscribe_listener (UserFn f) w in
              (w', Normal handle)
  | _ => (w, Raise (JsError ErrorC "Expected listener to be a function."))
  end.

(** A call of the closure [unsubscribe] number [handle]. *)
Definition unsubscribe (handle : nat) (w : world) : world :=
  match subs w !! handle with
  | Some (true, l) =>
      let w1 := set_subs (<[handle := (false, l)]> (subs w)) w in
      let w2 := ensureCanMutateNextListeners w1 in
      let index := indexOf l (array_at w2 (nextListeners w2)) in
      set_arrays (<[nextListeners w2 :=
                      splice1 index (array_at w2 (nextListeners w2))]>
                    (arrays w2)) w2
  | _ => w
  end.

(** [getState()] *)
Definition getState (w : world) : value := currentState w.

(** The first two guards of [dispatch]: a plain object whose [type] is not
    [undefined]. *)
Definition well_formed (h : heap) (action : value) : bool :=
  isPlainObject h action &&
  match get_prop h action "type" with
  | Normal t => negb (is_undefined t)
  | Raise _ => false
  end.

Definition not_plain_error : exn :=
  JsError ErrorC
    "Actions must be plain objects. Use custom middleware for async actions.".

Definition undefined_type_error : exn :=
  JsError ErrorC
    ("Actions may not have an undefined " +:+ dq +:+ "type" +:+ dq +:+
     " property. Have you misspelled a constant?").

Definition reducer_dispatch_error : exn :=
  JsError ErrorC "Reducers may not dispatch actions.".

(** [isDispatching = true] and, ghost, the record of the call made next. *)
Definition begin_dispatch (action : value) (w : world) : world :=
  set_isDispatching true
    (log_event (EvReducer (currentReducer w) (currentState w) action) w).

(** After the reducer returned [v]: the [finally] block, the assignment to
    [currentState], and [currentListeners = nextListeners]. *)
Definition commit_dispatch (v : value) (w : world) : world :=
  set_currentListeners (nextListeners w)
    (set_currentState v (set_isDispatching false w)).

(** [{ type: ActionTypes.INIT }]: a new plain object. *)
Definition alloc_init_action (w : world) : world * value :=
  let l := fresh_loc (objs w) in
  (set_objs (<[l := mkObject true {[ "type" := VStr INIT ]}]> (objs w)) w,
   VRef l).

Section Semantics.

(** The bodies of the client's functions. *)
Variable code : fid -> list value -> prog.

Section Level.

(** The iterations left for a notification loop, and how a function of the
    client is called. *)
Variable fuel : nat.
Variable call : fid -> list value -> world -> result value.

(** [observeState()] of the closure made for [observer]. *)
Definition observeState (c : nat) (observer : value) (w : world)
  : result value :=
  match get_prop (objs w) observer "next" with
  | Raise e => Some (w, Raise e)
  | Normal next =>
      if truthy next then
        match next with
        | VFun f =>
            match call f [getState w]
                       (log_event (EvNext c observer (getState w)) w) with
            | Some (w', Normal _) => Some (w', Normal VUndefined)
            | r => r
            end
        | _ => Some (w, Raise (JsError TypeErrorC
                                 "observer.next is not a function"))
        end
      else Some (w, Normal VUndefined)
  end.

(** [listener()] for an element of a listener array. *)
Definition invoke (l : listener) (w : world) : result value :=
  match l with
  | UserFn f => call f [] w
  | ObserveState c observer => observeState c observer w
  end.

(** [for (let i = 0; i < listeners.length; i++) listeners[i]()], from
    index [i] on.  The array is read through its reference at every
    iteration. *)
Fixpoint notify_loop (k : nat) (listeners : loc) (i : nat) (w : world)
  : result value :=
  match k with
  | O => None
  | S k' =>
      match array_at w listeners !! i with
      | None => Some (w, Normal VUndefined)
      | Some l =>
          match invoke l (log_event (EvListener l) w) with
          | Some (w', Normal _) => notify_loop k' listeners (S i) w'
          | r => r
          end
      end
  end.

(** [dispatch(action)] *)
Definition dispatch (action : value) (w : world) : result value :=
  if negb (isPlainObject (objs w) action) then
    Some (w, Raise not_plain_error)
  else
    match get_prop (objs w) action "type" with
    | Raise e => Some (w, Raise e)
    | Normal t =>
        if is_undefined t then Some (w, Raise undefined_type_error)
        else if isDispatching w then Some (w, Raise reducer_dispatch_error)
        else
          match call (currentReducer w) [currentState w; action]
                     (begin_dispatch action w) with
          | None => None
          | Some (w', Raise e) => Some (set_isDispatching false w', Raise e)
          | Some (w', Normal v) =>
              let w'' := commit_dispatch v w' in
              match notify_loop fuel (currentListeners w'') 0 w'' with
              | Some (w3, Normal _) => Some (w3, Normal action)
              | r => r
              end
          end
    end.

(** The specification of the notification: every listener of a list taken
    once is called, in order, until one throws. *)
Fixpoint notify_snapshot (snapshot : list listener) (w : world)
  : result value :=
  match snapshot with
  | [] => Some (w, Normal VUndefined)
  | l :: rest =>
      match invoke l (log_event (EvListener l) w) with
      | Some (w', Normal _) => notify_snapshot rest w'
      | r => r
      end
  end.

(** The specification of [dispatch]: as [dispatch], but the listeners to
    call are the content of [nextListeners] when the reducer has returned,
    taken once as a list. *)
Definition dispatch_snapshot (action : value) (w : world) : result value :=
  if negb (isPlainObject (objs w) action) then
    Some (w, Raise not_plain_error)
  else
    match get_prop (objs w) action "type" with
    | Raise e => Some (w, Raise e)
    | Normal t =>
        if is_undefined t then Some (w, Raise undefined_type_error)
        else if isDispatching w then Some (w, Raise reducer_dispatch_error)
        else
          match call (currentReducer w) [currentState w; action]
                     (begin_dispatch action w) with
          | None => None
          | Some (w', Raise e) => Some (set_isDispatching false w', Raise e)
          | Some (w', Normal v) =>
              let snapshot := array_at w' (nextListeners w') in
              match notify_snapshot snapshot (commit_dispatch v w') with
              | Some (w3, Normal _) => Some (w3, Normal action)
              | r => r
              end
          end
    end.

(** [replaceReducer(nextReducer)] *)
Definition replaceReducer (nextReducer : value) (w : world) : result value :=
  match nextReducer with
  | VFun f =>
      let w1 := log_event (EvReplace f) (set_currentReducer f w) in
      let '(w2, action) := alloc_init_action w1 in
      match dispatch action w2 with
      | Some (w', Normal _) => Some (w', Normal VUndefined)
      | r => r
      end
  | _ => Some (w, Raise (JsError ErrorC
                           "Expected the nextReducer to be a function."))
  end.

(** [store[$$observable]().subscribe(observer)]: the handle returned stands
    for the [unsubscribe] of the object returned. *)
Definition observable_subscribe (observer : value) (w : world) : result nat :=
  if negb (bool_decide (typeof observer = TObject)) then
    Some (w, Raise (JsError TypeErrorC
                      "Expected the observer to be an object."))
  else
    let c := observers w in
    match observeState c observer (set_observers (S c) w) with
    | None => None
    | Some (w', Raise e) => Some (w', Raise e)
    | Some (w', Normal _) =>
        let '(w'', handle) := subscribe_listener (ObserveState c observer) w' in
        Some (w'', Normal handle)
    end.

(** Running the body of a client function. *)
Fixpoint exec (p : prog) (w : world) : result value :=
  match p with
  | Ret v => Some (w, Normal v)
  | Throw e => Some (w, Raise e)
  | Heap f k => let '(h', v) := f (objs w) in exec (k v) (set_objs h' w)
  | GetState k => exec (k (getState w)) w
  | Dispatch action k =>
      match dispatch action w with
      | None => None
      | Some (w', r) => exec (k r) w'
      end
  | Subscribe listener k =>
      let '(w', r) := subscribe listener w in exec (k r) w'
  | Unsubscribe handle k => exec k (unsubscribe handle w)
  | ReplaceReducer nextReducer k =>
      match replaceReducer nextReducer w with
      | None => None
      | Some (w', r) => exec (k r) w'
      end
  | Observe observer k =>
      match observable_subscribe observer w with
      | None => None
      | Some (w', r) => exec (k r) w'
      end
  end.

End Level.

(** A call of the client's function [f], with [n] levels of nested calls
    (and [n] iterations of each notification loop) left. *)
Fixpoint call (n : nat) (f : fid) (args : list value) (w : world)
  : result value :=
  match n with
  | O => None
  | S n' => exec n' (call n') (code f args) w
  end.

(** The store's methods as the client of the store calls them. *)
Definition store_dispatch (n : nat) : value -> world -> result value :=
  dispatch n (call n).

Definition store_replaceReducer (n : nat) : value -> world -> result value :=
  replaceReducer n (call n).

Definition store_observe (n : nat) : value -> world -> result nat :=
  observable_subscribe (call n).

(** The store's variables as [createStore] initialises them.  [h] holds the
    objects of the client that exist at the call. *)
Definition init_world (reducer : fid) (preloadedState : value) (h : heap)
  : world :=
  mkWorld reducer preloadedState 0 0 false {[ 0 := [] ]} [] 0 h [].

(** What [createStore] returns: the store it made, or, with an enhancer,
    whatever [enhancer(createStore)(reducer, preloadedState)] returns; that
    call is the client's, and it is recorded here, not run. *)
Inductive created : Type :=
  | Made (w : world)
  | Enhanced (enhancer : fid) (reducer preloadedState : value).

(** [createStore(reducer, preloadedState, enhancer)]: a function given as
    second argument with no third one is the enhancer; without an enhancer
    the variables are initialised and [dispatch({ type: ActionTypes.INIT })]
    runs. *)
Definition createStore (n : nat) (reducer preloadedState enhancer : value)
    (h : heap) : option (outcome created) :=
  let '(preloadedState, enhancer) :=
    if is_function preloadedState && is_undefined enhancer
    then (VUndefined, preloadedState)
    else (preloadedState, enhancer) in
  if negb (is_undefined enhancer) then
    match enhancer with
    | VFun e => Some (Normal (Enhanced e reducer preloadedState))
    | _ => Some (Raise (JsError ErrorC "Expected the enhancer to be a function."))
    end
  else
    match reducer with
    | VFun f =>
        let '(w, action) := alloc_init_action (init_world f preloadedState h) in
        match store_dispatch n action w with
        | None => None
        | Some (w', Normal _) => Some (Normal (Made w'))
        | Some (_, Raise e) => Some (Raise e)
        end
    | _ => Some (Raise (JsError ErrorC "Expected the reducer to be a function."))
    end.

(** [actions.forEach(action => store.dispatch(action))] from outside the
    store, when every dispatch returns: the worlds after each dispatch. *)
Fixpoint dispatch_all (n : nat) (actions : list value) (w : world)
  : option (list world) :=
  match actions with
  | [] => Some []
  | action :: rest =>
      match store_dispatch n action w with
      | Some (w1, Normal _) =>
          match dispatch_all n rest w1 with
          | Some worlds => Some (w1 :: worlds)
          | None => None
          end
      | _ => None
      end
  end.

End Semantics.

(** A reducer that only reads: it returns [r h state action], where [h]
    holds the objects as they are at the call (the fields of [action] among
    them), and changes nothing. *)
Definition pure_reducer (r : heap -> value -> value -> value)
  (state action : value) : prog :=
  Heap (fun h => (h, r h state action)) Ret.

(** The specification of a sequence of dispatches: after each, [getState()]
    is [r] of the state held before it and its action. *)
Fixpoint reduced_chain (r : heap -> value -> value -> value) (w : world)
  (actions : list value) (worlds : list world) : Prop :=
  match actions, worlds with
  | [], [] => True
  | action :: rest, w1 :: worlds' =>
      getState w1 = r (objs w) (getState w) action /\
      reduced_chain r w1 rest worlds'
  | _, _ => False
  end.

(** Ghost: the events that can change the store's state or reducer. *)
Definition is_write (e : event) : bool :=
  match e with
  | EvReducer _ _ _ | EvReplace _ => true
  | _ => false
  end.

Definition writes (w : world) : nat := length (filter is_write (log w)).

(** Ghost: the calls of a reducer, and the calls of [next] made through the
    closure [observeState] number [c]. *)
Definition is_reducer_call (e : event) : bool :=
  match e with
  | EvReducer _ _ _ => true
  | _ => false
  end.

Definition reducer_calls (w : world) : nat :=
  length (filter is_reducer_call (log w)).

Definition is_next_of (c : nat) (e : event) : bool :=
  match e with
  | EvNext c' _ _ => bool_decide (c' = c)
  | _ => false
  end.

Definition next_calls (c : nat) (w : world) : nat :=
  length (filter (is_next_of c) (log w)).

(** The closure [observeState] number [c] stands in no array. *)
Definition absent (c : nat) (w : world) : Prop :=
  forall a arr observer,
    arrays w !! a = Some arr -> ObserveState c observer ∉ arr.

(** Every closure [observeState] that stands in an array was counted when
    it was created. *)
Definition closures_known (w : world) : Prop :=
  forall a arr c observer,
    arrays w !! a = Some arr -> ObserveState c observer ∈ arr ->
    c < observers w.

(** How many times a listener stands in an array, and how many closures
    [unsubscribe] for it are still subscribed. *)
Fixpoint occurrences (l : listener) (arr : list listener) : nat :=
  match arr with
  | [] => 0
  | x :: rest => (if bool_decide (x = l) then 1 else 0) + occurrences l rest
  end.

Fixpoint active (l : listener) (s : list (bool * listener)) : nat :=
  match s with
  | [] => 0
  | x :: rest => (if bool_decide (x = (true, l)) then 1 else 0) + active l rest
  end.

(** An array without the first occurrence of a listener. *)
Fixpoint remove_first (l : listener) (arr : list listener) : list listener :=
  match arr with
  | [] => []
  | x :: rest => if bool_decide (x = l) then rest else x :: remove_first l rest
  end.

(** The registry is well formed: both references point to arrays, and the
    array that the next dispatch will read holds each listener once per
    subscription still in force. *)
Definition wf (w : world) : Prop :=
  is_Some (arrays w !! currentListeners w) /\
  is_Some (arrays w !! nextListeners w) /\
  forall l, occurrences l (array_at w (nextListeners w)) = active l (subs w).

(** An array that no [push] or [splice] can reach: any array but the one
    [nextListeners] points to, and that one too while [currentListeners]
    points to it (the next mutation then copies it first). *)
Definition frozen (w : world) (a : loc) : Prop :=
  is_Some (arrays w !! a) /\
  (a <> nextListeners w \/ a = currentListeners w).

End Store.

(* ===================================================================== *)
(** ** connectAdvanced (src/react-redux/connect/mergeProps.js)            *)
(* ===================================================================== *)

Module Connect.

(** The field [error] of a selector object: not set yet, [null], or what a
    [catch] caught. *)
Inductive error_slot : Type :=
| ErrUndefined
| ErrNull
| ErrCaught (e : exn).

(** [if (selector.error)] *)
Definition truthy_slot (s : error_slot) : bool :=
  match s with
  | ErrCaught e => truthy_exn e
  | _ => false
  end.

(** The object that [makeSelectorStateful] returns, without its method
    [run]: the memo cell of one container instance. *)
Record selector : Type := mkSelector {
  shouldComponentUpdate : value;
  props : value;
  error : error_slot
}.

(** [const selector = { run: ... }]: no other field is set. *)
Definition new_selector : selector :=
  mkSelector VUndefined VUndefined ErrUndefined.

(** A source selector [(state, props) => nextProps] of the client. *)
Definition source_selector : Type := value -> value -> M value.

(** [selector.run(props)] of [makeSelectorStateful(sourceSelector, store)];
    [getState] is [store.getState]. *)
Definition run (sourceSelector : source_selector) (getState : M value)
  (ownProps : value) (sel : selector) : M selector :=
  try_catch
    (state <- getState ;;
     nextProps <- sourceSelector state ownProps ;;
     if negb (strict_eq nextProps (props sel)) || truthy_slot (error sel)
     then ret (mkSelector (VBool true) nextProps ErrNull)
     else ret sel)%js
    (fun e => ret (mkSelector (VBool true) (props sel) (ErrCaught e))).

(** [render()] of [Connect], with the options [withRef] and
    [renderCountProp] off and the store taken from the context, so that
    [addExtraProps] returns the props it is given: the selector after, and
    the props that the wrapped component is created with, or what is
    thrown. *)
Definition render (sel : selector) : selector * outcome value :=
  let sel' := mkSelector (VBool false) (props sel) (error sel) in
  match error sel with
  | ErrCaught e => if truthy_exn e then (sel', Raise e)
                   else (sel', Normal (props sel))
  | _ => (sel', Normal (props sel))
  end.

(** *** The tree of containers *)

(** A mounted container: its identity, its source selector, the props its
    parent gave it, and the containers subscribed to its subscription node,
    in the order in which they subscribed. *)
Inductive container : Type :=
| Container (id : nat) (sourceSelector : source_selector) (ownProps : value)
            (children : list container).

Definition container_id (c : container) : nat :=
  match c with Container id _ _ _ => id end.

Definition container_children (c : container) : list container :=
  match c with Container _ _ _ children => children end.

(** Ghost events: a selector was run, a container was rendered, a container
    called [notifyNestedSubs]. *)
Inductive event : Type :=
| EvRun (id : nat)
| EvRender (id : nat)
| EvNotifyNested (id : nat).

#[global] Instance event_eq_dec : EqDecision event.
Proof. solve_decision. Defined.

(** The fields of one [Connect] instance that change: its selector, and
    whether [componentDidUpdate] is [notifyNestedSubsOnComponentDidUpdate]
    (or [undefined]). *)
Record instance : Type := mkInstance {
  inst_selector : selector;
  componentDidUpdate : bool
}.

Record world : Type := mkWorld {
  instances : gmap nat instance;
  storeState : value;
  objs : heap;
  log : list event
}.

Definition instance_at (w : world) (id : nat) : instance :=
  default (mkInstance new_selector false) (instances w !! id).

Definition set_instance (id : nat) (i : instance) (w : world) : world :=
  mkWorld (<[id := i]> (instances w)) (storeState w) (objs w) (log w).

Definition set_objs (h : heap) (w : world) : world :=
  mkWorld (instances w) (storeState w) h (log w).

Definition log_event (e : event) (w : world) : world :=
  mkWorld (instances w) (storeState w) (objs w) (log w ++ [e]).

(** [this.selector.run(this.props)] for the instance [id]. *)
Definition run_selector (id : nat) (sourceSelector : source_selector)
  (ownProps : value) (w : world) : world :=
  let i := instance_at w id in
  match run sourceSelector (ret (storeState w)) ownProps (inst_selector i)
            (objs w) with
  | (h, Normal sel) =>
      set_instance id (mkInstance sel (componentDidUpdate i)) (set_objs h w)
  | (h, Raise _) => set_objs h w
  end.

Section Notification.

(** Modelled from the spec: [notifyNestedSubs] of the subscription node
    (utils/Subscription is not among the sources).  The node "notif[ies] its
    own children": the state-change handlers of the containers subscribed
    to it are called in order.  [handler] is the state-change handler of a
    child. *)
Variable handler : container -> world -> world * outcome unit.

Fixpoint notifyNestedSubs (children : list container) (w : world)
  : world * outcome unit :=
  match children with
  | [] => (w, Normal tt)
  | child :: rest =>
      match handler child w with
      | (w', Normal _) => notifyNestedSubs rest w'
      | (w', Raise e) => (w', Raise e)
      end
  end.

(** [notifyNestedSubsOnComponentDidUpdate()] *)
Definition notifyNestedSubsOnComponentDidUpdate (id : nat)
  (children : list container) (w : world) : world * outcome unit :=
  let i := instance_at w id in
  let w1 := set_instance id (mkInstance (inst_selector i) false) w in
  notifyNestedSubs children (log_event (EvNotifyNested id) w1).

(** Modelled from the spec: the host's answer to [setState], "a mechanism
    for the container to request recomputation without receiving new own
    properties" (React is not among the sources).  The host asks "should
    this instance recompute its output"; if so it has the instance render,
    and once that is done it calls the hook [componentDidUpdate] if the
    instance has one.  An exception of [render] ends the update. *)
Definition setState (id : nat) (children : list container) (w : world)
  : world * outcome unit :=
  let i := instance_at w id in
  if truthy (shouldComponentUpdate (inst_selector i)) then
    let '(sel, rendered) := render (inst_selector i) in
    let w1 := set_instance id (mkInstance sel (componentDidUpdate i))
                (log_event (EvRender id) w) in
    match rendered with
    | Raise e => (w1, Raise e)
    | Normal _ =>
        if componentDidUpdate i
        then notifyNestedSubsOnComponentDidUpdate id children w1
        else (w1, Normal tt)
    end
  else (w, Normal tt).

End Notification.

(** [onStateChange()] of the instance of [c]. *)
Fixpoint onStateChange (c : container) (w : world) : world * outcome unit :=
  match c with
  | Container id sourceSelector ownProps children =>
      let w1 := run_selector id sourceSelector ownProps
                  (log_event (EvRun id) w) in
      let i := instance_at w1 id in
      if negb (truthy (shouldComponentUpdate (inst_selector i))) then
        notifyNestedSubs onStateChange children
          (log_event (EvNotifyNested id) w1)
      else
        let w2 := set_instance id (mkInstance (inst_selector i) true) w1 in
        setState onStateChange id children w2
  end.

End Connect.

(* ===================================================================== *)
(** ** bindActionCreators (src/unnamed/part_003)                          *)
(* ===================================================================== *)

Module BindActionCreators.

(** The double quote character. *)
Definition dq : string := String (Ascii.ascii_of_nat 34) EmptyString.

(** The name that [typeof] gives. *)
Definition type_name (t : type_tag) : string :=
  match t with
  | TUndefined => "undefined"
  | TObject => "object"
  | TBoolean => "boolean"
  | TNumber => "number"
  | TString => "string"
  | TFunction => "function"
  end.

(** A property of the object [actionCreators]: a function or something
    else. *)
Inductive property : Type :=
| PFn (f : jsfun)
| PVal (v : value).

(** The argument [actionCreators]: a function, an object (its properties
    in the order of [Object.keys]), or a value that is neither (a primitive,
    [null] or [undefined]). *)
Inductive creators : Type :=
| Creator (f : jsfun)
| Creators (props : list (string * property))
| NotCreators (v : value).

(** What [bindActionCreators] returns: a function or the object
    [boundActionCreators]. *)
Inductive bound : Type :=
| Bound (f : jsfun)
| BoundObject (boundActionCreators : gmap string jsfun).

(** [bindActionCreator(actionCreator, dispatch)] *)
Definition bindActionCreator (actionCreator dispatch : jsfun) : jsfun :=
  fun args => (action <- actionCreator args ;; dispatch [action])%js.

Definition expected_error (actionCreators : value) : exn :=
  JsError ErrorC
    ("bindActionCreators expected an object or a function, instead received " +:+
     (if bool_decide (actionCreators = VNull) then "null"
      else type_name (typeof actionCreators)) +:+ ". " +:+
     "Did you write " +:+ dq +:+ "import ActionCreators from" +:+ dq +:+
     " instead of " +:+ dq +:+ "import * as ActionCreators from" +:+ dq +:+ "?").

(** The [for] loop over the keys, from some key on. *)
Fixpoint bind_keys (props : list (string * property)) (dispatch : jsfun)
  (boundActionCreators : gmap string jsfun) : gmap string jsfun :=
  match props with
  | [] => boundActionCreators
  | (key, PFn actionCreator) :: rest =>
      bind_keys rest dispatch
        (<[key := bindActionCreator actionCreator dispatch]> boundActionCreators)
  | (key, PVal _) :: rest => bind_keys rest dispatch boundActionCreators
  end.

(** [bindActionCreators(actionCreators, dispatch)] *)
Definition bindActionCreators (actionCreators : creators) (dispatch : jsfun)
  : outcome bound :=
  match actionCreators with
  | Creator f => Normal (Bound (bindActionCreator f dispatch))
  | NotCreators v => Raise (expected_error v)
  | Creators props => Normal (BoundObject (bind_keys props dispatch ∅))
  end.

End BindActionCreators.

(* ===================================================================== *)
(** ** applyMiddleware (src/redux/applyMiddleware.js) and redux-thunk
       (src/redux-thunk/index.js)                                         *)
(* ===================================================================== *)

Module Middleware.

Import Store.

(** A dispatch function: that of the store, or one that middleware
    wrapped. *)
Definition dispatcher : Type := value -> world -> result value.

(** [middlewareAPI] *)
Record middlewareAPI : Type := mkAPI {
  api_getState : world -> value;
  api_dispatch : dispatcher
}.

(** A middleware [api => next => action => ...], in the form in which
    middleware is written: the two outer calls only make closures, and the
    code of the middleware runs when an action arrives. *)
Definition middleware : Type := middlewareAPI -> dispatcher -> dispatcher.

(** [compose(...funcs)] of src/redux/compose.js, on functions whose call
    only makes a closure. *)
Definition compose {A} (funcs : list (A -> A)) : A -> A :=
  match funcs with
  | [] => fun arg => arg
  | [f] => f
  | f :: rest => Compose.reduce (fun a b => fun args => a (b args)) f rest
  end.

Section ApplyMiddleware.

Variable middlewares : list middleware.

(** [store.dispatch] and [store.getState] of the store that [createStore]
    returned. *)
Variable store_dispatch : dispatcher.
Variable store_getState : world -> value.

(** The [dispatch] of the store that [applyMiddleware(...middlewares)]
    returns, with [n] levels of calls of [middlewareAPI.dispatch] left.
    [middlewareAPI.dispatch] calls whatever the variable [dispatch] holds
    when an action arrives, which is this function itself. *)
Fixpoint dispatch (n : nat) : dispatcher :=
  match n with
  | O => fun _ _ => None
  | S n' =>
      let middlewareAPI := mkAPI store_getState (dispatch n') in
      let chain := map (fun middleware => middleware middlewareAPI) middlewares in
      compose chain store_dispatch
  end.

End ApplyMiddleware.

(** *** redux-thunk *)

(** The body of an action that is a function
    [(dispatch, getState, extraArgument) => ...]: a tree of the calls it
    makes on its first two arguments. *)
Inductive thunk : Type :=
| Return (v : value)
| Fail (e : exn)
| CallDispatch (action : value) (k : outcome value -> thunk)
| CallGetState (k : value -> thunk).

(** [action(dispatch, getState, extraArgument)] *)
Fixpoint run_thunk (dispatch : dispatcher) (getState : world -> value)
  (body : thunk) (w : world) : result value :=
  match body with
  | Return v => Some (w, Normal v)
  | Fail e => Some (w, Raise e)
  | CallDispatch action k =>
      match dispatch action w with
      | None => None
      | Some (w', r) => run_thunk dispatch getState (k r) w'
      end
  | CallGetState k => run_thunk dispatch getState (k (getState w)) w
  end.

(** [createThunkMiddleware(extraArgument)]; [bodies] gives the body of
    each function that may come as an action. *)
Definition createThunkMiddleware (bodies : fid -> value -> thunk)
  (extraArgument : value) : middleware :=
  fun api next action =>
    match action with
    | VFun f =>
        run_thunk (api_dispatch api) (api_getState api)
                  (bodies f extraArgument)
    | _ => next action
    end.

(** [const thunk = createThunkMiddleware()] *)
Definition thunk_middleware (bodies : fid -> value -> thunk) : middleware :=
  createThunkMiddleware bodies VUndefined.

End Middleware.

(* ===================================================================== *)
(** ** mergeProps and the choice of its initialiser
       (src/react-redux/connect/mergeProps.js)                            *)
(* ===================================================================== *)

Module MergeProps.

Import CombineReducers.

(** The characters of a string as the properties ["0"], ["1"], ... *)
Fixpoint characters (i : nat) (s : string) : gmap string value :=
  match s with
  | EmptyString => ∅
  | String c rest =>
      <[pretty i := VStr (String c EmptyString)]> (characters (S i) rest)
  end.

(** The own enumerable properties that [...v] copies: those of an object,
    the characters of a string, nothing for any other value. *)
Definition spread (h : heap) (v : value) : gmap string value :=
  match v with
  | VRef l => fields_at h l
  | VStr s => characters 0 s
  | _ => ∅
  end.

(** [defaultMergeProps(stateProps, dispatchProps, ownProps)]:
    [{ ...ownProps, ...stateProps, ...dispatchProps }], a property copied
    later replacing one copied before. *)
Definition defaultMergeProps (stateProps dispatchProps ownProps : value)
  : M value :=
  fun h =>
    alloc (mkObject true
             (spread h dispatchProps ∪ spread h stateProps ∪ spread h ownProps))
          h.

(** A function [mergeProps] of the client, and the comparison
    [areMergedPropsEqual]. *)
Definition merger : Type := value -> value -> value -> M value.
Definition comparison : Type := value -> value -> M value.

(** The variables [hasRunOnce] and [mergedProps] of one
    [initMergePropsProxy]. *)
Record memo : Type := mkMemo {
  hasRunOnce : bool;
  mergedProps : value
}.

Definition new_memo : memo := mkMemo false VUndefined.

(** [mergePropsProxy(stateProps, dispatchProps, ownProps)] of
    [wrapMergePropsFunc(mergeProps)(dispatch, { pure, areMergedPropsEqual })]:
    the variables after, the heap after, and what is returned or thrown.
    The check of development builds only warns. *)
Definition mergePropsProxy (mergeProps : merger) (pure : value)
  (areMergedPropsEqual : comparison) (vars : memo)
  (stateProps dispatchProps ownProps : value) (h : heap)
  : memo * heap * outcome value :=
  match mergeProps stateProps dispatchProps ownProps h with
  | (h1, Raise e) => (vars, h1, Raise e)
  | (h1, Normal nextMergedProps) =>
      if hasRunOnce vars then
        if negb (truthy pure) then
          (mkMemo true nextMergedProps, h1, Normal nextMergedProps)
        else
          match areMergedPropsEqual nextMergedProps (mergedProps vars) h1 with
          | (h2, Raise e) => (vars, h2, Raise e)
          | (h2, Normal equal) =>
              if negb (truthy equal) then
                (mkMemo true nextMergedProps, h2, Normal nextMergedProps)
              else (vars, h2, Normal (mergedProps vars))
          end
      else (mkMemo true nextMergedProps, h1, Normal nextMergedProps)
  end.

(** The argument [mergeProps] of [connect]: a function or another value. *)
Inductive argument : Type :=
| ArgFn (f : merger)
| ArgVal (v : value).

Definition typeof_argument (arg : argument) : type_tag :=
  match arg with
  | ArgFn _ => TFunction
  | ArgVal v => typeof v
  end.

(** What a factory returns when it applies: [wrapMergePropsFunc(mergeProps)]
    or [() => defaultMergeProps]. *)
Inductive initialiser : Type :=
| Wrapped (mergeProps : merger)
| Default.

(** [whenMergePropsIsFunction(mergeProps)]: [None] is [undefined]. *)
Definition whenMergePropsIsFunction (mergeProps : argument)
  : option initialiser :=
  match mergeProps with
  | ArgFn f => Some (Wrapped f)
  | ArgVal _ => None
  end.

(** [whenMergePropsIsOmitted(mergeProps)] *)
Definition whenMergePropsIsOmitted (mergeProps : argument)
  : option initialiser :=
  match mergeProps with
  | ArgFn _ => None
  | ArgVal v => if negb (truthy v) then Some Default else None
  end.

(** The default export: [[whenMergePropsIsFunction, whenMergePropsIsOmitted]] *)
Definition defaultMergePropsFactories
  : list (argument -> option initialiser) :=
  [whenMergePropsIsFunction; whenMergePropsIsOmitted].

(** *** match (connect.js) *)

Definition type_name (t : type_tag) : string :=
  match t with
  | TUndefined => "undefined"
  | TObject => "object"
  | TBoolean => "boolean"
  | TNumber => "number"
  | TString => "string"
  | TFunction => "function"
  end.

(** What [match] returns: the result of a factory, or the function that
    throws when it is called with the options. *)
Inductive matched (R : Type) : Type :=
| Found (result : R)
| Invalid (type name : string).
Arguments Found {R} result.
Arguments Invalid {R} type name.

(** The error that the function returned for an invalid argument throws. *)
Definition invalid_error (type name wrappedComponentName : string) : exn :=
  JsError ErrorC
    ("Invalid value of type " +:+ type +:+ " for " +:+ name +:+
     " argument when connecting component " +:+ wrappedComponentName +:+ ".").

(** [for (let i = factories.length - 1; i >= 0; i--)], with [i + 1] in
    the place of [i]. *)
Fixpoint match_from {A R} (i : nat) (arg : A)
  (factories : list (A -> option R)) : option R :=
  match i with
  | O => None
  | S i' =>
      match factories !! i' with
      | Some factory =>
          match factory arg with
          | Some result => Some result
          | None => match_from i' arg factories
          end
      | None => match_from i' arg factories
      end
  end.

(** [match(arg, factories, name)] for the argument [mergeProps]. *)
Definition match_ {R} (arg : argument)
  (factories : list (argument -> option R)) (name : string) : matched R :=
  match match_from (length factories) arg factories with
  | Some result => Found result
  | None => Invalid (type_name (typeof_argument arg)) name
  end.

End MergeProps.

(* ===================================================================== *)
(** ** wrapMapToProps (src/unnamed/part_000)                              *)
(* ===================================================================== *)

Module MapToProps.

(** A function of the client that maps to props: its [length] (the number
    of its declared parameters), its property [dependsOnOwnProps], and its
    body, which returns props or, when it is a factory, another such
    function. *)
Inductive mapfn : Type :=
| MapFn (length : nat) (dependsOnOwnProps : value)
        (body : list value -> heap -> heap * outcome (value + mapfn)).

Definition returned : Type := (value + mapfn)%type.

Definition call_fn (f : mapfn) (args : list value)
  : heap -> heap * outcome returned :=
  match f with MapFn _ _ body => body args end.

(** [wrapMapToPropsConstant(getConstant)(dispatch, options)]: the constant
    is computed once, and [constantSelector] returns it. *)
Definition constantSelector (constant : value) : mapfn :=
  MapFn 0 (VBool false) (fun _ => ret (inl constant)).

Definition initConstantSelector (getConstant : value -> value -> M value)
  (dispatch options : value) : M mapfn :=
  (constant <- getConstant dispatch options ;;
   ret (constantSelector constant))%js.

(** [getDependsOnOwnProps(mapToProps)] *)
Definition getDependsOnOwnProps (mapToProps : mapfn) : bool :=
  match mapToProps with
  | MapFn length dependsOnOwnProps _ =>
      if negb (strict_eq dependsOnOwnProps VNull)
         && negb (strict_eq dependsOnOwnProps VUndefined)
      then truthy dependsOnOwnProps
      else negb (Nat.eqb length 1)
  end.

(** What [proxy.mapToProps] holds: [detectFactoryAndVerify], or a function
    of the client. *)
Inductive target : Type :=
| DetectFactoryAndVerify
| Installed (mapToProps : mapfn).

(** The two properties of the function [proxy] that change. *)
Record proxy : Type := mkProxy {
  proxy_dependsOnOwnProps : bool;
  proxy_mapToProps : target
}.

(** The proxy as [initProxySelector] returns it. *)
Definition new_proxy : proxy := mkProxy true DetectFactoryAndVerify.

(** [proxy(stateOrDispatch, ownProps)] when a function of the client is
    installed. *)
Definition call_installed (dependsOnOwnProps : bool) (mapToProps : mapfn)
  (stateOrDispatch ownProps : value) : heap -> heap * outcome returned :=
  if dependsOnOwnProps
  then call_fn mapToProps [stateOrDispatch; ownProps]
  else call_fn mapToProps [stateOrDispatch].

(** [mapToPropsProxy(stateOrDispatch, ownProps)] of
    [wrapMapToPropsFunc(mapToProps, methodName)]: the proxy after, the heap
    after, and what is returned or thrown.  The check of development builds
    only warns. *)
Definition mapToPropsProxy (mapToProps : mapfn) (p : proxy)
  (stateOrDispatch ownProps : value) (h : heap)
  : proxy * heap * outcome returned :=
  match proxy_mapToProps p with
  | Installed f =>
      let '(h1, r) :=
        call_installed (proxy_dependsOnOwnProps p) f stateOrDispatch ownProps h in
      (p, h1, r)
  | DetectFactoryAndVerify =>
      (* detectFactoryAndVerify(stateOrDispatch, ownProps) *)
      let ownProps :=
        if proxy_dependsOnOwnProps p then ownProps else VUndefined in
      let p1 := mkProxy (getDependsOnOwnProps mapToProps)
                        (Installed mapToProps) in
      match call_installed (proxy_dependsOnOwnProps p1) mapToProps
              stateOrDispatch ownProps h with
      | (h1, Raise e) => (p1, h1, Raise e)
      | (h1, Normal (inl props)) => (p1, h1, Normal (inl props))
      | (h1, Normal (inr props)) =>
          let p2 := mkProxy (getDependsOnOwnProps props) (Installed props) in
          let '(h2, r) :=
            call_installed (proxy_dependsOnOwnProps p2) props
              stateOrDispatch ownProps h1 in
          (p2, h2, r)
      end
  end.

End MapToProps.

(* ===================================================================== *)
(** ** debounce (src/unnamed/part_001)                                    *)
(* ===================================================================== *)

Module Debounce.

Local Open Scope Z_scope.

(** A number of milliseconds as JavaScript has it: an integer or [NaN]. *)
Inductive number : Type :=
| Num (z : Z)
| NaN.

(** [+v || 0] for a number [v], or for [undefined] when it is missing. *)
Definition or_zero (v : option number) : Z :=
  match v with
  | Some (Num z) => z
  | _ => 0
  end.

(** The object [options]: the value of [leading] ([undefined] when it is
    not there), and the properties [maxWait] and [trailing] when the object
    has them ([None] when ['maxWait' in options] is false). *)
Record options : Type := mkOptions {
  opt_leading : value;
  opt_maxWait : option number;
  opt_trailing : option value
}.

(** The function to debounce: called with [this] and the arguments. *)
Definition function : Type := value -> list value -> outcome value.

(** The argument [func]: a function or another value. *)
Inductive func_arg : Type :=
| Func (f : function)
| NotFunc (v : value).

(** The variables that [debounce] sets once. *)
Record config : Type := mkConfig {
  func : function;
  wait : Z;
  leading : bool;
  maxing : bool;
  maxWait : Z;
  trailing : bool
}.

(** The start of [debounce(func, wait, options)]: the check of [func] and
    the reading of the options ([options] is [None] when it is not an
    object). *)
Definition debounce (func : func_arg) (wait : option number)
  (opts : option options) : outcome config :=
  match func with
  | NotFunc _ => Raise (JsError TypeErrorC "Expected a function")
  | Func f =>
      let wait := or_zero wait in
      match opts with
      | None => Normal (mkConfig f wait false false 0 true)
      | Some o =>
          let leading := truthy (opt_leading o) in
          let maxing := bool_decide (is_Some (opt_maxWait o)) in
          let maxWait :=
            match opt_maxWait o with
            | Some m => Z.max (or_zero (Some m)) wait
            | None => 0
            end in
          let trailing :=
            match opt_trailing o with
            | Some t => truthy t
            | None => true
            end in
          Normal (mkConfig f wait leading maxing maxWait trailing)
      end
  end.

(** One call of the debounced function: [this] and the arguments, which
    the variables [lastThis] and [lastArgs] hold together. *)
Record call : Type := mkCall {
  this : value;
  args : list value
}.

(** The variables of the closure, the timers that the runtime holds (each
    with the time from which it may fire), and, ghost, the calls of [func]
    made so far with their time. *)
Record state : Type := mkState {
  lastCall : option call;
  result : value;
  timerId : option nat;
  lastCallTime : option Z;
  lastInvokeTime : Z;
  timers : gmap nat Z;
  invoked : list (Z * call)
}.

Definition new_state : state :=
  mkState None VUndefined None None 0 ∅ [].

Definition set_lastCall (c : option call) (s : state) : state :=
  mkState c (result s) (timerId s) (lastCallTime s) (lastInvokeTime s)
          (timers s) (invoked s).

Definition set_result (v : value) (s : state) : state :=
  mkState (lastCall s) v (timerId s) (lastCallTime s) (lastInvokeTime s)
          (timers s) (invoked s).

Definition set_timerId (t : option nat) (s : state) : state :=
  mkState (lastCall s) (result s) t (lastCallTime s) (lastInvokeTime s)
          (timers s) (invoked s).

Definition set_lastCallTime (t : option Z) (s : state) : state :=
  mkState (lastCall s) (result s) (timerId s) t (lastInvokeTime s)
          (timers s) (invoked s).

Definition set_lastInvokeTime (t : Z) (s : state) : state :=
  mkState (lastCall s) (result s) (timerId s) (lastCallTime s) t
          (timers s) (invoked s).

Definition set_timers (m : gmap nat Z) (s : state) : state :=
  mkState (lastCall s) (result s) (timerId s) (lastCallTime s)
          (lastInvokeTime s) m (invoked s).

Definition log_invocation (time : Z) (c : call) (s : state) : state :=
  mkState (lastCall s) (result s) (timerId s) (lastCallTime s)
          (lastInvokeTime s) (timers s) (invoked s ++ [(time, c)]).

(** [timerId = setTimeout(timerExpired, delay)] at the time [now]: a delay
    that is negative or [NaN] counts as 0. *)
Definition setTimeout (now : Z) (delay : option Z) (s : state) : state :=
  let id := fresh (dom (timers s)) in
  let due := now + Z.max 0 (default 0 delay) in
  set_timerId (Some id) (set_timers (<[id := due]> (timers s)) s).

(** [clearTimeout(id)] *)
Definition clearTimeout (id : nat) (s : state) : state :=
  set_timers (delete id (timers s)) s.

Section Debounced.

Variable c : config.

(** [invokeFunc(time)]; [func.apply(undefined, undefined)] is a call
    without arguments. *)
Definition invokeFunc (time : Z) (s : state) : state * outcome value :=
  let call := default (mkCall VUndefined []) (lastCall s) in
  let s1 := log_invocation time call
              (set_lastInvokeTime time (set_lastCall None s)) in
  match func c (this call) (args call) with
  | Normal r => (set_result r s1, Normal r)
  | Raise e => (s1, Raise e)
  end.

(** [leadingEdge(time)] *)
Definition leadingEdge (time : Z) (s : state) : state * outcome value :=
  let s1 := setTimeout time (Some (wait c)) (set_lastInvokeTime time s) in
  if leading c then invokeFunc time s1 else (s1, Normal (result s1)).

(** [remainingWait(time)]: [None] is [NaN]. *)
Definition remainingWait (time : Z) (s : state) : option Z :=
  match lastCallTime s with
  | None => None
  | Some lastCallTime =>
      let timeSinceLastCall := time - lastCallTime in
      let timeSinceLastInvoke := time - lastInvokeTime s in
      let timeWaiting := wait c - timeSinceLastCall in
      Some (if maxing c
            then Z.min timeWaiting (maxWait c - timeSinceLastInvoke)
            else timeWaiting)
  end.

(** [shouldInvoke(time)] *)
Definition shouldInvoke (time : Z) (s : state) : bool :=
  match lastCallTime s with
  | None => true
  | Some lastCallTime =>
      let timeSinceLastCall := time - lastCallTime in
      let timeSinceLastInvoke := time - lastInvokeTime s in
      (wait c <=? timeSinceLastCall)
      || (timeSinceLastCall <? 0)
      || (maxing c && (maxWait c <=? timeSinceLastInvoke))
  end.

(** [trailingEdge(time)] *)
Definition trailingEdge (time : Z) (s : state) : state * outcome value :=
  let s1 := set_timerId None s in
  if trailing c && bool_decide (is_Some (lastCall s1))
  then invokeFunc time s1
  else let s2 := set_lastCall None s1 in (s2, Normal (result s2)).

(** [timerExpired()], with [Date.now()] giving [now] *)
Definition timerExpired (now : Z) (s : state) : state * outcome value :=
  if shouldInvoke now s then trailingEdge now s
  else (setTimeout now (remainingWait now s) s, Normal VUndefined).

(** [cancel()] *)
Definition cancel (s : state) : state :=
  let s1 := match timerId s with
            | Some id => clearTimeout id s
            | None => s
            end in
  set_timerId None
    (set_lastCallTime None (set_lastCall None (set_lastInvokeTime 0 s1))).

(** [flush()] *)
Definition flush (now : Z) (s : state) : state * outcome value :=
  match timerId s with
  | None => (s, Normal (result s))
  | Some _ => trailingEdge now s
  end.

(** [pending()] *)
Definition pending (s : state) : bool := bool_decide (is_Some (timerId s)).

(** [debounced(...args)], with [Date.now()] giving [now] *)
Definition debounced (now : Z) (call : call) (s : state)
  : state * outcome value :=
  let time := now in
  let isInvoking := shouldInvoke time s in
  let s1 := set_lastCallTime (Some time) (set_lastCall (Some call) s) in
  let otherwise (s : state) :=
    let s2 := match timerId s with
              | None => setTimeout time (Some (wait c)) s
              | Some _ => s
              end in
    (s2, Normal (result s2)) in
  if isInvoking then
    match timerId s1 with
    | None => leadingEdge time s1
    | Some _ =>
        if maxing c
        then invokeFunc time (setTimeout time (Some (wait c)) s1)
        else otherwise s1
    end
  else otherwise s1.

(** *** The debounced function in time *)

(** What happens to the debounced function: it is called, the runtime
    fires one of its timers, or one of its methods is called. *)
Inductive event : Type :=
| Call (now : Z) (call : call)
| Fire (now : Z) (id : nat)
| Cancel
| Flush (now : Z).

(** The runtime fires the timer [id] at [now] when it holds it and its time
    has come; the timer is then gone. *)
Definition fire (now : Z) (id : nat) (s : state) : state :=
  match timers s !! id with
  | Some due =>
      if due <=? now
      then (timerExpired now (set_timers (delete id (timers s)) s)).1
      else s
  | None => s
  end.

Definition step (s : state) (e : event) : state :=
  match e with
  | Call now call => (debounced now call s).1
  | Fire now id => fire now id s
  | Cancel => cancel s
  | Flush now => (flush now s).1
  end.

Definition run (events : list event) : state := fold_left step events new_state.

End Debounced.

End Debounce.

(* ===================================================================== *)
(** ** debounce and throttle, the short version (src/unnamed/part_002)    *)
(* ===================================================================== *)

Module SimpleDebounce.

Import Debounce.

Local Open Scope Z_scope.

(** The argument [options]: left out, [null], or an object with its
    properties [leading], [trailing] and [maxWait] ([undefined] when a
    property is not there; [maxWait], when it is, is a number). *)
Inductive given : Type :=
| Omitted
| Null
| Options (leading trailing : value) (maxWait : option number).

(** The variables that [debounce] sets once. *)
Record config : Type := mkConfig {
  fn : function;
  delay : option number;
  leading : value;
  trailing : value;
  maxWait : option number
}.

(** [debounce(fn, delay, options = {})] up to the function it returns:
    destructuring [null] throws. *)
Definition debounce (fn : function) (delay : option number) (options : given)
  : outcome config :=
  match options with
  | Omitted => Normal (mkConfig fn delay VUndefined VUndefined None)
  | Null =>
      Raise (JsError TypeErrorC
               "Cannot destructure property 'leading' of 'options' as it is null.")
  | Options leading trailing maxWait =>
      Normal (mkConfig fn delay leading trailing maxWait)
  end.

(** [_.throttle(fn, delay, option)]: [{ ...option, maxWait: delay }];
    spreading [undefined] or [null] gives no property. *)
Definition throttle (fn : function) (delay : option number) (option : given)
  : outcome config :=
  debounce fn delay
    match option with
    | Options leading trailing _ => Options leading trailing delay
    | _ => Options VUndefined VUndefined delay
    end.

(** Whether a number that may be missing is truthy, and its value in a
    subtraction or a comparison when it is. *)
Definition truthy_number (n : option number) : bool :=
  match n with
  | Some (Num z) => negb (z =? 0)
  | _ => false
  end.

(** The variables of the closure, the timers that the runtime holds, and,
    ghost, the calls of [fn] made so far with the time that [exec] read. *)
Record state : Type := mkState {
  last_call : option Z;
  latest : option call;
  now : option Z;
  timer : option nat;
  first : bool;
  timers : gmap nat Z;
  invoked : list (Z * call)
}.

Definition new_state : state := mkState None None None None true ∅ [].

Section Debounced.

Variable c : config.

(** [exec()], with [new Date().getTime()] giving [time]; the state when
    [fn] throws is the state at that point. *)
Definition exec (time : Z) (s : state) : state * outcome value :=
  let call := default (mkCall VUndefined []) (latest s) in
  let s1 := mkState (Some time) (latest s) (now s) (timer s) (first s)
                    (timers s) (invoked s ++ [(time, call)]) in
  match fn c (this call) (args call) with
  | Normal _ => (s1, Normal VUndefined)
  | Raise e => (s1, Raise e)
  end.

(** The function given to [setTimeout], with [new Date().getTime()] giving
    [time]. *)
Definition expired (time : Z) (s : state) : state * outcome value :=
  let after (s : state) :=
    mkState None (latest s) (now s) (timer s) true (timers s) (invoked s) in
  if truthy (trailing c) then
    match exec time s with
    | (s1, Normal _) => (after s1, Normal VUndefined)
    | (s1, Raise e) => (s1, Raise e)
    end
  else (after s, Normal VUndefined).

(** The function that [debounce] returns, called with [call];
    [new Date().getTime()] gives [time] at the start and [later] in
    [exec]. *)
Definition debounced (time later : Z) (call : call) (s : state)
  : state * outcome value :=
  (* clearTimeout(timer); timer = setTimeout(..., delay) *)
  let cleared := match timer s with
                 | Some id => delete id (timers s)
                 | None => timers s
                 end in
  let id := fresh (dom cleared) in
  let due := time + Z.max 0 (or_zero (delay c)) in
  let s1 := mkState (last_call s) (Some call) (Some time) (Some id) (first s)
                    (<[id := due]> cleared) (invoked s) in
  if first s1 && truthy (leading c) then
    exec later (mkState (last_call s1) (latest s1) (now s1) (timer s1) false
                        (timers s1) (invoked s1))
  else
    let s2 :=
      if truthy_number (maxWait c)
         && match last_call s1 with
            | None => true
            | Some l => l =? 0
            end
      then mkState (Some time) (latest s1) (now s1) (timer s1) (first s1)
                   (timers s1) (invoked s1)
      else s1 in
    if truthy_number (maxWait c)
       && match last_call s2 with
          | Some l => or_zero (maxWait c) <=? time - l
          | None => false
          end
    then exec later s2
    else (s2, Normal VUndefined).

(** What happens to the function returned: it is called, or the runtime
    fires a timer. *)
Inductive event : Type :=
| Call (time later : Z) (call : call)
| Fire (time : Z) (id : nat).

Definition fire (time : Z) (id : nat) (s : state) : state :=
  match timers s !! id with
  | Some due =>
      if due <=? time
      then (expired time
              (mkState (last_call s) (latest s) (now s) (timer s) (first s)
                       (delete id (timers s)) (invoked s))).1
      else s
  | None => s
  end.

Definition step (s : state) (e : event) : state :=
  match e with
  | Call time later call => (debounced time later call s).1
  | Fire time id => fire time id s
  end.

Definition run (events : list event) : state := fold_left step events new_state.

End Debounced.

End SimpleDebounce.

(* ===================================================================== *)
(** ** compose: the laws                                               *)
(* ===================================================================== *)

Section ComposeLaws.

Import Compose.

(** The specification of right-to-left composition:
    [compose(f, g, h)(...args) == f(g(h(...args)))]. *)
Fixpoint right_to_left (funcs : list jsfun) : jsfun :=
  match funcs with
  | [] => identity
  | [f] => f
  | f :: rest => fun args => (y <- right_to_left rest args ;; f [y])%js
  end.

Lemma bind_assoc {A B C} (m : M A) (k : A -> M B) (k' : B -> M C) (h : heap) :
  bind (bind m k) k' h = bind m (fun a => bind (k a) k') h.
Proof. unfold bind. destruct (m h) as [h' [a|e]]; reflexivity. Qed.

Lemma bind_ext {A B} (m : M A) (k k' : A -> M B) (h : heap) :
  (forall a h', k a h' = k' a h') -> bind m k h = bind m k' h.
Proof. intros Hk. unfold bind. destruct (m h) as [h' [a|e]]; auto. Qed.

Lemma reduce_compose2 (rest : list jsfun) :
  forall (a g : jsfun) (args : list value) (h : heap),
    reduce compose2 a (g :: rest) args h
    = bind (right_to_left (g :: rest) args) (fun y => a [y]) h.
Proof.
  induction rest as [|g' rest IH]; intros a g args h.
  - reflexivity.
  - change (reduce compose2 a (g :: g' :: rest))
      with (reduce compose2 (compose2 a g) (g' :: rest)).
    rewrite IH.
    change (right_to_left (g :: g' :: rest) args)
      with (bind (right_to_left (g' :: rest) args) (fun y => g [y])).
    rewrite bind_assoc. reflexivity.
Qed.

(** [compose] composes any number of functions from right to left. *)
Lemma compose_right_to_left (funcs : list jsfun) (args : list value) (h : heap) :
  compose funcs args h = right_to_left funcs args h.
Proof.
  destruct funcs as [|f [|g rest]]; try reflexivity.
  unfold compose. apply reduce_compose2.
Qed.

(** C6: [compose()] is the identity on a single argument, [compose(f)] is
    [f] itself, and [compose(f, g)(x)] is [f(g(x))]: [g] runs first, on [x],
    and [f] runs on what [g] returned (an exception of [g] propagates and
    [f] is not called). *)
Theorem compose_laws :
  (forall (x : value) (h : heap), compose [] [x] h = (h, Normal x)) /\
  (forall f : jsfun, compose [f] = f) /\
  (forall (f g : jsfun) (x : value) (h : heap),
      compose [f; g] [x] h
      = match g [x] h with
        | (h', Normal y) => f [y] h'
        | (h', Raise e) => (h', Raise e)
        end).
Proof. repeat split. Qed.

End ComposeLaws.

(* ===================================================================== *)
(** ** Properties of combineReducers                                      *)
(* ===================================================================== *)

Module CombineProofs.

Import CombineReducers.

Section WithEnvironment.

Variable toString : heap -> value -> string.
Variable random : nat -> string.

(** [nextStateForKey !== previousStateForKey] for a pair of [slices]. *)
Definition changed (pn : value * value) : bool := negb (strict_eq pn.2 pn.1).

(** [hasChanged] at the end of the loop: whether it held at the start or
    a slice changed on the way. *)
Lemma combination_loop_hasChanged reducers state action nextState :
  forall hasChanged h h' b,
    combination_loop toString reducers state action nextState hasChanged h
    = (h', Normal b) ->
    b = hasChanged || existsb changed (slices reducers state action nextState h).
Proof.
  induction reducers as [|[key r] rest IH]; intros hasChanged h h' b; simpl.
  - unfold ret. intros [= _ ->]. by rewrite orb_false_r.
  - unfold bind at 1, get.
    destruct (get_prop h state key) as [prev|e]; [|done].
    unfold bind at 1.
    destruct (r prev action h) as [h1 [next|e]]; [|done].
    destruct (is_undefined next); [done|].
    unfold bind at 1. simpl. intros H. apply IH in H. rewrite H.
    unfold changed at 2. simpl. by rewrite orb_assoc.
Qed.

(** When the loop returns, the object [nextState] is a plain object of the
    heap. *)
Lemma combination_loop_plain reducers state action nextState :
  forall hasChanged h h' b,
    isPlainObject h (VRef nextState) = true ->
    combination_loop toString reducers state action nextState hasChanged h
    = (h', Normal b) ->
    reducers <> [] ->
    isPlainObject h' (VRef nextState) = true.
Proof.
  induction reducers as [|[key r] rest IH]; intros hasChanged h h' b Hp;
    simpl; [done|].
  unfold bind at 1, get.
  destruct (get_prop h state key) as [prev|e]; [|done].
  unfold bind at 1.
  destruct (r prev action h) as [h1 [next|e]]; [|done].
  destruct (is_undefined next); [done|].
  unfold bind at 1. simpl. intros H _.
  destruct rest as [|kr rest'].
  - simpl in H. unfold ret in H. injection H as <- _.
    by rewrite lookup_insert_eq.
  - eapply IH; [|apply H|done]. simpl. by rewrite lookup_insert_eq.
Qed.


(** The loop returns as soon as every sub-reducer returned something other
    than [undefined]. *)
Lemma combination_loop_returns reducers state action nextState :
  forall hasChanged h,
    let trace := slices reducers state action nextState h in
    length trace = length reducers ->
    Forall (fun pn => is_undefined pn.2 = false) trace ->
    exists h' b,
      combination_loop toString reducers state action nextState hasChanged h
      = (h', Normal b).
Proof.
  induction reducers as [|[key r] rest IH]; intros hasChanged h; simpl.
  - intros _ _. by eexists _, _.
  - unfold bind at 1, get.
    destruct (get_prop h state key) as [prev|e]; [|done].
    unfold bind at 1.
    destruct (r prev action h) as [h1 [next|e]]; [|done].
    simpl. intros Hlen Hdef. apply Forall_cons in Hdef as [Hnext Hdef].
    simpl in Hnext. rewrite Hnext in *.
    unfold bind at 1. simpl. apply IH; [by injection Hlen|done].
Qed.

(** [combination] returns when no validation error is pending and every
    sub-reducer returned something other than [undefined]. *)
Lemma combination_returns c l action h :
  pending_error c = None ->
  let nextState := fresh_loc h in
  let trace :=
    slices (finalReducers c) (VRef l) action nextState
           (<[nextState := mkObject true ∅]> h) in
  length trace = length (finalReducers c) ->
  Forall (fun pn => is_undefined pn.2 = false) trace ->
  exists h' v, combination toString c (VRef l) action h = (h', Normal v).
Proof.
  intros Hno nextState trace Hlen Hdef.
  unfold combination. simpl. unfold bind at 1, ret at 1. rewrite Hno.
  unfold bind at 1, alloc at 1. unfold bind at 1.
  destruct (combination_loop_returns (finalReducers c) (VRef l) action
              nextState false (<[nextState := mkObject true ∅]> h) Hlen Hdef)
    as (h' & b & Hloop).
  fold nextState. rewrite Hloop. unfold ret. by eexists _, _.
Qed.

(** A sub-reducer that does not touch the object at [l] (it cannot reach
    [nextState], which is local to [combination]). *)
Definition leaves_alone (l : loc) (r : reducer) : Prop :=
  forall previous action h, (r previous action h).1 !! l = h !! l.

(** The record assembled: when the loop returns, [nextState] holds, on top
    of what it held, [nextStateForKey] under each key. *)
Lemma combination_loop_assembles reducers state action nextState :
  Forall (fun kr => leaves_alone nextState kr.2) reducers ->
  forall hasChanged h h' b,
    combination_loop toString reducers state action nextState hasChanged h
    = (h', Normal b) ->
    fields_at h' nextState
    = fold_left (fun m kn => <[kn.1 := kn.2]> m)
        (zip reducers.*1 (slices reducers state action nextState h).*2)
        (fields_at h nextState).
Proof.
  induction 1 as [|[key r] rest Hr _ IH]; intros hasChanged h h' b; simpl.
  - unfold ret. by intros [= <- _].
  - unfold bind at 1, get.
    destruct (get_prop h state key) as [prev|e]; [|done].
    unfold bind at 1.
    pose proof (Hr prev action h) as Hleft. simpl in Hleft.
    destruct (r prev action h) as [h1 [next|e]]; [|done].
    destruct (is_undefined next); [done|].
    unfold bind at 1. simpl. intros H. apply IH in H. rewrite H.
    f_equal. unfold fields_at at 1. rewrite lookup_insert_eq. simpl.
    unfold fields_at. simpl in Hleft. by rewrite Hleft.
Qed.

(** *** C5: the shape assertion *)

(** A sub-reducer that returns [undefined] for the initialisation action
    fails its probe with the first validation error. *)
Lemma probe_init_undefined i key r h :
  let initAction := VRef (fresh_loc h) in
  let h0 := <[fresh_loc h := mkObject true {[ "type" := VStr INIT ]}]> h in
  forall h1,
    r VUndefined initAction h0 = (h1, Normal VUndefined) ->
    probe random i key r h = (h1, Raise (init_error key)).
Proof.
  intros initAction h0 h1 Hr. unfold probe, bind at 1, alloc at 1.
  unfold bind at 1. fold h0. fold initAction. by rewrite Hr.
Qed.

(** A sub-reducer that returns a state for the initialisation action and
    [undefined] for the action of a random type fails its probe with the
    second validation error. *)
Lemma probe_random_undefined i key r h :
  let initAction := VRef (fresh_loc h) in
  let h0 := <[fresh_loc h := mkObject true {[ "type" := VStr INIT ]}]> h in
  forall h1 initialState,
    r VUndefined initAction h0 = (h1, Normal initialState) ->
    is_undefined initialState = false ->
    let type := "@@redux/PROBE_UNKNOWN_ACTION_" +:+ random i in
    let probeAction := VRef (fresh_loc h1) in
    let h2 := <[fresh_loc h1 := mkObject true {[ "type" := VStr type ]}]> h1 in
    forall h3,
      r VUndefined probeAction h2 = (h3, Normal VUndefined) ->
      probe random i key r h = (h3, Raise (probe_error key)).
Proof.
  intros initAction h0 h1 initialState Hr Hdef type probeAction h2 h3 Hr'.
  unfold probe, bind at 1, alloc at 1.
  unfold bind at 1. fold h0. fold initAction. rewrite Hr, Hdef.
  unfold bind at 1, alloc at 1. unfold bind at 1.
  fold type. fold h2. fold probeAction. by rewrite Hr'.
Qed.

(** The probes stop at the first sub-reducer that fails. *)
Lemma assertReducerShape_fails i before key r after h h1 h2 e :
  assertReducerShape random i before h = (h1, Normal tt) ->
  probe random (i + length before) key r h1 = (h2, Raise e) ->
  assertReducerShape random i (before ++ (key, r) :: after) h = (h2, Raise e).
Proof.
  revert i h. induction before as [|[k0 r0] before IH]; intros i h; simpl.
  - unfold ret. intros [= ->]. rewrite Nat.add_0_r. intros Hp.
    unfold bind. by rewrite Hp.
  - intros Hb Hp. unfold bind in Hb at 1. unfold bind at 1.
    destruct (probe random i k0 r0 h) as [h0 [[]|e0]]; [|done].
    apply IH; [done|].
    by replace (S i + length before) with (i + S (length before)) by lia.
Qed.

(** C5: [combineReducers] returns, whatever the probes of
    [assertReducerShape] did.  When the probes stopped at a sub-reducer (the
    sub-reducers before it passed, and its own probe threw [e]: a validation
    error when it returned [undefined] for the initialisation action or for
    the action of a random type), [e] is kept in the closure, and whenever
    [e] is truthy, as every validation error is, each invocation of the
    combined reducer, the first included, throws [e] before any sub-reducer
    is called. *)
Theorem shape_error_deferred reducers h :
  exists h' c,
    combineReducers random reducers h = (h', Normal c) /\
    finalReducers c = functions_of reducers /\
    (forall before key r after h1 h2 e,
        functions_of reducers = before ++ (key, r) :: after ->
        assertReducerShape random 0 before h = (h1, Normal tt) ->
        probe random (length before) key r h1 = (h2, Raise e) ->
        h' = h2 /\
        shapeAssertionError c = Some e /\
        (truthy_exn e = true ->
         forall state action h3,
           exists h4,
             combination toString c state action h3 = (h4, Raise e) /\
             (state <> VUndefined -> h4 = h3))) /\
    (forall key,
        truthy_exn (init_error key) = true /\
        truthy_exn (probe_error key) = true).
Proof.
  unfold combineReducers.
  destruct (assertReducerShape random 0 (functions_of reducers) h)
    as [h' [[]|e']] eqn:Hshape.
  - exists h', (mkCombined (functions_of reducers) None).
    repeat split; try done;
      pose proof (assertReducerShape_fails 0 before key r after h h1 h2 e H0 H1)
        as Hf; rewrite <- H, Hshape in Hf; done.
  - exists h', (mkCombined (functions_of reducers) (Some e')).
    split; [done|]. split; [done|]. split; [|done].
    intros before key r after h1 h2 e Hsplit Hbefore Hprobe.
    pose proof (assertReducerShape_fails 0 before key r after h h1 h2 e
                  Hbefore Hprobe) as Hf.
    rewrite <- Hsplit, Hshape in Hf. injection Hf as -> ->.
    split; [done|]. split; [done|].
    intros Htruthy state action h3.
    unfold combination, pending_error. simpl. rewrite Htruthy.
    case_bool_decide as Hu.
    + eexists. split; [reflexivity|]. done.
    + exists h3. split; [reflexivity|]. done.
Qed.

End WithEnvironment.

End CombineProofs.

(* ===================================================================== *)
(** ** Properties of the store                                            *)
(* ===================================================================== *)

Module StoreProofs.

Import Store.

(** Inverts an equation between two results. *)
Ltac inv_result :=
  repeat match goal with
    | H : Some _ = Some _ |- _ => injection H as H; subst
    | H : (_, _) = (_, _) |- _ => injection H as H; subst
    | H : Some _ = None |- _ => discriminate H
    | H : None = Some _ |- _ => discriminate H
    end.

(** *** A proof rule for every run of client code

    A relation between the world before and the world after that is
    reflexive, transitive, and kept by each step the store takes, relates
    the worlds before and after any call, whatever the client code does.
    Where the store calls client code between two of its own steps, the
    rule gives the relation across that call and asks it across the whole:
    so for the two steps of [dispatch] around the reducer (from the world in
    which the flag is set), and for the subscription of an observer around
    the first call of its [next].  The event [EvNext] of a later call is
    logged for a closure [observeState] that stands in an array. *)
Record step_closed (R : world -> world -> Prop) : Prop := {
  sc_refl : forall w, R w w;
  sc_trans : forall w1 w2 w3, R w1 w2 -> R w2 w3 -> R w1 w3;
  sc_listener : forall l w, R w (log_event (EvListener l) w);
  sc_next :
    forall a i c observer w,
      array_at w a !! i = Some (ObserveState c observer) ->
      R w (log_event (EvNext c observer (getState w)) w);
  sc_objs : forall h w, R w (set_objs h w);
  sc_observe_silent :
    forall observer w,
      let w1 := set_observers (S (observers w)) w in
      R w w1 /\
      R w (subscribe_listener (ObserveState (observers w) observer) w1).1;
  sc_observe :
    forall observer w w',
      let c := observers w in
      R (log_event (EvNext c observer (getState w)) (set_observers (S c) w)) w' ->
      R w w' /\ R w (subscribe_listener (ObserveState c observer) w').1;
  sc_subscribe : forall f w, R w (subscribe_listener (UserFn f) w).1;
  sc_unsubscribe : forall handle w, R w (unsubscribe handle w);
  sc_replace :
    forall f w, R w (log_event (EvReplace f) (set_currentReducer f w));
  sc_commit :
    forall action v w w',
      isDispatching w = false ->
      R (begin_dispatch action w) w' -> R w (commit_dispatch v w');
  sc_finally :
    forall action w w',
      isDispatching w = false ->
      R (begin_dispatch action w) w' -> R w (set_isDispatching false w')
}.

(** The rule for a relation that any event, any new closure and any
    subscription keeps. *)
Record simply_closed (R : world -> world -> Prop) : Prop := {
  simple_refl : forall w, R w w;
  simple_trans : forall w1 w2 w3, R w1 w2 -> R w2 w3 -> R w1 w3;
  simple_log : forall e w, R w (log_event e w);
  simple_objs : forall h w, R w (set_objs h w);
  simple_observers : forall c w, R w (set_observers c w);
  simple_subscribe : forall l w, R w (subscribe_listener l w).1;
  simple_unsubscribe : forall handle w, R w (unsubscribe handle w);
  simple_replace :
    forall f w, R w (log_event (EvReplace f) (set_currentReducer f w));
  simple_commit :
    forall action v w w',
      isDispatching w = false ->
      R (begin_dispatch action w) w' -> R w (commit_dispatch v w');
  simple_finally :
    forall action w w',
      isDispatching w = false ->
      R (begin_dispatch action w) w' -> R w (set_isDispatching false w')
}.

Lemma step_closed_simple R : simply_closed R -> step_closed R.
Proof.
  intros [Hrefl Htrans Hlog Hobjs Hobs Hsub Hunsub Hrep Hcommit Hfin].
  split; try done.
  - intros observer w w1. split.
    + apply Hobs.
    + eapply Htrans; [apply (Hobs (S (observers w))) | apply Hsub].
  - intros observer w w' c Hrun.
    assert (R w w') as Hww'.
    { eapply Htrans; [apply (Hobs (S c))|].
      eapply Htrans; [apply Hlog | apply Hrun]. }
    split; [done|]. eapply Htrans; [apply Hww' | apply Hsub].
Qed.

Section Preservation.

Variable code : fid -> list value -> prog.
Variable R : world -> world -> Prop.
Hypothesis HR : step_closed R.

Local Abbreviation R_refl := (sc_refl R HR).
Local Abbreviation R_trans := (sc_trans R HR).
Local Abbreviation R_listener := (sc_listener R HR).
Local Abbreviation R_next := (sc_next R HR).
Local Abbreviation R_objs := (sc_objs R HR).
Local Abbreviation R_observe_silent := (sc_observe_silent R HR).
Local Abbreviation R_observe := (sc_observe R HR).
Local Abbreviation R_subscribe := (sc_subscribe R HR).
Local Abbreviation R_unsubscribe := (sc_unsubscribe R HR).
Local Abbreviation R_replace := (sc_replace R HR).
Local Abbreviation R_commit := (sc_commit R HR).
Local Abbreviation R_finally := (sc_finally R HR).

Section AtLevel.

Variable fuel : nat.
Variable call : fid -> list value -> world -> result value.
Hypothesis call_R :
  forall f args w w' r, call f args w = Some (w', r) -> R w w'.

Lemma observeState_R a i c observer w w' r :
  array_at w a !! i = Some (ObserveState c observer) ->
  observeState call c observer w = Some (w', r) -> R w w'.
Proof.
  unfold observeState. intros Hin H.
  destruct (get_prop (objs w) observer "next") as [next|e];
    [|(inv_result; apply R_refl)].
  destruct (truthy next); [|(inv_result; apply R_refl)].
  destruct next; try (inv_result; apply R_refl).
  destruct (call _ _ _) as [[w1 [v|e]]|] eqn:Hc; inv_result;
    (eapply R_trans; [eapply R_next, Hin | eapply call_R, Hc]).
Qed.

Lemma invoke_R a i l w w' r :
  array_at w a !! i = Some l ->
  invoke call l w = Some (w', r) -> R w w'.
Proof.
  destruct l as [f|c observer]; simpl;
    [intros _; apply call_R | apply observeState_R].
Qed.

Lemma notify_loop_R k :
  forall listeners i w w' r,
    notify_loop call k listeners i w = Some (w', r) -> R w w'.
Proof.
  induction k as [|k IH]; intros listeners i w w' r; simpl; [done|].
  destruct (array_at w listeners !! i) as [l|] eqn:Hl;
    [|intros; (inv_result; apply R_refl)].
  destruct (invoke call l _) as [[w1 [v|e]]|] eqn:Hi; intros H; [| |done].
  - eapply R_trans; [apply R_listener|].
    eapply R_trans; [eapply (invoke_R listeners i); [exact Hl | exact Hi]|].
    eapply IH, H.
  - inv_result. eapply R_trans; [apply R_listener|].
    eapply (invoke_R listeners i); [exact Hl | exact Hi].
Qed.

Lemma dispatch_R action w w' r :
  dispatch fuel call action w = Some (w', r) -> R w w'.
Proof.
  unfold dispatch.
  destruct (negb _); [intros; (inv_result; apply R_refl)|].
  destruct (get_prop _ _ _) as [t|e]; [|intros; (inv_result; apply R_refl)].
  destruct (is_undefined t); [intros; (inv_result; apply R_refl)|].
  destruct (isDispatching w) eqn:Hd; [intros; (inv_result; apply R_refl)|].
  destruct (call _ _ _) as [[w1 [v|e]]|] eqn:Hc; [| |done].
  - apply call_R in Hc.
    destruct (notify_loop _ _ _ _ _) as [[w2 [u|e]]|] eqn:Hn; intros H;
      inv_result;
      (eapply R_trans; [eapply R_commit; eassumption | eapply notify_loop_R, Hn]).
  - intros H. inv_result. eapply R_finally; [done | eapply call_R, Hc].
Qed.

Lemma replaceReducer_R nextReducer w w' r :
  replaceReducer fuel call nextReducer w = Some (w', r) -> R w w'.
Proof.
  unfold replaceReducer, alloc_init_action.
  destruct nextReducer; try (intros; (inv_result; apply R_refl)).
  destruct (dispatch _ _ _ _) as [[w1 [v|e]]|] eqn:Hd; intros H; inv_result;
    (eapply R_trans; [apply R_replace|];
     eapply R_trans; [apply R_objs | eapply dispatch_R, Hd]).
Qed.

Lemma observable_subscribe_R observer w w' r :
  observable_subscribe call observer w = Some (w', r) -> R w w'.
Proof.
  unfold observable_subscribe.
  destruct (negb _); [intros; (inv_result; apply R_refl)|].
  pose proof (R_observe_silent observer w) as [Hsilent Hsilent_sub].
  unfold observeState.
  destruct (get_prop _ observer "next") as [next|e]; [|intros; by inv_result].
  destruct (truthy next).
  - destruct next; try (intros; by inv_result).
    destruct (call _ _ _) as [[w1 [v|e]]|] eqn:Hc; [| |done];
      apply call_R in Hc;
      pose proof (R_observe observer w w1 Hc) as [Hrun Hsub].
    + destruct (subscribe_listener _ w1) as [w2 handle].
      intros H. by inv_result.
    + intros H. by inv_result.
  - destruct (subscribe_listener _ _) as [w2 handle].
    intros H. by inv_result.
Qed.

Lemma subscribe_R listener w : R w (subscribe listener w).1.
Proof.
  destruct listener; try apply R_refl. unfold subscribe.
  pose proof (R_subscribe f w) as Hs.
  destruct (subscribe_listener (UserFn f) w) as [w1 handle]. exact Hs.
Qed.

Lemma exec_R p :
  forall w w' r, exec fuel call p w = Some (w', r) -> R w w'.
Proof.
  induction p as [v|e|f k IH|k IH|action k IH|listener k IH|handle k IH
                 |nextReducer k IH|observer k IH]; intros w w' r; simpl.
  - intros; inv_result; apply R_refl.
  - intros; inv_result; apply R_refl.
  - destruct (f (objs w)) as [h' v]. intros H.
    eapply R_trans; [apply R_objs | eapply IH, H].
  - apply IH.
  - destruct (dispatch _ _ _ _) as [[w1 r1]|] eqn:Hd; [|done]. intros H.
    eapply R_trans; [eapply dispatch_R, Hd | eapply IH, H].
  - pose proof (subscribe_R listener w) as Hs.
    destruct (subscribe listener w) as [w1 r1]. intros H.
    eapply R_trans; [apply Hs | eapply IH, H].
  - intros H. eapply R_trans; [apply R_unsubscribe | eapply IH, H].
  - destruct (replaceReducer _ _ _ _) as [[w1 r1]|] eqn:Hd; [|done]. intros H.
    eapply R_trans; [eapply replaceReducer_R, Hd | eapply IH, H].
  - destruct (observable_subscribe _ _ _) as [[w1 r1]|] eqn:Hd; [|done].
    intros H.
    eapply R_trans; [eapply observable_subscribe_R, Hd | eapply IH, H].
Qed.

End AtLevel.

Lemma call_R n :
  forall f args w w' r, call code n f args w = Some (w', r) -> R w w'.
Proof.
  induction n as [|n IH]; intros f args w w' r; simpl; [done|].
  apply exec_R, IH.
Qed.

Lemma store_dispatch_R n action w w' r :
  store_dispatch code n action w = Some (w', r) -> R w w'.
Proof. apply dispatch_R, call_R. Qed.

Lemma store_replaceReducer_R n nextReducer w w' r :
  store_replaceReducer code n nextReducer w = Some (w', r) -> R w w'.
Proof. apply replaceReducer_R, call_R. Qed.

Lemma store_observe_R n observer w w' r :
  store_observe code n observer w = Some (w', r) -> R w w'.
Proof. apply observable_subscribe_R, call_R. Qed.

End Preservation.

(** *** What [subscribe] and [unsubscribe] leave alone *)

Ltac unfold_registry :=
  unfold subscribe_listener, unsubscribe, ensureCanMutateNextListeners;
  repeat case_match; reflexivity.

Lemma subscribe_listener_isDispatching l w :
  isDispatching (subscribe_listener l w).1 = isDispatching w.
Proof. unfold_registry. Qed.

Lemma unsubscribe_isDispatching handle w :
  isDispatching (unsubscribe handle w) = isDispatching w.
Proof. unfold_registry. Qed.

Lemma subscribe_listener_log l w : log (subscribe_listener l w).1 = log w.
Proof. unfold_registry. Qed.

Lemma unsubscribe_log handle w : log (unsubscribe handle w) = log w.
Proof. unfold_registry. Qed.

Lemma subscribe_listener_currentState l w :
  currentState (subscribe_listener l w).1 = currentState w.
Proof. unfold_registry. Qed.

Lemma unsubscribe_currentState handle w :
  currentState (unsubscribe handle w) = currentState w.
Proof. unfold_registry. Qed.

Lemma subscribe_listener_currentReducer l w :
  currentReducer (subscribe_listener l w).1 = currentReducer w.
Proof. unfold_registry. Qed.

Lemma unsubscribe_currentReducer handle w :
  currentReducer (unsubscribe handle w) = currentReducer w.
Proof. unfold_registry. Qed.

(** *** The in-dispatch flag *)

(** Whatever the client code does, a call leaves [isDispatching] as it
    found it: [dispatch] is the only one to set it, and clears it again. *)
Definition same_flag (w w' : world) : Prop :=
  isDispatching w' = isDispatching w.

Lemma same_flag_closed : step_closed same_flag.
Proof.
  apply step_closed_simple. split; unfold same_flag; try done.
  - intros w1 w2 w3 H1 H2. by rewrite H2.
  - intros. apply subscribe_listener_isDispatching.
  - intros. apply unsubscribe_isDispatching.
Qed.

(** *** The log only grows *)

Definition log_extends (w w' : world) : Prop :=
  exists es, log w' = log w ++ es.

Lemma log_extends_closed : step_closed log_extends.
Proof.
  apply step_closed_simple. split; unfold log_extends.
  - intros w. exists []. by rewrite app_nil_r.
  - intros w1 w2 w3 [es1 H1] [es2 H2]. exists (es1 ++ es2).
    by rewrite H2, H1, app_assoc.
  - intros e w0. by exists [e].
  - intros h w0. exists []. by rewrite app_nil_r.
  - intros c w0. exists []. by rewrite app_nil_r.
  - intros l w0. exists []. by rewrite subscribe_listener_log, app_nil_r.
  - intros h w0. exists []. by rewrite unsubscribe_log, app_nil_r.
  - intros f w0. by exists [EvReplace f].
  - intros a v w0 w0' _ [es H]. simpl in *. rewrite H, <- app_assoc. eauto.
  - intros a w0 w0' _ [es H]. simpl in *. rewrite H, <- app_assoc. eauto.
Qed.

(** A [dispatch] that passes its three guards calls the reducer: the call
    is the first event it adds to the log. *)
Lemma dispatch_calls_reducer code n action w w' r :
  well_formed (objs w) action = true ->
  isDispatching w = false ->
  store_dispatch code n action w = Some (w', r) ->
  exists es,
    log w' = log w ++ EvReducer (currentReducer w) (currentState w) action :: es.
Proof.
  intros Hwf Hd. unfold store_dispatch, dispatch, well_formed in *.
  destruct (isPlainObject (objs w) action); [simpl in *|done].
  destruct (get_prop (objs w) action "type") as [t|e]; [|done].
  destruct (is_undefined t); [done|]. rewrite Hd.
  destruct (call code n _ _ _) as [[w1 [v|e]]|] eqn:Hc; [| |done];
    apply (call_R code _ log_extends_closed) in Hc; destruct Hc as [es Hes];
    simpl in Hes.
  - destruct (notify_loop _ _ _ _ _) as [[w2 [u|e]]|] eqn:Hn; [| |done];
      intros H; inv_result;
      apply (notify_loop_R _ log_extends_closed) in Hn;
      try (intros ? ? ? ? ?; apply (call_R code _ log_extends_closed));
      destruct Hn as [es' Hes']; simpl in Hes';
      rewrite Hes', Hes, <- !app_assoc; simpl; eauto.
  - intros H. inv_result. simpl. rewrite Hes, <- app_assoc. simpl. eauto.
Qed.

(** *** The state changes only where the log says so *)

(** Between two worlds with the same number of reducer calls and reducer
    replacements in their logs, the state and the reducer are the same. *)
Definition state_follows_log (w w' : world) : Prop :=
  writes w <= writes w' /\
  (writes w' = writes w ->
   currentState w' = currentState w /\ currentReducer w' = currentReducer w).

Lemma writes_log_event e w :
  writes (log_event e w) = writes w + (if is_write e then 1 else 0).
Proof.
  unfold writes. simpl. rewrite filter_app, length_app. simpl.
  rewrite filter_cons, filter_nil. by destruct (is_write e).
Qed.

Lemma state_follows_log_closed : step_closed state_follows_log.
Proof.
  apply step_closed_simple. split; unfold state_follows_log.
  - done.
  - intros w1 w2 w3 [Hle1 H1] [Hle2 H2]. split; [lia|]. intros Heq.
    destruct H1 as [<- <-]; [lia|]. apply H2. lia.
  - intros e w. rewrite writes_log_event. split; [lia | done].
  - done.
  - done.
  - intros l w. unfold writes.
    rewrite subscribe_listener_log, subscribe_listener_currentState,
      subscribe_listener_currentReducer. done.
  - intros h w. unfold writes.
    rewrite unsubscribe_log, unsubscribe_currentState,
      unsubscribe_currentReducer. done.
  - intros f w. rewrite writes_log_event. simpl.
    change (writes (set_currentReducer f w)) with (writes w). lia.
  - intros a v w w' _ [Hle _].
    change (writes (commit_dispatch v w')) with (writes w').
    unfold begin_dispatch in Hle.
    change (writes (set_isDispatching true ?x)) with (writes x) in Hle.
    rewrite writes_log_event in Hle. simpl in Hle. lia.
  - intros a w w' _ [Hle _].
    change (writes (set_isDispatching false w')) with (writes w').
    unfold begin_dispatch in Hle.
    change (writes (set_isDispatching true ?x)) with (writes x) in Hle.
    rewrite writes_log_event in Hle. simpl in Hle. lia.
Qed.

(** While the flag is set (the reducer is running), nothing assigns
    [currentState] and no reducer is called. *)
Definition kept_in_reducer (w w' : world) : Prop :=
  isDispatching w = true ->
  isDispatching w' = true /\ currentState w' = currentState w /\
  reducer_calls w' = reducer_calls w.

Lemma reducer_calls_log_event e w :
  reducer_calls (log_event e w)
  = reducer_calls w + (if is_reducer_call e then 1 else 0).
Proof.
  unfold reducer_calls. simpl. rewrite filter_app, length_app. simpl.
  rewrite filter_cons, filter_nil. by destruct (is_reducer_call e).
Qed.

Lemma kept_in_reducer_closed : step_closed kept_in_reducer.
Proof.
  split; unfold kept_in_reducer.
  - done.
  - intros w1 w2 w3 H1 H2 Hd. destruct (H1 Hd) as (Hd2 & <- & <-).
    by apply H2.
  - intros l w Hd. rewrite reducer_calls_log_event. simpl.
    repeat split; [done | lia].
  - intros a i c observer w _ Hd. rewrite reducer_calls_log_event. simpl.
    repeat split; [done | lia].
  - done.
  - intros observer w. split; [done|]. intros Hd. unfold reducer_calls.
    by rewrite subscribe_listener_isDispatching,
      subscribe_listener_currentState, subscribe_listener_log.
  - intros observer w w' Hrun.
    assert (isDispatching w = true ->
            isDispatching w' = true /\ currentState w' = currentState w /\
            reducer_calls w' = reducer_calls w) as Hww'.
    { intros Hd. destruct (Hrun Hd) as (Hd' & Hst & Hrc).
      rewrite reducer_calls_log_event in Hrc. simpl in *.
      repeat split; [done | done |].
      rewrite Hrc. unfold reducer_calls. simpl. lia. }
    split; [done|]. intros Hd. destruct (Hww' Hd) as (Hd' & Hst & Hrc).
    unfold reducer_calls.
    rewrite subscribe_listener_isDispatching,
      subscribe_listener_currentState, subscribe_listener_log. done.
  - intros f w Hd. unfold reducer_calls.
    by rewrite subscribe_listener_isDispatching,
      subscribe_listener_currentState, subscribe_listener_log.
  - intros h w Hd. unfold reducer_calls.
    by rewrite unsubscribe_isDispatching, unsubscribe_currentState,
      unsubscribe_log.
  - intros f w Hd. rewrite reducer_calls_log_event. simpl.
    repeat split; [done|]. unfold reducer_calls. simpl. lia.
  - intros a v w w' Hd _ Hd'. congruence.
  - intros a w w' Hd _ Hd'. congruence.
Qed.

(** *** C2: malformed actions *)

(** C2: when [action] is not a plain object, or is one whose [type] is
    [undefined], [dispatch(action)] throws (the first or the second error of
    [dispatch]), whatever fuel is left; and the world after is the world
    before: the same [currentState], and a log without a call of the reducer
    added. *)
Theorem dispatch_rejects_malformed code n action w :
  well_formed (objs w) action = false ->
  store_dispatch code n action w
  = Some (w, Raise (if isPlainObject (objs w) action
                    then undefined_type_error else not_plain_error)).
Proof.
  unfold well_formed, store_dispatch, dispatch. intros H.
  destruct (isPlainObject (objs w) action) eqn:Hp; simpl in *; [|done].
  destruct action; try done.
  simpl in *. destruct (objs w !! l); [|done].
  by destruct (is_undefined _).
Qed.

(** *** C3: dispatching from inside a reducer *)

(** While the flag is set, [dispatch] of a well-formed action throws and
    changes nothing, with any fuel and any client code. *)
Lemma dispatch_while_dispatching fuel call action w :
  isDispatching w = true ->
  well_formed (objs w) action = true ->
  dispatch fuel call action w = Some (w, Raise reducer_dispatch_error).
Proof.
  intros Hd Hwf. unfold well_formed, dispatch in *.
  destruct (isPlainObject (objs w) action); [simpl in *|done].
  destruct (get_prop _ _ _) as [t|e]; [|done].
  destruct (is_undefined t); [done|]. by rewrite Hd.
Qed.

(** C3: let [action] be well formed and dispatched on a store that is not
    dispatching.  (1) The reducer is called in a world whose flag is set, and
    the flag is still set when the reducer returns or throws.  (2) Wherever
    the flag is set, a [dispatch] of a well-formed action throws "Reducers
    may not dispatch actions." and leaves the world as it was, and the client
    code that made the call goes on with that exception.  (3) When
    the outer [dispatch] is over, by a return or by an exception, the flag is
    clear, and (4) a later [dispatch] of a well-formed action calls the
    reducer. *)
Theorem dispatch_inside_reducer code n action w :
  well_formed (objs w) action = true ->
  isDispatching w = false ->
  (isDispatching (begin_dispatch action w) = true /\
   forall w1 r,
     call code n (currentReducer w) [currentState w; action]
          (begin_dispatch action w) = Some (w1, r) ->
     isDispatching w1 = true /\
     getState w1 = getState w /\
     reducer_calls w1 = reducer_calls (begin_dispatch action w)) /\
  (forall m call' inner w1,
     isDispatching w1 = true ->
     well_formed (objs w1) inner = true ->
     dispatch m call' inner w1 = Some (w1, Raise reducer_dispatch_error) /\
     forall k,
       exec m call' (Dispatch inner k) w1
       = exec m call' (k (Raise reducer_dispatch_error)) w1) /\
  (forall w' r,
     store_dispatch code n action w = Some (w', r) ->
     isDispatching w' = false) /\
  (forall w' r next w'' r',
     store_dispatch code n action w = Some (w', r) ->
     well_formed (objs w') next = true ->
     store_dispatch code n next w' = Some (w'', r') ->
     exists es,
       log w'' = log w' ++ EvReducer (currentReducer w') (currentState w') next
                              :: es).
Proof.
  intros Hwf Hd. repeat split.
  - by apply (call_R code _ kept_in_reducer_closed) in H as (? & ? & ?).
  - by apply (call_R code _ kept_in_reducer_closed) in H as (? & ? & ?).
  - by apply (call_R code _ kept_in_reducer_closed) in H as (? & ? & ?).
  - by apply dispatch_while_dispatching.
  - intros k. simpl. by rewrite dispatch_while_dispatching.
  - intros w' r H. apply (store_dispatch_R code _ same_flag_closed) in H.
    unfold same_flag in H. by rewrite H.
  - intros w' r next w'' r' H Hwf' H'.
    apply (store_dispatch_R code _ same_flag_closed) in H.
    unfold same_flag in H. rewrite Hd in H.
    by eapply dispatch_calls_reducer.
Qed.

(** *** C1: the state after a dispatch *)

(** One [dispatch] that returns: the reducer was called on the state held
    before and the action, it returned some [v], and, unless a listener of
    this dispatch dispatched or replaced the reducer in turn, [getState()]
    is [v] afterwards and the reducer is the same. *)
Lemma dispatch_step code n action w w' a' :
  isDispatching w = false ->
  store_dispatch code n action w = Some (w', Normal a') ->
  exists w1 v,
    call code n (currentReducer w) [getState w; action]
         (begin_dispatch action w) = Some (w1, Normal v) /\
    S (writes w) <= writes w' /\
    (writes w' = S (writes w) ->
     getState w' = v /\ currentReducer w' = currentReducer w).
Proof.
  intros Hd. unfold store_dispatch, dispatch, getState.
  destruct (negb _); [done|].
  destruct (get_prop _ _ _) as [t|e]; [|done].
  destruct (is_undefined t); [done|]. rewrite Hd.
  destruct (call code n _ _ _) as [[w1 [v|e]]|] eqn:Hc; [| |done]; [|done].
  intros H. exists w1, v. split; [done|].
  apply (call_R code _ state_follows_log_closed) in Hc.
  destruct Hc as [Hle1 Hst1].
  unfold begin_dispatch in Hle1, Hst1.
  change (writes (set_isDispatching true ?x)) with (writes x) in Hle1, Hst1.
  rewrite writes_log_event in Hle1, Hst1. simpl in Hle1, Hst1.
  assert (state_follows_log (commit_dispatch v w1) w') as [Hle2 Hst2].
  { destruct (notify_loop _ _ _ _ _) as [[w2 [u|e]]|] eqn:Hn; [| |done];
      inv_result;
      (eapply (notify_loop_R _ state_follows_log_closed); [|apply Hn];
       intros ? ? ? ? ?; apply (call_R code _ state_follows_log_closed)). }
  change (writes (commit_dispatch v w1)) with (writes w1) in Hle2, Hst2.
  split; [lia|]. intros Heq.
  destruct Hst2 as [-> ->]; [lia|]. simpl.
  split; [done|]. apply Hst1. lia.
Qed.

(** A [dispatch] whose reducer throws leaves the state as it was. *)
Lemma dispatch_reducer_throws code n action w w1 e :
  well_formed (objs w) action = true ->
  isDispatching w = false ->
  call code n (currentReducer w) [getState w; action]
       (begin_dispatch action w) = Some (w1, Raise e) ->
  store_dispatch code n action w = Some (set_isDispatching false w1, Raise e)
  /\ getState (set_isDispatching false w1) = getState w.
Proof.
  intros Hwf Hd Hc. unfold store_dispatch, dispatch, well_formed, getState in *.
  destruct (isPlainObject (objs w) action); [simpl in *|done].
  destruct (get_prop _ _ _) as [t|e']; [|done].
  destruct (is_undefined t); [done|]. rewrite Hd, Hc. split; [done|].
  apply (call_R code _ kept_in_reducer_closed) in Hc.
  by destruct (Hc eq_refl) as (_ & -> & _).
Qed.

Lemma last_cons_default {A} (x y : A) (l : list A) :
  default x (last (y :: l)) = default y (last l).
Proof. rewrite last_cons. by destruct (last l). Qed.

Lemma dispatch_all_writes code n actions :
  forall w worlds,
    isDispatching w = false ->
    dispatch_all code n actions w = Some worlds ->
    writes w + length actions <= writes (default w (last worlds)).
Proof.
  induction actions as [|action rest IH]; intros w worlds Hd; simpl.
  - intros H. inv_result. simpl. lia.
  - destruct (store_dispatch code n action w) as [[w1 [a'|e]]|] eqn:H1;
      [| done | done].
    destruct (dispatch_all code n rest w1) as [worlds'|] eqn:H2; [|done].
    intros H. inv_result.
    pose proof (store_dispatch_R code _ same_flag_closed _ _ _ _ _ H1) as Hf.
    unfold same_flag in Hf. rewrite Hd in Hf.
    destruct (dispatch_step _ _ _ _ _ _ Hd H1) as (w0 & v & _ & Hle & _).
    specialize (IH _ _ Hf H2).
    rewrite last_cons_default. lia.
Qed.


(** With a reducer that only reads and no listener, a well-formed action is
    always reduced: one unit of fuel is enough for [dispatch] to return. *)
Lemma dispatch_returns code n r action w :
  (forall s a, code (currentReducer w) [s; a] = pure_reducer r s a) ->
  well_formed (objs w) action = true ->
  isDispatching w = false ->
  array_at w (nextListeners w) = [] ->
  exists w',
    store_dispatch code (S n) action w = Some (w', Normal action) /\
    getState w' = r (objs w) (getState w) action.
Proof.
  intros Hpure Hwf Hd Hnil.
  unfold store_dispatch, dispatch, well_formed, getState in *.
  destruct (isPlainObject (objs w) action); [simpl in *|done].
  destruct (get_prop _ _ _) as [t|e']; [|done].
  destruct (is_undefined t); [done|]. rewrite Hd, Hpure. simpl.
  unfold array_at in *. simpl. rewrite Hnil. simpl. eauto.
Qed.

(** *** C7: the listener arrays *)

Lemma occurrences_app l arr1 arr2 :
  occurrences l (arr1 ++ arr2) = occurrences l arr1 + occurrences l arr2.
Proof. induction arr1 as [|x arr1 IH]; simpl; [done|]. rewrite IH. lia. Qed.

Lemma active_app l s1 s2 : active l (s1 ++ s2) = active l s1 + active l s2.
Proof. induction s1 as [|x s1 IH]; simpl; [done|]. rewrite IH. lia. Qed.

Lemma indexOf_spec l arr :
  0 < occurrences l arr ->
  exists i, indexOf l arr = Z.of_nat i /\ i < length arr /\
            delete i arr = remove_first l arr.
Proof.
  induction arr as [|x arr IH]; simpl; [lia|].
  destruct (decide (x = l)) as [->|Hx].
  - rewrite !(bool_decide_eq_true_2 (l = l)) by done.
    intros _. exists 0. repeat split; simpl; lia.
  - rewrite !(bool_decide_eq_false_2 (x = l)) by done.
    intros Hpos. destruct IH as (i & Hi & Hlt & Hdel); [lia|].
    exists (S i). rewrite Hi.
    destruct (Z.of_nat i <? 0)%Z eqn:Hneg; [lia|].
    repeat split; simpl; [lia | lia | by rewrite Hdel].
Qed.

(** Under [wf], the [splice] of [unsubscribe] removes the first occurrence
    of the listener (its [indexOf] is never [-1]). *)
Lemma splice1_indexOf l arr :
  0 < occurrences l arr ->
  splice1 (indexOf l arr) arr = remove_first l arr.
Proof.
  intros Hpos. destruct (indexOf_spec l arr Hpos) as (i & -> & Hlt & <-).
  unfold splice1.
  destruct (Z.of_nat i <? 0)%Z eqn:Hneg; [lia|].
  rewrite Z.min_l by lia. by rewrite Nat2Z.id.
Qed.

Lemma occurrences_remove_first l l' arr :
  0 < occurrences l arr ->
  occurrences l' (remove_first l arr) + (if bool_decide (l = l') then 1 else 0)
  = occurrences l' arr.
Proof.
  induction arr as [|x arr IH]; simpl; [lia|].
  destruct (decide (x = l)) as [->|Hx].
  - rewrite !(bool_decide_eq_true_2 (l = l)) by done. intros _. lia.
  - rewrite !(bool_decide_eq_false_2 (x = l)) by done.
    intros Hpos. simpl. rewrite <- IH by lia. lia.
Qed.

Lemma active_unsubscribe l l' s handle :
  s !! handle = Some (true, l) ->
  active l' (<[handle := (false, l)]> s) + (if bool_decide (l = l') then 1 else 0)
  = active l' s.
Proof.
  revert handle. induction s as [|x s IH]; intros [|handle]; simpl; try done.
  - intros [= ->].
    repeat case_bool_decide; simplify_eq; lia.
  - intros H. rewrite <- (IH _ H). lia.
Qed.

Lemma active_pos l s handle :
  s !! handle = Some (true, l) -> 0 < active l s.
Proof.
  revert handle. induction s as [|x s IH]; intros [|handle]; simpl; try done.
  - intros [= ->]. rewrite bool_decide_eq_true_2 by done. lia.
  - intros H. specialize (IH _ H). lia.
Qed.

(** The worlds before and after any step: a well-formed registry stays
    well formed, and a frozen array stays frozen and keeps its content. *)
Definition arrays_kept (w w' : world) : Prop :=
  wf w ->
  wf w' /\
  forall a, frozen w a -> frozen w' a /\ arrays w' !! a = arrays w !! a.

Lemma array_at_insert_eq w a arr m :
  arrays w = <[a := arr]> m -> array_at w a = arr.
Proof. unfold array_at. intros ->. by rewrite lookup_insert_eq. Qed.

(** What [subscribe] does to the registry. *)
Lemma subscribe_listener_spec l w :
  wf w ->
  let w' := (subscribe_listener l w).1 in
  wf w' /\
  currentListeners w' = currentListeners w /\
  array_at w' (nextListeners w') = array_at w (nextListeners w) ++ [l] /\
  subs w' = subs w ++ [(true, l)] /\
  forall a, frozen w a -> frozen w' a /\ arrays w' !! a = arrays w !! a.
Proof.
  intros (Hc & Hn & Hcount).
  unfold subscribe_listener, ensureCanMutateNextListeners. simpl.
  case_bool_decide as Heq; simpl.
  - (* the array is shared: it is copied first *)
    set (a' := fresh_loc (arrays w)).
    assert (arrays w !! a' = None) as Hfresh by apply fresh_loc_None.
    assert (a' <> currentListeners w) as Hne.
    { intros E. rewrite E in Hfresh. rewrite Hfresh in Hc. by destruct Hc. }
    unfold wf, frozen, array_at; simpl.
    rewrite !lookup_insert_eq. simpl.
    rewrite lookup_insert_ne by done.
    rewrite lookup_insert_ne by done.
    repeat split; try done.
    + intros l'. rewrite occurrences_app, active_app. simpl.
      rewrite <- Hcount. unfold array_at. rewrite Heq.
      repeat case_bool_decide; try lia; congruence.
    + by rewrite Heq.
    + rewrite !lookup_insert_ne; [tauto|..];
        intros E; subst a; rewrite Hfresh in H; by destruct H.
    + left. intros E; subst a; rewrite Hfresh in H; by destruct H.
    + rewrite !lookup_insert_ne; [done|..];
        intros E; subst a; rewrite Hfresh in H; by destruct H.
  - unfold wf, frozen, array_at; simpl.
    rewrite !lookup_insert_eq. simpl.
    rewrite lookup_insert_ne by done.
    repeat split; try done.
    + intros l'. rewrite occurrences_app, active_app. simpl.
      rewrite <- Hcount. unfold array_at.
      repeat case_bool_decide; try lia; congruence.
    + rewrite lookup_insert. case_decide; [eauto | by destruct H].
    + by destruct H.
    + destruct H as [Ha [Hna|Hca]]; [by rewrite lookup_insert_ne|].
      subst a. by rewrite lookup_insert_ne.
Qed.

(** What a call of [unsubscribe] does to the registry while its
    subscription is in force. *)
Lemma unsubscribe_spec handle l w :
  wf w ->
  subs w !! handle = Some (true, l) ->
  let w' := unsubscribe handle w in
  wf w' /\
  currentListeners w' = currentListeners w /\
  array_at w' (nextListeners w')
  = remove_first l (array_at w (nextListeners w)) /\
  subs w' = <[handle := (false, l)]> (subs w) /\
  forall a, frozen w a -> frozen w' a /\ arrays w' !! a = arrays w !! a.
Proof.
  intros (Hc & Hn & Hcount) Hsub.
  assert (0 < occurrences l (array_at w (nextListeners w))) as Hpos.
  { rewrite Hcount. by eapply active_pos. }
  unfold unsubscribe, ensureCanMutateNextListeners. rewrite Hsub. simpl.
  case_bool_decide as Heq; simpl.
  - set (a' := fresh_loc (arrays w)).
    assert (arrays w !! a' = None) as Hfresh by apply fresh_loc_None.
    assert (a' <> currentListeners w) as Hne.
    { intros E. rewrite E in Hfresh. rewrite Hfresh in Hc. by destruct Hc. }
    unfold wf, frozen, array_at in *; simpl.
    rewrite !lookup_insert_eq. simpl.
    rewrite lookup_insert_ne by done.
    rewrite lookup_insert_ne by done.
    rewrite <- Heq. rewrite splice1_indexOf by done.
    repeat split; try done.
    + intros l'. pose proof (occurrences_remove_first l l' _ Hpos) as H1.
      pose proof (active_unsubscribe l l' _ _ Hsub) as H2.
      rewrite <- Hcount in H2. lia.
    + rewrite !lookup_insert_ne; [tauto|..];
        intros E; subst a; rewrite Hfresh in H; by destruct H.
    + left. intros E; subst a; rewrite Hfresh in H; by destruct H.
    + rewrite !lookup_insert_ne; [done|..];
        intros E; subst a; rewrite Hfresh in H; by destruct H.
  - unfold wf, frozen, array_at in *; simpl.
    rewrite !lookup_insert_eq. simpl.
    rewrite lookup_insert_ne by done.
    rewrite splice1_indexOf by done.
    repeat split; try done.
    + intros l'. pose proof (occurrences_remove_first l l' _ Hpos) as H1.
      pose proof (active_unsubscribe l l' _ _ Hsub) as H2.
      rewrite <- Hcount in H2. lia.
    + rewrite lookup_insert. case_decide; [eauto | by destruct H].
    + by destruct H.
    + destruct H as [Ha [Hna|Hca]]; [by rewrite lookup_insert_ne|].
      subst a. by rewrite lookup_insert_ne.
Qed.

(** A second call of the same [unsubscribe] does nothing. *)
Lemma unsubscribe_twice handle w :
  unsubscribe handle (unsubscribe handle w) = unsubscribe handle w.
Proof.
  destruct (subs w !! handle) as [[[] l]|] eqn:Hsub.
  - assert (subs (unsubscribe handle w) = <[handle := (false, l)]> (subs w))
      as Hs.
    { unfold unsubscribe, ensureCanMutateNextListeners. rewrite Hsub.
      by case_bool_decide. }
    assert (subs (unsubscribe handle w) !! handle = Some (false, l)) as Hoff.
    { rewrite Hs. apply list_lookup_insert_eq. by eapply lookup_lt_Some. }
    generalize dependent (unsubscribe handle w). intros w' _ Hoff.
    unfold unsubscribe. by rewrite Hoff.
  - unfold unsubscribe at 2. rewrite Hsub. unfold unsubscribe. by rewrite Hsub.
  - unfold unsubscribe at 2. rewrite Hsub. unfold unsubscribe. by rewrite Hsub.
Qed.

Lemma arrays_kept_closed : step_closed arrays_kept.
Proof.
  apply step_closed_simple. split; unfold arrays_kept; try done.
  - intros w1 w2 w3 H1 H2 Hwf. destruct (H1 Hwf) as [Hwf2 Hk1].
    destruct (H2 Hwf2) as [Hwf3 Hk2]. split; [done|]. intros a Ha.
    destruct (Hk1 a Ha) as [Ha2 <-]. by apply Hk2.
  - intros l w Hwf.
    destruct (subscribe_listener_spec l w Hwf) as (? & _ & _ & _ & ?). done.
  - intros handle w Hwf.
    destruct (subs w !! handle) as [[[] l]|] eqn:Hsub.
    + destruct (unsubscribe_spec handle l w Hwf Hsub) as (? & _ & _ & _ & ?).
      done.
    + unfold unsubscribe. by rewrite Hsub.
    + unfold unsubscribe. by rewrite Hsub.
  - intros action v w w' _ H Hwf. destruct (H Hwf) as [(Hc & Hn & Hcount) Hk].
    split.
    + by repeat split.
    + intros a Ha. destruct (Hk a Ha) as [[Hsome Hor] Heq].
      split; [|done]. split; [done|]. simpl.
      destruct (decide (a = nextListeners w')); [by right | by left].
Qed.

Section Snapshot.

Variable call : fid -> list value -> world -> result value.
Hypothesis call_kept :
  forall f args w w' r, call f args w = Some (w', r) -> arrays_kept w w'.

(** The loop over the live array calls the listeners that the array held
    when the loop started: no call made meanwhile changes that array. *)
Lemma notify_loop_snapshot k :
  forall a i w res,
    wf w -> frozen w a ->
    notify_loop call k a i w = Some res ->
    notify_snapshot call (drop i (array_at w a)) w = Some res.
Proof.
  induction k as [|k IH]; intros a i w res Hwf Hfr; simpl; [done|].
  destruct (array_at w a !! i) as [l|] eqn:Hl.
  - rewrite (drop_S _ _ _ Hl). simpl.
    destruct (invoke call l _) as [[w1 [v|e]]|] eqn:Hi; [|done|done].
    intros H.
    apply (invoke_R _ arrays_kept_closed _ call_kept a i) in Hi; [|exact Hl].
    destruct (Hi Hwf) as [Hwf1 Hk]. destruct (Hk a Hfr) as [Hfr1 Heq].
    replace (array_at w a) with (array_at w1 a)
      by (unfold array_at; by rewrite Heq).
    by apply IH.
  - apply lookup_ge_None in Hl. rewrite drop_ge by done. done.
Qed.

(** With fuel for every element, the loop is the iteration over the
    snapshot, whatever the outcome. *)
Lemma notify_loop_is_snapshot k :
  forall a i w,
    wf w -> frozen w a ->
    i <= length (array_at w a) < k + i ->
    notify_loop call k a i w
    = notify_snapshot call (drop i (array_at w a)) w.
Proof.
  induction k as [|k IH]; intros a i w Hwf Hfr Hlen; simpl; [lia|].
  destruct (array_at w a !! i) as [l|] eqn:Hl.
  - rewrite (drop_S _ _ _ Hl). simpl.
    destruct (invoke call l _) as [[w1 [v|e]]|] eqn:Hi; [|done|done].
    apply (invoke_R _ arrays_kept_closed _ call_kept a i) in Hi; [|exact Hl].
    destruct (Hi Hwf) as [Hwf1 Hk]. destruct (Hk a Hfr) as [Hfr1 Heq].
    apply lookup_lt_Some in Hl.
    replace (array_at w a) with (array_at w1 a) in *
      by (unfold array_at; by rewrite Heq).
    apply IH; [done | done | lia].
  - apply lookup_ge_None in Hl. rewrite drop_ge by done. done.
Qed.

Lemma dispatch_is_snapshot fuel action w res :
  wf w ->
  dispatch fuel call action w = Some res ->
  dispatch_snapshot call action w = Some res.
Proof.
  intros Hwf. unfold dispatch, dispatch_snapshot.
  destruct (negb _); [done|].
  destruct (get_prop _ _ _) as [t|e]; [|done].
  destruct (is_undefined t); [done|].
  destruct (isDispatching w) eqn:Hd; [done|].
  destruct (call _ _ _) as [[w1 [v|e]]|] eqn:Hc; [|done|done].
  apply call_kept in Hc.
  pose proof (sc_commit _ arrays_kept_closed action v w w1 Hd Hc Hwf)
    as [Hwf2 _].
  assert (frozen (commit_dispatch v w1) (nextListeners w1)) as Hfr.
  { destruct Hwf2 as (Hc2 & _). split; [done | by right]. }
  destruct (notify_loop _ _ _ _ _) as [res'|] eqn:Hn; [|done].
  apply (notify_loop_snapshot _ _ _ _ _ Hwf2 Hfr) in Hn.
  rewrite drop_0 in Hn. change (array_at (commit_dispatch v w1) ?a)
    with (array_at w1 a) in Hn.
  by rewrite Hn.
Qed.

End Snapshot.

Lemma call_arrays_kept code n f args w w' r :
  call code n f args w = Some (w', r) -> arrays_kept w w'.
Proof. apply call_R, arrays_kept_closed. Qed.

Lemma init_world_wf reducer preloadedState h :
  wf (init_world reducer preloadedState h).
Proof.
  unfold wf, init_world, array_at; simpl.
  rewrite lookup_singleton_eq. by repeat split.
Qed.

(** A store made by [createStore] has a well-formed registry. *)
Lemma createStore_wf code n reducer preloadedState enhancer h w :
  createStore code n reducer preloadedState enhancer h = Some (Normal (Made w)) ->
  wf w.
Proof.
  unfold createStore, alloc_init_action.
  destruct (is_function preloadedState && is_undefined enhancer);
    (match goal with
     | |- context [negb (is_undefined ?e)] =>
         destruct (is_undefined e); simpl; [|by destruct e]
     end);
    (destruct reducer as [| | | | | |f|]; try done);
    (destruct (store_dispatch _ _ _ _) as [[w' [v|e]]|] eqn:Hd; [|done|done]);
    intros [= ->];
    apply (store_dispatch_R code _ arrays_kept_closed) in Hd;
    apply Hd; apply init_world_wf.
Qed.

(** C7: the listeners that a dispatch calls are those that [nextListeners]
    held when its reducer had returned (the snapshot), each once and in
    order; what [subscribe] and [unsubscribe] do while these listeners run
    changes neither that list nor the array it was read from, so a listener
    of the snapshot that is unsubscribed meanwhile is still called in this
    dispatch if its turn had not come, and is called once at most.
    (1) [dispatch] returns what its specification [dispatch_snapshot]
    returns.  (2) The loop over the live array is the iteration over the
    snapshot as soon as it has fuel for every element.  (3) [subscribe]
    appends the listener to the array that the next dispatch will read and
    leaves every frozen array, the one being iterated included, as it was.
    (4) [unsubscribe], while its subscription is in force, removes one
    occurrence of its listener from the array that the next dispatch will
    read (none is left when the listener was subscribed once) and leaves
    every frozen array as it was; called again it does nothing. *)
Theorem listeners_snapshot code n :
  (forall action w res,
      wf w ->
      store_dispatch code n action w = Some res ->
      dispatch_snapshot (call code n) action w = Some res) /\
  (forall k a w,
      wf w -> frozen w a -> length (array_at w a) < k ->
      notify_loop (call code n) k a 0 w
      = notify_snapshot (call code n) (array_at w a) w) /\
  (forall l w,
      wf w ->
      let w' := (subscribe_listener l w).1 in
      wf w' /\
      array_at w' (nextListeners w') = array_at w (nextListeners w) ++ [l] /\
      forall a, frozen w a -> frozen w' a /\ array_at w' a = array_at w a) /\
  (forall handle l w,
      wf w ->
      subs w !! handle = Some (true, l) ->
      let w' := unsubscribe handle w in
      wf w' /\
      array_at w' (nextListeners w')
      = remove_first l (array_at w (nextListeners w)) /\
      occurrences l (array_at w' (nextListeners w')) + 1 = active l (subs w) /\
      (forall a, frozen w a -> frozen w' a /\ array_at w' a = array_at w a) /\
      unsubscribe handle w' = w').
Proof.
  split; [|split; [|split]].
  - intros action w res Hwf. apply dispatch_is_snapshot; [|done].
    apply call_arrays_kept.
  - intros k a w Hwf Hfr Hlen.
    rewrite (notify_loop_is_snapshot _ (call_arrays_kept code n));
      [done | done | done | lia].
  - intros l w Hwf w'.
    destruct (subscribe_listener_spec l w Hwf) as (Hwf' & _ & Hnext & _ & Hk).
    split; [done|]. split; [done|]. intros a Ha.
    destruct (Hk a Ha) as [Hfr Heq]. split; [done|].
    unfold array_at, w'. by rewrite Heq.
  - intros handle l w Hwf Hsub w'.
    destruct (unsubscribe_spec handle l w Hwf Hsub)
      as (Hwf' & _ & Hnext & _ & Hk).
    split; [done|]. split; [done|]. split; [|split].
    + unfold w'. rewrite Hnext.
      destruct Hwf as (_ & _ & Hcount). rewrite <- Hcount.
      pose proof (occurrences_remove_first l l (array_at w (nextListeners w)))
        as Hocc.
      rewrite bool_decide_eq_true_2 in Hocc by done. apply Hocc.
      rewrite Hcount. by eapply active_pos.
    + intros a Ha. destruct (Hk a Ha) as [Hfr Heq]. split; [done|].
      unfold array_at, w'. by rewrite Heq.
    + apply unsubscribe_twice.
Qed.

(** *** C10: the observable *)

(** The elements of the arrays after [subscribe] and after [unsubscribe]
    were in an array before, or are the listener subscribed. *)
Lemma subscribe_listener_elements l w a arr x :
  arrays (subscribe_listener l w).1 !! a = Some arr ->
  x ∈ arr ->
  x = l \/ exists a' arr', arrays w !! a' = Some arr' /\ x ∈ arr'.
Proof.
  unfold subscribe_listener, ensureCanMutateNextListeners. simpl.
  assert (forall b, x ∈ array_at w b ->
            exists a' arr', arrays w !! a' = Some arr' /\ x ∈ arr') as Hat.
  { intros b. unfold array_at. destruct (arrays w !! b) eqn:Hb; simpl.
    - eauto.
    - by intros ?%elem_of_nil. }
  case_bool_decide as Heq; simpl; unfold array_at; simpl.
  - rewrite lookup_insert_eq. simpl.
    rewrite lookup_insert. case_decide.
    + intros [= <-] [Hin| ->%list_elem_of_singleton]%elem_of_app; [|by left].
      right. by apply (Hat (currentListeners w)).
    + rewrite lookup_insert_ne by done. intros Ha Hin. right. eauto.
  - rewrite lookup_insert. case_decide.
    + intros [= <-] [Hin| ->%list_elem_of_singleton]%elem_of_app; [|by left].
      right. by apply (Hat (nextListeners w)).
    + intros Ha Hin. right. eauto.
Qed.

Lemma splice1_elements start arr x : x ∈ splice1 start arr -> x ∈ arr.
Proof.
  unfold splice1. apply list_elem_of_delete_inv.
Qed.

Lemma unsubscribe_elements handle w a arr x :
  arrays (unsubscribe handle w) !! a = Some arr ->
  x ∈ arr ->
  exists a' arr', arrays w !! a' = Some arr' /\ x ∈ arr'.
Proof.
  unfold unsubscribe, ensureCanMutateNextListeners.
  assert (forall b, x ∈ array_at w b ->
            exists a' arr', arrays w !! a' = Some arr' /\ x ∈ arr') as Hat.
  { intros b. unfold array_at. destruct (arrays w !! b) eqn:Hb; simpl.
    - eauto.
    - by intros ?%elem_of_nil. }
  destruct (subs w !! handle) as [[[] l]|]; [|eauto..]. simpl.
  case_bool_decide as Heq; simpl; unfold array_at; simpl.
  - rewrite lookup_insert_eq. simpl.
    rewrite lookup_insert. case_decide.
    + intros [= <-] Hin%splice1_elements.
      by apply (Hat (currentListeners w)).
    + rewrite lookup_insert_ne by done. eauto.
  - rewrite lookup_insert. case_decide.
    + intros [= <-] Hin%splice1_elements. by apply (Hat (nextListeners w)).
    + eauto.
Qed.

Lemma subscribe_listener_observers l w :
  observers (subscribe_listener l w).1 = observers w.
Proof. unfold_registry. Qed.

Lemma unsubscribe_observers handle w :
  observers (unsubscribe handle w) = observers w.
Proof. unfold_registry. Qed.

(** Every closure [observeState] in an array was counted: in a store made
    by [createStore], and after any call on a store where it holds. *)
Definition closures_stay_known (w w' : world) : Prop :=
  closures_known w -> closures_known w' /\ observers w <= observers w'.

Lemma closures_known_subscribe c observer w' :
  closures_known w' -> c < observers w' ->
  closures_known (subscribe_listener (ObserveState c observer) w').1.
Proof.
  intros Hk Hc a arr c' o Ha Hin. rewrite subscribe_listener_observers.
  destruct (subscribe_listener_elements _ _ _ _ _ Ha Hin)
    as [[= -> ->]|(a' & arr' & Ha' & Hin')]; [done | by eapply Hk].
Qed.

Lemma closures_stay_known_closed : step_closed closures_stay_known.
Proof.
  split; unfold closures_stay_known.
  - done.
  - intros w1 w2 w3 H1 H2 Hk. destruct (H1 Hk) as [Hk2 Hle].
    destruct (H2 Hk2) as [Hk3 Hle']. split; [done | lia].
  - done.
  - done.
  - done.
  - intros observer w. split.
    + intros Hk. split; [|simpl; lia].
      intros a arr c o Ha Hin. simpl. specialize (Hk a arr c o Ha Hin). lia.
    + intros Hk. rewrite subscribe_listener_observers. split; [|simpl; lia].
      apply closures_known_subscribe; [|simpl; lia].
      intros a arr c o Ha Hin. simpl. specialize (Hk a arr c o Ha Hin). lia.
  - intros observer w w' Hrun.
    assert (closures_known w ->
            closures_known w' /\ S (observers w) <= observers w') as Hww'.
    { intros Hk. apply Hrun.
      intros a arr c o Ha Hin. simpl. specialize (Hk a arr c o Ha Hin). lia. }
    split.
    + intros Hk. destruct (Hww' Hk). split; [done | lia].
    + intros Hk. destruct (Hww' Hk) as [Hk' Hle].
      rewrite subscribe_listener_observers. split; [|lia].
      apply closures_known_subscribe; [done | lia].
  - intros f w Hk. rewrite subscribe_listener_observers. split; [|done].
    intros a arr c o Ha Hin.
    rewrite subscribe_listener_observers.
    destruct (subscribe_listener_elements _ _ _ _ _ Ha Hin)
      as [[=]|(a' & arr' & Ha' & Hin')]. by eapply Hk.
  - intros h w Hk. rewrite unsubscribe_observers. split; [|done].
    intros a arr c o Ha Hin. rewrite unsubscribe_observers.
    destruct (unsubscribe_elements _ _ _ _ _ Ha Hin)
      as (a' & arr' & Ha' & Hin'). by eapply Hk.
  - done.
  - intros a v w w' _ H Hk. by apply H.
  - intros a w w' _ H Hk. by apply H.
Qed.

Lemma init_world_closures_known reducer preloadedState h :
  closures_known (init_world reducer preloadedState h).
Proof.
  intros a arr c o. unfold init_world. simpl.
  intros [<- <-]%lookup_singleton_Some. by intros ?%elem_of_nil.
Qed.

Lemma createStore_closures_known code n reducer preloadedState enhancer h w :
  createStore code n reducer preloadedState enhancer h = Some (Normal (Made w)) ->
  closures_known w.
Proof.
  unfold createStore, alloc_init_action.
  destruct (is_function preloadedState && is_undefined enhancer);
    (match goal with
     | |- context [negb (is_undefined ?e)] =>
         destruct (is_undefined e); simpl; [|by destruct e]
     end);
    (destruct reducer as [| | | | | |f|]; try done);
    (destruct (store_dispatch _ _ _ _) as [[w' [v|e]]|] eqn:Hd; [|done|done]);
    intros [= ->];
    apply (store_dispatch_R code _ closures_stay_known_closed) in Hd;
    apply Hd; apply init_world_closures_known.
Qed.

(** While the closure number [c] has been created and stands in no array,
    nothing calls [next] through it. *)
Definition not_called (c : nat) (w w' : world) : Prop :=
  c < observers w /\ absent c w ->
  (c < observers w' /\ absent c w') /\ next_calls c w' = next_calls c w.

Lemma next_calls_log_event c e w :
  next_calls c (log_event e w)
  = next_calls c w + (if is_next_of c e then 1 else 0).
Proof.
  unfold next_calls. simpl. rewrite filter_app, length_app. simpl.
  rewrite filter_cons, filter_nil. by destruct (is_next_of c e).
Qed.

Lemma absent_subscribe c l w :
  absent c w -> (forall observer, l <> ObserveState c observer) ->
  absent c (subscribe_listener l w).1.
Proof.
  intros Habs Hl a arr o Ha Hin.
  destruct (subscribe_listener_elements _ _ _ _ _ Ha Hin)
    as [Heq|(a' & arr' & Ha' & Hin')]; [by eapply Hl | by eapply Habs].
Qed.

Lemma not_called_closed c : step_closed (not_called c).
Proof.
  split; unfold not_called.
  - done.
  - intros w1 w2 w3 H1 H2 Hc. destruct (H1 Hc) as [Hc2 <-]. by apply H2.
  - intros l w Hc. rewrite next_calls_log_event. simpl. split; [done | lia].
  - intros a i c' o w Hin [Hlt Habs]. rewrite next_calls_log_event. simpl.
    split; [done|]. rewrite bool_decide_eq_false_2; [lia|].
    intros ->. unfold array_at in Hin.
    destruct (arrays w !! a) as [arr|] eqn:Ha; simpl in Hin; [|done].
    apply (Habs a arr o Ha). by eapply list_elem_of_lookup_2.
  - done.
  - intros o w. split.
    + intros [Hlt Habs]. simpl. split; [split; [lia | done] | done].
    + intros [Hlt Habs]. rewrite subscribe_listener_observers.
      unfold next_calls. rewrite subscribe_listener_log.
      split; [split; [simpl; lia|] | done].
      apply absent_subscribe; [exact Habs|]. intros o' [= Heq _]. lia.
  - intros o w w' Hrun.
    assert (c < observers w /\ absent c w ->
            (c < observers w' /\ absent c w') /\
            next_calls c w' = next_calls c w) as Hww'.
    { intros [Hlt Habs].
      destruct Hrun as [Hc' Hn]; [simpl; split; [lia | done]|].
      split; [done|]. rewrite Hn, next_calls_log_event. simpl.
      rewrite bool_decide_eq_false_2 by lia. unfold next_calls. simpl. lia. }
    split; [done|]. intros Hc. destruct (Hww' Hc) as [[Hlt' Habs'] Hn].
    destruct Hc as [Hlt Habs].
    rewrite subscribe_listener_observers.
    unfold next_calls in *. rewrite subscribe_listener_log.
    split; [split; [done|] | done].
    apply absent_subscribe; [done|]. intros o' [= Heq _]. lia.
  - intros f w [Hlt Habs]. rewrite subscribe_listener_observers.
    unfold next_calls. rewrite subscribe_listener_log.
    split; [split; [done|] | done]. by apply absent_subscribe.
  - intros h w [Hlt Habs]. rewrite unsubscribe_observers.
    unfold next_calls. rewrite unsubscribe_log.
    split; [split; [done|] | done].
    intros a arr o Ha Hin.
    destruct (unsubscribe_elements _ _ _ _ _ Ha Hin)
      as (a' & arr' & Ha' & Hin'). by eapply Habs.
  - intros f w Hc. rewrite next_calls_log_event. simpl.
    split; [done|]. unfold next_calls. simpl. lia.
  - intros a v w w' _ H Hc. destruct H as [Hc' Hn]; [done|].
    split; [done|].
    unfold begin_dispatch in Hn. unfold next_calls in *. simpl in *.
    rewrite Hn, filter_app, length_app. simpl. lia.
  - intros a w w' _ H Hc. destruct H as [Hc' Hn]; [done|].
    split; [done|].
    unfold begin_dispatch in Hn. unfold next_calls in *. simpl in *.
    rewrite Hn, filter_app, length_app. simpl. lia.
Qed.

Definition observer_type_error : exn :=
  JsError TypeErrorC "Expected the observer to be an object.".

(** C10: [store[$$observable]().subscribe(observer)].  (1) When [typeof
    observer] is not ['object'], it throws a TypeError and the world stays
    as it was ([next] is not called, nothing is subscribed).  (2) When
    [observer] is an object whose [next] is a function [f], the first thing
    it does is to call [f] with the state of that moment (the event
    [EvNext] is the first it adds to the log); the closure [observeState] is
    subscribed only when that call has returned, and an exception of [f] is
    the outcome, with nothing subscribed.  (3) In a store whose closures are
    known (any store made by [createStore]), when the subscription is over
    [next] has been called once through this closure, whatever [f] did: the
    other calls are those of later dispatches. *)
Theorem observable_subscribe_calls_next code n observer w :
  (typeof observer <> TObject ->
   store_observe code n observer w = Some (w, Raise observer_type_error)) /\
  (forall f,
     typeof observer = TObject ->
     get_prop (objs w) observer "next" = Normal (VFun f) ->
     let c := observers w in
     let w0 := log_event (EvNext c observer (getState w))
                         (set_observers (S c) w) in
     store_observe code n observer w
     = match call code n f [getState w] w0 with
       | None => None
       | Some (w1, Raise e) => Some (w1, Raise e)
       | Some (w1, Normal _) =>
           Some ((subscribe_listener (ObserveState c observer) w1).1,
                 Normal (length (subs w1)))
       end /\
     forall w' r,
       closures_known w ->
       store_observe code n observer w = Some (w', r) ->
       next_calls c w' = next_calls c w + 1).
Proof.
  split.
  - intros Hty. unfold store_observe, observable_subscribe.
    by rewrite bool_decide_eq_false_2.
  - intros f Hty Hnext c w0.
    assert (store_observe code n observer w
            = match call code n f [getState w] w0 with
              | None => None
              | Some (w1, Raise e) => Some (w1, Raise e)
              | Some (w1, Normal _) =>
                  Some ((subscribe_listener (ObserveState c observer) w1).1,
                        Normal (length (subs w1)))
              end) as Heq.
    { unfold store_observe, observable_subscribe.
      rewrite bool_decide_eq_true_2 by done. simpl.
      unfold observeState. simpl. rewrite Hnext. simpl.
      subst c w0. unfold getState.
      by destruct (call code n f _ _) as [[w1 [v|e]]|]. }
    split; [done|]. intros w' r Hknown. rewrite Heq.
    assert (forall w1 res,
              call code n f [getState w] w0 = Some (w1, res) ->
              next_calls c w1 = next_calls c w + 1) as Hbody.
    { intros w1 res Hc.
      apply (call_R code _ (not_called_closed c)) in Hc.
      destruct Hc as [_ ->].
      - split; [unfold w0, c; simpl; lia|].
        intros a arr o Ha Hin. specialize (Hknown a arr c o Ha Hin).
        unfold c in Hknown. lia.
      - unfold w0. rewrite next_calls_log_event. simpl.
        rewrite bool_decide_eq_true_2 by done. unfold next_calls. simpl. lia. }
    destruct (call code n f [getState w] w0) as [[w1 [v|e]]|] eqn:Hc;
      [| |done]; intros [= <- <-].
    + change (next_calls c (subscribe_listener (ObserveState c observer) w1).1
              = next_calls c w + 1).
      unfold next_calls at 1. rewrite subscribe_listener_log.
      by apply (Hbody w1 (Normal v)).
    + by apply (Hbody w1 (Raise e)).
Qed.

End StoreProofs.

(* ===================================================================== *)
(** ** Properties of the container binding                                *)
(* ===================================================================== *)

Module ConnectProofs.

Import Connect.

(** *** C9: an exception of the selector *)

(** C9: when [store.getState()] or the source selector throws [e] during
    [selector.run(props)], [run] itself returns: [e] is stored in the
    field [error] and [shouldComponentUpdate] is set, the props are kept.
    The next [render] clears the flag and tests [selector.error]: it throws
    the stored [e] when [e] is truthy, as every error object is (a falsy
    value that was thrown is stored in the same way, and [render] then goes
    on with the props kept). *)
Theorem selector_error_deferred
  (sourceSelector : source_selector) (getState : M value)
  (ownProps : value) (sel : selector) (h h1 : heap) (e : exn) :
  bind getState (fun state => sourceSelector state ownProps) h = (h1, Raise e) ->
  let sel' := mkSelector (VBool true) (props sel) (ErrCaught e) in
  run sourceSelector getState ownProps sel h = (h1, Normal sel') /\
  render sel'
  = (mkSelector (VBool false) (props sel) (ErrCaught e),
     if truthy_exn e then Raise e else Normal (props sel)).
Proof.
  intros Hthrow sel'. split.
  - unfold run, try_catch, bind in *.
    destruct (getState h) as [h0 [state|e0]];
      [destruct (sourceSelector state ownProps h0) as [h2 [nextProps|e2]]|];
      by simplify_eq.
  - unfold render, sel'. simpl. by destruct (truthy_exn e).
Qed.

(** A later run that returns clears the stored error and keeps the flag
    set. *)
Lemma selector_error_cleared
  (sourceSelector : source_selector) (getState : M value)
  (ownProps : value) (sel : selector) (h h1 : heap) (nextProps : value) :
  truthy_slot (error sel) = true ->
  bind getState (fun state => sourceSelector state ownProps) h
  = (h1, Normal nextProps) ->
  run sourceSelector getState ownProps sel h
  = (h1, Normal (mkSelector (VBool true) nextProps ErrNull)).
Proof.
  intros Herr. unfold run, try_catch, bind.
  destruct (getState h) as [h0 [state|e0]]; [|done].
  destruct (sourceSelector state ownProps h0) as [h2 [np|e2]]; [|done].
  intros [= -> ->]. by rewrite Herr, orb_true_r.
Qed.

(** *** C8: the order of the notifications *)

(** Induction on a tree of containers. *)
Lemma container_tree_ind (P : container -> Prop) :
  (forall id s p children,
      Forall P children -> P (Container id s p children)) ->
  forall c, P c.
Proof.
  intros step. fix IH 1. intros [id s p children]. apply step.
  induction children as [|c children IHc]; constructor; [apply IH | apply IHc].
Qed.

(** The identities in a tree, the root first. *)
Fixpoint ids (c : container) : list nat :=
  match c with
  | Container id _ _ children => id :: concat (map ids children)
  end.

(** The nodes of a tree. *)
Fixpoint nodes (c : container) : list container :=
  match c with
  | Container _ _ _ children => c :: concat (map nodes children)
  end.

Definition event_id (e : event) : nat :=
  match e with EvRun id | EvRender id | EvNotifyNested id => id end.

(** The recomputation of a container: its selector run, its render. *)
Definition recompute_of (c : container) (e : event) : Prop :=
  e = EvRun (container_id c) \/ e = EvRender (container_id c).

Definition notify_of (c : container) (e : event) : Prop :=
  e = EvNotifyNested (container_id c).

Definition event_of (c : container) (e : event) : Prop :=
  event_id e = container_id c.

(** Every event that is a [P] stands before every event that is a [Q]. *)
Definition before (P Q : event -> Prop) (es : list event) : Prop :=
  forall i j e1 e2,
    es !! i = Some e1 -> es !! j = Some e2 -> P e1 -> Q e2 -> i < j.

(** The events that one notification of a container adds: its own, then
    those of its children in order; a child's events come only after the
    container's [notifyNestedSubs].  The notification of the children stops
    where a handler throws. *)
Inductive trace : container -> list event -> Prop :=
| trace_quiet id s p children kids :
    traces children kids ->
    trace (Container id s p children)
          (EvRun id :: EvNotifyNested id :: kids)
| trace_render_threw id s p children :
    trace (Container id s p children) [EvRun id; EvRender id]
| trace_rendered id s p children kids :
    traces children kids ->
    trace (Container id s p children)
          (EvRun id :: EvRender id :: EvNotifyNested id :: kids)
with traces : list container -> list event -> Prop :=
| traces_stop children : traces children []
| traces_next c children es kids :
    trace c es -> traces children kids -> traces (c :: children) (es ++ kids).

Scheme trace_mut := Minimality for trace Sort Prop
  with traces_mut := Minimality for traces Sort Prop.
Combined Scheme trace_traces_ind from trace_mut, traces_mut.

Lemma run_selector_log id s p w : log (run_selector id s p w) = log w.
Proof.
  unfold run_selector.
  by destruct (run s _ p _ _) as [h [sel|e]].
Qed.

Lemma instance_at_set_instance id i w :
  instance_at (set_instance id i w) id = i.
Proof. unfold instance_at, set_instance. simpl. by rewrite lookup_insert_eq. Qed.

Lemma notifyNestedSubs_trace children :
  Forall (fun c => forall w, exists es,
              log (onStateChange c w).1 = log w ++ es /\ trace c es) children ->
  forall w, exists kids,
    log (notifyNestedSubs onStateChange children w).1 = log w ++ kids /\
    traces children kids.
Proof.
  induction 1 as [|c children Hc _ IH]; intros w; simpl.
  - exists []. split; [by rewrite app_nil_r | constructor].
  - destruct (Hc w) as (es & Hlog & Htr).
    destruct (onStateChange c w) as [w' [[]|e]]; simpl in *.
    + destruct (IH w') as (kids & Hlog' & Htr').
      exists (es ++ kids). split; [|by constructor].
      by rewrite Hlog', Hlog, app_assoc.
    + exists (es ++ []). split; [by rewrite app_nil_r|].
      constructor; [done | constructor].
Qed.

(** What a notification logs is a trace of the container. *)
Lemma onStateChange_trace c :
  forall w, exists es,
    log (onStateChange c w).1 = log w ++ es /\ trace c es.
Proof.
  induction c as [id s p children IH] using container_tree_ind. intros w.
  pose proof (notifyNestedSubs_trace children IH) as Hkids.
  simpl.
  set (w1 := run_selector id s p (log_event (EvRun id) w)).
  assert (log w1 = log w ++ [EvRun id]) as Hw1
    by (unfold w1; by rewrite run_selector_log).
  destruct (truthy (shouldComponentUpdate (inst_selector (instance_at w1 id))))
    eqn:Hscu; simpl.
  - unfold setState. cbv zeta. rewrite !instance_at_set_instance.
    cbn [inst_selector componentDidUpdate]. rewrite Hscu.
    destruct (render _) as [sel [v|e]] eqn:Hr.
    + unfold notifyNestedSubsOnComponentDidUpdate. cbv zeta.
      edestruct Hkids as (kids & Hlog & Htr).
      exists (EvRun id :: EvRender id :: EvNotifyNested id :: kids).
      split; [|by constructor].
      rewrite Hlog. simpl. rewrite Hw1. by rewrite <- !app_assoc.
    + exists [EvRun id; EvRender id]. split; [|constructor].
      simpl. rewrite Hw1. by rewrite <- app_assoc.
  - edestruct Hkids as (kids & Hlog & Htr).
    exists (EvRun id :: EvNotifyNested id :: kids). split; [|by constructor].
    rewrite Hlog. simpl. rewrite Hw1. by rewrite <- !app_assoc.
Qed.

Lemma elem_of_concat_map {A B} (f : A -> list B) (l : list A) (x : B) :
  x ∈ concat (map f l) <-> exists y, y ∈ l /\ x ∈ f y.
Proof.
  rewrite list_elem_of_In, in_concat. split.
  - intros (k & Hk & Hx). apply in_map_iff in Hk as (y & <- & Hy).
    exists y. by rewrite !list_elem_of_In.
  - intros (y & Hy & Hx). exists (f y). rewrite in_map_iff.
    split; [exists y|]; by rewrite <- ?list_elem_of_In.
Qed.

(** The events of a trace are events of the containers of the tree. *)
Lemma trace_ids :
  (forall c es, trace c es -> Forall (fun e => event_id e ∈ ids c) es) /\
  (forall cs kids,
      traces cs kids ->
      Forall (fun e => event_id e ∈ concat (map ids cs)) kids).
Proof.
  apply trace_traces_ind; simpl.
  - intros id s p children kids _ IH.
    repeat (constructor; [simpl; set_solver|]).
    eapply Forall_impl; [apply IH|]. simpl. set_solver.
  - intros. repeat (constructor; [simpl; set_solver|]). constructor.
  - intros id s p children kids _ IH.
    repeat (constructor; [simpl; set_solver|]).
    eapply Forall_impl; [apply IH|]. simpl. set_solver.
  - constructor.
  - intros c children es kids _ IHc _ IHk. apply Forall_app. split.
    + eapply Forall_impl; [apply IHc|]. simpl. set_solver.
    + eapply Forall_impl; [apply IHk|]. simpl. set_solver.
Qed.

(** The identities of a node of a tree, and of its children, are
    identities of the tree. *)
Lemma nodes_ids c :
  forall parent, parent ∈ nodes c -> forall x, x ∈ ids parent -> x ∈ ids c.
Proof.
  induction c as [id s p children IH] using container_tree_ind.
  intros parent Hin x Hx. simpl in Hin.
  apply elem_of_cons in Hin as [->|Hin]; [done|].
  apply elem_of_concat_map in Hin as (c' & Hc' & Hin).
  rewrite Forall_forall in IH. specialize (IH c' Hc' parent Hin x Hx).
  simpl. apply elem_of_cons. right. apply elem_of_concat_map. eauto.
Qed.

Lemma child_id_in_ids parent child :
  child ∈ container_children parent -> container_id child ∈ ids parent.
Proof.
  destruct parent as [id s p children]. simpl. intros Hin.
  apply elem_of_cons. right. apply elem_of_concat_map. exists child.
  split; [done|]. destruct child. simpl. set_solver.
Qed.

(** The order that the claim is about, for one container [parent]: its
    recomputation comes before its [notifyNestedSubs], which comes before
    every event of its children; and a child has no event unless the parent
    ran its selector and then called [notifyNestedSubs]. *)
Definition ordered_for (parent : container) (es : list event) : Prop :=
  before (recompute_of parent) (notify_of parent) es /\
  (forall k, es !! k = Some (EvNotifyNested (container_id parent)) ->
             exists i, i < k /\ es !! i = Some (EvRun (container_id parent))) /\
  forall child,
    child ∈ container_children parent ->
    before (recompute_of parent) (event_of child) es /\
    before (notify_of parent) (event_of child) es /\
    (forall j e, es !! j = Some e -> event_of child e ->
                 exists k, k < j /\
                   es !! k = Some (EvNotifyNested (container_id parent))).

(** An event that [ordered_for parent] does not speak of. *)
Definition irrelevant (parent : container) (e : event) : Prop :=
  event_id e ∉ ids parent.

Lemma irrelevant_spec parent e :
  irrelevant parent e ->
  ~ recompute_of parent e /\ ~ notify_of parent e /\
  forall child, child ∈ container_children parent -> ~ event_of child e.
Proof.
  unfold irrelevant, recompute_of, notify_of, event_of. intros Hirr.
  repeat split.
  - intros [-> | ->]; apply Hirr; destruct parent; simpl; set_solver.
  - intros ->. apply Hirr; destruct parent; simpl; set_solver.
  - intros child Hc He. apply Hirr. rewrite He. by apply child_id_in_ids.
Qed.

Lemma ordered_for_app_r parent l1 l2 :
  Forall (irrelevant parent) l1 ->
  ordered_for parent l2 -> ordered_for parent (l1 ++ l2).
Proof.
  intros Hirr (Hb & Hex & Hch).
  assert (forall i e, (l1 ++ l2) !! i = Some e ->
            (recompute_of parent e \/ notify_of parent e \/
             exists child, child ∈ container_children parent /\ event_of child e) ->
            length l1 <= i /\ l2 !! (i - length l1) = Some e) as Hloc.
  { intros i e Hi Hrel. destruct (decide (i < length l1)) as [Hlt|Hge].
    - rewrite lookup_app_l in Hi by done.
      rewrite Forall_lookup in Hirr.
      destruct (irrelevant_spec _ _ (Hirr _ _ Hi)) as (H1 & H2 & H3).
      destruct Hrel as [?|[?|(child & ? & ?)]]; [done | done |].
      by destruct (H3 child).
    - split; [lia|]. by rewrite lookup_app_r in Hi by lia. }
  split; [|split].
  - intros i j e1 e2 Hi Hj H1 H2.
    destruct (Hloc _ _ Hi) as [Hle1 Hi']; [by left|].
    destruct (Hloc _ _ Hj) as [Hle2 Hj']; [by right; left|].
    specialize (Hb _ _ _ _ Hi' Hj' H1 H2). lia.
  - intros k Hk.
    destruct (Hloc _ _ Hk) as [Hle Hk']; [by right; left|].
    destruct (Hex _ Hk') as (i & Hlt & Hi).
    exists (length l1 + i). split; [lia|].
    rewrite lookup_app_r by lia. by replace (length l1 + i - length l1) with i by lia.
  - intros child Hc. destruct (Hch child Hc) as (Hb1 & Hb2 & Hex').
    split; [|split].
    + intros i j e1 e2 Hi Hj H1 H2.
      destruct (Hloc _ _ Hi) as [Hle1 Hi']; [by left|].
      destruct (Hloc _ _ Hj) as [Hle2 Hj']; [right; right; eauto|].
      specialize (Hb1 _ _ _ _ Hi' Hj' H1 H2). lia.
    + intros i j e1 e2 Hi Hj H1 H2.
      destruct (Hloc _ _ Hi) as [Hle1 Hi']; [by right; left|].
      destruct (Hloc _ _ Hj) as [Hle2 Hj']; [right; right; eauto|].
      specialize (Hb2 _ _ _ _ Hi' Hj' H1 H2). lia.
    + intros j e Hj He.
      destruct (Hloc _ _ Hj) as [Hle Hj']; [right; right; eauto|].
      destruct (Hex' _ _ Hj' He) as (k & Hlt & Hk).
      exists (length l1 + k). split; [lia|].
      rewrite lookup_app_r by lia.
      by replace (length l1 + k - length l1) with k by lia.
Qed.

Lemma ordered_for_app_l parent l1 l2 :
  ordered_for parent l1 ->
  Forall (irrelevant parent) l2 -> ordered_for parent (l1 ++ l2).
Proof.
  intros (Hb & Hex & Hch) Hirr.
  assert (forall i e, (l1 ++ l2) !! i = Some e ->
            (recompute_of parent e \/ notify_of parent e \/
             exists child, child ∈ container_children parent /\ event_of child e) ->
            l1 !! i = Some e) as Hloc.
  { intros i e Hi Hrel. destruct (decide (i < length l1)) as [Hlt|Hge].
    - by rewrite lookup_app_l in Hi by done.
    - rewrite lookup_app_r in Hi by lia.
      rewrite Forall_lookup in Hirr.
      destruct (irrelevant_spec _ _ (Hirr _ _ Hi)) as (H1 & H2 & H3).
      destruct Hrel as [?|[?|(child & ? & ?)]]; [done | done |].
      by destruct (H3 child). }
  split; [|split].
  - intros i j e1 e2 Hi Hj H1 H2.
    eapply Hb; [eapply Hloc; eauto | eapply Hloc; eauto | done | done].
  - intros k Hk.
    destruct (Hex k) as (i & Hlt & Hi); [eapply Hloc; eauto; by right; left|].
    exists i. split; [done|]. by apply lookup_app_l_Some.
  - intros child Hc. destruct (Hch child Hc) as (Hb1 & Hb2 & Hex').
    split; [|split].
    + intros i j e1 e2 Hi Hj H1 H2.
      eapply Hb1; [eapply Hloc; eauto | eapply Hloc; eauto 6 | done | done].
    + intros i j e1 e2 Hi Hj H1 H2.
      eapply Hb2; [eapply Hloc; eauto | eapply Hloc; eauto 6 | done | done].
    + intros j e Hj He.
      destruct (Hex' j e) as (k & Hlt & Hk); [eapply Hloc; eauto 6 | done |].
      exists k. split; [done|]. by apply lookup_app_l_Some.
Qed.

Lemma ordered_for_nil parent : ordered_for parent [].
Proof.
  split; [|split].
  - intros i j e1 e2 Hi. by rewrite lookup_nil in Hi.
  - intros k Hk. by rewrite lookup_nil in Hk.
  - intros child _. split; [|split].
    + intros i j e1 e2 Hi. by rewrite lookup_nil in Hi.
    + intros i j e1 e2 Hi. by rewrite lookup_nil in Hi.
    + intros j e Hj. by rewrite lookup_nil in Hj.
Qed.

Section OwnEvents.

Variables (id : nat) (s : source_selector) (p : value).
Variable children : list container.
Variable kids : list event.

Hypothesis kids_below : forall n e, kids !! n = Some e -> event_id e <> id.
Hypothesis children_below :
  forall child, child ∈ children -> container_id child <> id.

Local Ltac by_index :=
  unfold recompute_of, notify_of, event_of in *; simpl in *;
  repeat match goal with
    | H : _ \/ _ |- _ => destruct H
    | H : Some _ = Some _ |- _ => injection H as H; subst
    end;
  simplify_eq; simpl in *; try lia; try done;
  try match goal with
    | H : kids !! _ = Some _ |- _ =>
        exfalso; apply (kids_below _ _ H); simpl; congruence
    | H : _ ∈ children |- _ =>
        exfalso; apply (children_below _ H); simpl; congruence
    end.

Lemma ordered_quiet :
  ordered_for (Container id s p children)
              (EvRun id :: EvNotifyNested id :: kids).
Proof.
  split; [|split].
  - intros [|[|i]] [|[|j]] e1 e2 Hi Hj H1 H2; by_index.
  - intros [|[|k]] Hk; by_index; exists 0; split; [lia | done].
  - intros child Hc. split; [|split].
    + intros [|[|i]] [|[|j]] e1 e2 Hi Hj H1 H2; by_index.
    + intros [|[|i]] [|[|j]] e1 e2 Hi Hj H1 H2; by_index.
    + intros [|[|j]] e Hj He; by_index; exists 1; split; [lia | done].
Qed.

Lemma ordered_rendered :
  ordered_for (Container id s p children)
              (EvRun id :: EvRender id :: EvNotifyNested id :: kids).
Proof.
  split; [|split].
  - intros [|[|[|i]]] [|[|[|j]]] e1 e2 Hi Hj H1 H2; by_index.
  - intros [|[|[|k]]] Hk; by_index; exists 0; split; [lia | done].
  - intros child Hc. split; [|split].
    + intros [|[|[|i]]] [|[|[|j]]] e1 e2 Hi Hj H1 H2; by_index.
    + intros [|[|[|i]]] [|[|[|j]]] e1 e2 Hi Hj H1 H2; by_index.
    + intros [|[|[|j]]] e Hj He; by_index; exists 2; split; [lia | done].
Qed.

Lemma ordered_render_threw :
  ordered_for (Container id s p children) [EvRun id; EvRender id].
Proof.
  split; [|split].
  - intros [|[|i]] [|[|j]] e1 e2 Hi Hj H1 H2; by_index.
  - intros [|[|k]] Hk; by_index.
  - intros child Hc. split; [|split].
    + intros [|[|i]] [|[|j]] e1 e2 Hi Hj H1 H2; by_index.
    + intros [|[|i]] [|[|j]] e1 e2 Hi Hj H1 H2; by_index.
    + intros [|[|j]] e Hj He; by_index.
Qed.

End OwnEvents.

Lemma Forall_irrelevant parent (known : list nat) es :
  Forall (fun e => event_id e ∈ known) es ->
  (forall x, x ∈ ids parent -> x ∉ known) ->
  Forall (irrelevant parent) es.
Proof.
  intros Hes Hdisj. eapply Forall_impl; [apply Hes|].
  intros e He Hin. by apply (Hdisj _ Hin).
Qed.

(** In a trace of a tree whose identities are distinct, every container of
    the tree is ordered with its children. *)
Lemma trace_ordered :
  (forall c es,
      trace c es ->
      NoDup (ids c) ->
      forall parent, parent ∈ nodes c -> ordered_for parent es) /\
  (forall cs kids,
      traces cs kids ->
      NoDup (concat (map ids cs)) ->
      forall parent, parent ∈ concat (map nodes cs) -> ordered_for parent kids).
Proof.
  destruct trace_ids as [_ Hids].
  assert (forall id s p children kids parent,
    traces children kids ->
    NoDup (id :: concat (map ids children)) ->
    (NoDup (concat (map ids children)) ->
     forall parent, parent ∈ concat (map nodes children) ->
                    ordered_for parent kids) ->
    parent ∈ nodes (Container id s p children) ->
    forall own,
      (own = [EvRun id; EvNotifyNested id] \/
       own = [EvRun id; EvRender id; EvNotifyNested id]) ->
      ordered_for parent (own ++ kids)) as Hnode.
  { intros id s p children kids parent Htr Hnd IH Hin own Hown.
    apply NoDup_cons in Hnd as [Hid Hnd].
    specialize (Hids _ _ Htr). simpl in Hin.
    apply elem_of_cons in Hin as [->|Hin].
    - assert (forall n e, kids !! n = Some e -> event_id e <> id) as Hk.
      { intros n e Hn Heq. rewrite Forall_lookup in Hids.
        specialize (Hids _ _ Hn). simpl in Hids. by rewrite Heq in Hids. }
      assert (forall child, child ∈ children -> container_id child <> id)
        as Hc.
      { intros child Hc Heq. apply Hid. rewrite <- Heq.
        apply elem_of_concat_map. exists child. split; [done|].
        destruct child; simpl; set_solver. }
      destruct Hown as [-> | ->]; simpl;
        [by apply ordered_quiet | by apply ordered_rendered].
    - apply ordered_for_app_r; [|by apply IH].
      assert (forall e, event_id e = id -> irrelevant parent e) as Hirr.
      { intros e He Hx. apply Hid. rewrite <- He.
        apply elem_of_concat_map in Hin as (c' & Hc' & Hin').
        apply elem_of_concat_map. exists c'. split; [done|].
        by eapply nodes_ids. }
      destruct Hown as [-> | ->];
        repeat (constructor; [by apply Hirr|]); constructor. }
  apply trace_traces_ind.
  - intros id s p children kids Htr IH Hnd parent Hin.
    apply (Hnode id s p children kids parent Htr Hnd IH Hin
             [EvRun id; EvNotifyNested id]). by left.
  - intros id s p children Hnd parent Hin.
    apply NoDup_cons in Hnd as [Hid Hnd]. simpl in Hin.
    apply elem_of_cons in Hin as [->|Hin].
    + apply ordered_render_threw.
      intros child Hc Heq. apply Hid. rewrite <- Heq.
      apply elem_of_concat_map. exists child. split; [done|].
      destruct child; simpl; set_solver.
    + rewrite <- (app_nil_r [EvRun id; EvRender id]).
      apply ordered_for_app_r; [|apply ordered_for_nil].
      assert (forall e, event_id e = id -> irrelevant parent e) as Hirr.
      { intros e He Hx. apply Hid. rewrite <- He.
        apply elem_of_concat_map in Hin as (c' & Hc' & Hin').
        apply elem_of_concat_map. exists c'. split; [done|].
        by eapply nodes_ids. }
      repeat (constructor; [by apply Hirr|]); constructor.
  - intros id s p children kids Htr IH Hnd parent Hin.
    apply (Hnode id s p children kids parent Htr Hnd IH Hin
             [EvRun id; EvRender id; EvNotifyNested id]). by right.
  - intros children _ parent _. apply ordered_for_nil.
  - intros c children es kids Htr IHc Htrs IHk Hnd parent Hin.
    simpl in Hnd, Hin. apply NoDup_app in Hnd as (Hnd1 & Hdisj & Hnd2).
    destruct trace_ids as [Hids1 _].
    apply elem_of_app in Hin as [Hin|Hin].
    + apply ordered_for_app_l; [by apply IHc|].
      eapply Forall_irrelevant; [apply (Hids _ _ Htrs)|].
      intros x Hx. apply Hdisj. by eapply nodes_ids.
    + apply ordered_for_app_r; [|by apply IHk].
      eapply Forall_irrelevant; [apply (Hids1 _ _ Htr)|].
      intros x Hx Hxc. apply (Hdisj x Hxc).
      apply elem_of_concat_map in Hin as (c' & Hc' & Hin).
      apply elem_of_concat_map. exists c'. split; [done|].
      by eapply nodes_ids.
Qed.


(** A container whose selector run asked for an update is rendered before
    it notifies: the render is the second event, and [notifyNestedSubs]
    follows it unless the render threw. *)
Lemma render_before_notify id s p children w :
  let w1 := run_selector id s p (log_event (EvRun id) w) in
  truthy (shouldComponentUpdate (inst_selector (instance_at w1 id))) = true ->
  exists rest,
    log (onStateChange (Container id s p children) w).1
    = log w ++ EvRun id :: EvRender id :: rest /\
    (rest = [] \/ exists kids, rest = EvNotifyNested id :: kids).
Proof.
  intros w1 Hscu. simpl. fold w1. rewrite Hscu. simpl.
  assert (log w1 = log w ++ [EvRun id]) as Hw1
    by (unfold w1; by rewrite run_selector_log).
  unfold setState. cbv zeta. rewrite !instance_at_set_instance.
  cbn [inst_selector componentDidUpdate]. rewrite Hscu.
  destruct (render _) as [sel [v|e]] eqn:Hr.
  - unfold notifyNestedSubsOnComponentDidUpdate. cbv zeta.
    pose proof (notifyNestedSubs_trace children) as Hk.
    edestruct Hk as (kids & Hlog & _).
    { apply Forall_forall. intros c _. apply onStateChange_trace. }
    exists (EvNotifyNested id :: kids). split; [|eauto].
    rewrite Hlog. simpl. rewrite Hw1. by rewrite <- !app_assoc.
  - exists []. split; [|by left]. simpl. rewrite Hw1. by rewrite <- app_assoc.
Qed.

End ConnectProofs.

(* ===================================================================== *)
(** ** compose: any number of functions                                   *)
(* ===================================================================== *)

Module ComposeBehaviour.

Import Compose.

Lemma bind_ret_r {A} (m : M A) (h : heap) : bind m ret h = m h.
Proof. unfold bind, ret. by destruct (m h) as [h' [a|e]]. Qed.

Lemma bind_congr {A B} (m m' : M A) (k : A -> M B) (h : heap) :
  m h = m' h -> bind m k h = bind m' k h.
Proof. unfold bind. by intros ->. Qed.

(** Right-to-left composition of two lists of functions put end to end. *)
Lemma right_to_left_app (fs gs : list jsfun) (args : list value) (h : heap) :
  gs <> [] ->
  right_to_left (fs ++ gs) args h
  = bind (right_to_left gs args) (fun y => right_to_left fs [y]) h.
Proof.
  intros Hgs. induction fs as [|f [|f' fs] IH].
  - simpl. unfold identity. simpl. by rewrite bind_ret_r.
  - destruct gs as [|g gs]; [done|]. reflexivity.
  - change (right_to_left ((f :: f' :: fs) ++ gs) args h)
      with (bind (right_to_left ((f' :: fs) ++ gs) args) (fun y => f [y]) h).
    unfold bind at 1. rewrite IH. fold (bind (A:=value) (B:=value)).
    change (bind (bind (right_to_left gs args)
                    (fun y => right_to_left (f' :: fs) [y]))
              (fun y => f [y]) h
            = bind (right_to_left gs args)
                (fun y => right_to_left (f :: f' :: fs) [y]) h).
    by rewrite bind_assoc.
Qed.

(** [compose] of three functions or more: the functions after the first
    are composed, and the first is called with the one value that they
    return; an exception on the way is the outcome and the first function
    is not called. *)
Theorem compose_any_number (f g : jsfun) (rest : list jsfun)
    (args : list value) (h : heap) :
  compose (f :: g :: rest) args h
  = match compose (g :: rest) args h with
    | (h', Normal y) => f [y] h'
    | (h', Raise e) => (h', Raise e)
    end.
Proof.
  rewrite compose_right_to_left.
  change (right_to_left (f :: g :: rest) args h)
    with (bind (right_to_left (g :: rest) args) (fun y => f [y]) h).
  unfold bind. by rewrite compose_right_to_left.
Qed.

(** [compose(...fs, ...gs)] is [compose(compose(...fs), compose(...gs))]
    when [gs] is not empty: [gs] runs first, on all the arguments, and
    [fs] on the one value it returns; when [gs] throws, no function of
    [fs] is called. *)
Theorem compose_splits (fs gs : list jsfun) (args : list value) (h : heap) :
  gs <> [] ->
  compose (fs ++ gs) args h = compose [compose fs; compose gs] args h /\
  (forall h' e,
      compose gs args h = (h', Raise e) ->
      compose (fs ++ gs) args h = (h', Raise e)).
Proof.
  intros Hgs.
  assert (compose (fs ++ gs) args h
          = bind (compose gs args) (fun y => compose fs [y]) h) as Hsplit.
  { rewrite compose_right_to_left, right_to_left_app by done.
    unfold bind. rewrite compose_right_to_left.
    destruct (right_to_left gs args h) as [h' [y|e]]; [|done].
    by rewrite compose_right_to_left. }
  split.
  - rewrite Hsplit. reflexivity.
  - intros h' e Hraise. rewrite Hsplit. unfold bind. by rewrite Hraise.
Qed.

(** The body with [reduceRight] (the last function is called with the
    arguments, and the others from right to left with what came before). *)
Lemma reduceRight_right_to_left (init : list jsfun) (lst : jsfun)
    (args : list value) (h : heap) :
  right_to_left (init ++ [lst]) args h
  = bind (lst args)
      (fun v => fold_right
                  (fun f (composed : M value) =>
                     bind composed (fun c => f [c]))
                  (ret v) init) h.
Proof.
  rewrite right_to_left_app by done. simpl.
  unfold bind. destruct (lst args h) as [h' [v|e]]; [|done].
  clear h. revert h'.
  induction init as [|f [|f' init] IH]; intros h'.
  - reflexivity.
  - reflexivity.
  - change (right_to_left (f :: f' :: init) [v] h')
      with (bind (right_to_left (f' :: init) [v]) (fun y => f [y]) h').
    unfold bind at 1. rewrite IH. reflexivity.
Qed.

(** The two bodies of [compose] kept in the repository, the one with
    [reduce] and the one with [reduceRight], compute the same function:
    the same result and the same effects on every argument list. *)
Theorem compose_reduceRight_agrees (funcs : list jsfun) (args : list value)
    (h : heap) :
  compose_reduceRight funcs args h = compose funcs args h.
Proof.
  destruct funcs as [|f [|g rest]]; [reflexivity|reflexivity|].
  rewrite compose_right_to_left.
  assert (f :: g :: rest <> []) as Hne by done.
  rewrite (app_removelast_last identity Hne) at 2.
  rewrite reduceRight_right_to_left. reflexivity.
Qed.

End ComposeBehaviour.

(* ===================================================================== *)
(** ** combineReducers: the record assembled and the edges                *)
(* ===================================================================== *)

Module CombineBehaviour.

Import CombineReducers CombineProofs.

Section WithEnvironment.

Variable toString : heap -> value -> string.
Variable random : nat -> string.

(** The loop over a list of keys followed by another is the loop over the
    first and then the loop over the second. *)
Lemma combination_loop_app before rest state action nextState :
  forall hasChanged h h1 b,
    combination_loop toString before state action nextState hasChanged h
    = (h1, Normal b) ->
    combination_loop toString (before ++ rest) state action nextState
      hasChanged h
    = combination_loop toString rest state action nextState b h1.
Proof.
  induction before as [|[key r] before IH]; intros hasChanged h h1 b; simpl.
  - by intros [= <- <-].
  - unfold bind, get.
    destruct (get_prop h state key) as [prev|e]; [|done].
    destruct (r prev action h) as [h2 [next|e]]; [|done].
    destruct (is_undefined next); [done|].
    simpl. apply IH.
Qed.

(** [combination] once the default of its first parameter is applied and
    no validation error is pending. *)
Lemma combination_unfold c state action h :
  state <> VUndefined ->
  pending_error c = None ->
  combination toString c state action h
  = let nextState := fresh_loc h in
    match combination_loop toString (finalReducers c) state action nextState
            false (<[nextState := mkObject true ∅]> h) with
    | (h', Normal hasChanged) =>
        (h', Normal (if hasChanged then VRef nextState else state))
    | (h', Raise e) => (h', Raise e)
    end.
Proof.
  intros Hstate Hnone. unfold combination.
  rewrite bool_decide_eq_false_2 by done.
  unfold bind at 1, ret at 1. rewrite Hnone.
  unfold bind at 1, alloc at 1. unfold bind at 1. cbv zeta.
  by destruct (combination_loop _ _ _ _ _ _ _) as [h' [b|e]].
Qed.

(** A sub-reducer returns [undefined] in the middle of a combination: the
    combined reducer throws an [Error] whose message is made from the key
    and the action, and the sub-reducers after it are not called (the heap
    is the one that this sub-reducer left).  The message names the action
    by its [type] when it has one that is truthy, and says "an action"
    otherwise. *)
Theorem combination_undefined_slice c state action before key r after
    h h1 h2 b previous :
  state <> VUndefined ->
  pending_error c = None ->
  finalReducers c = before ++ (key, r) :: after ->
  combination_loop toString before state action (fresh_loc h) false
    (<[fresh_loc h := mkObject true ∅]> h) = (h1, Normal b) ->
  get_prop h1 state key = Normal previous ->
  r previous action h1 = (h2, Normal VUndefined) ->
  combination toString c state action h
  = (h2, Raise (JsError ErrorC
                  (getUndefinedStateErrorMessage toString h2 key action))) /\
  (forall t,
     truthy action = true ->
     get_prop h2 action "type" = Normal t ->
     getUndefinedStateErrorMessage toString h2 key action
     = "Given action " +:+
       (if truthy t then dq +:+ toString h2 t +:+ dq else "an action") +:+
       ", reducer " +:+ dq +:+ key +:+ dq +:+
       " returned undefined. " +:+
       "To ignore an action, you must explicitly return the previous state. " +:+
       "If you want this reducer to hold no value, you can return null instead of undefined.").
Proof.
  intros Hstate Hnone Hkeys Hbefore Hprev Hr. split.
  - rewrite combination_unfold by done. cbv zeta.
    rewrite Hkeys, (combination_loop_app _ _ _ _ _ _ _ _ _ Hbefore).
    simpl. unfold bind at 1, get. rewrite Hprev.
    unfold bind at 1. rewrite Hr. reflexivity.
  - intros t Htruthy Htype. unfold getUndefinedStateErrorMessage.
    by rewrite Htruthy, Htype.
Qed.

(** When the loop returns it went through every key. *)
Lemma combination_loop_slices reducers state action nextState :
  forall hasChanged h h' b,
    combination_loop toString reducers state action nextState hasChanged h
    = (h', Normal b) ->
    length (slices reducers state action nextState h) = length reducers /\
    Forall (fun pn => is_undefined pn.2 = false)
           (slices reducers state action nextState h).
Proof.
  induction reducers as [|[key r] rest IH]; intros hasChanged h h' b; simpl.
  - done.
  - unfold bind at 1, get.
    destruct (get_prop h state key) as [prev|e]; [|done].
    unfold bind at 1.
    destruct (r prev action h) as [h1 [next|e]]; [|done].
    destruct (is_undefined next) eqn:Hnext; [done|].
    unfold bind at 1. simpl. intros H. apply IH in H as [Hlen Hall].
    split; [by rewrite Hlen|]. by constructor.
Qed.

(** What a sequence of assignments [o[key] = v] with distinct keys leaves
    in [o]. *)
Lemma assignments_lookup (keys : list string) :
  forall (vs : list value) (m : gmap string value) i key v,
    NoDup keys -> length vs = length keys ->
    keys !! i = Some key -> vs !! i = Some v ->
    fold_left (fun m kn => <[kn.1 := kn.2]> m) (zip keys vs) m !! key
    = Some v.
Proof.
  assert (forall (kvs : list (string * value)) (m : gmap string value) key v,
             key ∉ kvs.*1 -> m !! key = Some v ->
             fold_left (fun m kn => <[kn.1 := kn.2]> m) kvs m !! key = Some v)
    as Hkeep.
  { induction kvs as [|[k x] kvs IH]; intros m key v Hnot Hm; simpl; [done|].
    simpl in Hnot. apply not_elem_of_cons in Hnot as [Hne Hnot].
    apply IH; [done|]. by rewrite lookup_insert_ne. }
  induction keys as [|k keys IH]; intros vs m i key v Hnd Hlen Hk Hv.
  - done.
  - destruct vs as [|x vs]; [done|]. apply NoDup_cons in Hnd as [Hk' Hnd].
    simpl. destruct i as [|i]; simpl in Hk, Hv.
    + injection Hk as ->. injection Hv as ->.
      apply Hkeep; [|by rewrite lookup_insert_eq].
      rewrite fst_zip; [done|]. simpl in Hlen. lia.
    + eapply IH; eauto.
Qed.

Lemma assignments_dom (keys : list string) :
  forall (vs : list value) (m : gmap string value),
    length vs = length keys ->
    dom (fold_left (fun m kn => <[kn.1 := kn.2]> m) (zip keys vs) m)
    = list_to_set keys ∪ dom m.
Proof.
  induction keys as [|k keys IH]; intros vs m Hlen; simpl.
  - set_solver.
  - destruct vs as [|x vs]; [done|]. simpl.
    rewrite IH by (simpl in Hlen; lia). rewrite dom_insert_L. set_solver.
Qed.


(** The slices read from an object without properties that no sub-reducer
    reaches are all [undefined]. *)
Lemma slices_of_empty_state reducers state action nextState :
  nextState <> state ->
  Forall (fun kr => leaves_alone state kr.2) reducers ->
  forall h,
    fields_at h state = ∅ ->
    Forall (fun pn => pn.1 = VUndefined)
           (slices reducers (VRef state) action nextState h).
Proof.
  intros Hne.
  induction 1 as [|[key r] rest Hr _ IH]; intros h Hempty; cbn [slices].
  - constructor.
  - assert (get_prop h (VRef state) key = Normal VUndefined) as ->.
    { unfold get_prop, fields_at in *. destruct (h !! state) as [o|]; [|done].
      by rewrite Hempty, lookup_empty. }
    pose proof (Hr VUndefined action h) as Hleft. simpl in Hleft.
    destruct (r VUndefined action h) as [h1 [next|e]]; [|constructor].
    constructor; [done|].
    destruct (is_undefined next); [constructor|].
    apply IH. unfold fields_at, set_field. simpl.
    rewrite lookup_insert_ne by done. simpl in Hleft. by rewrite Hleft.
Qed.

Lemma strict_eq_undefined v :
  is_undefined v = false -> strict_eq v VUndefined = false.
Proof. by destruct v. Qed.


(** A sub-reducer that always returns, and never [undefined]. *)
Definition well_behaved (r : reducer) : Prop :=
  forall state action h,
    exists h' v, r state action h = (h', Normal v) /\ is_undefined v = false.

Lemma assertReducerShape_passes reducers :
  Forall (fun kr => well_behaved kr.2) reducers ->
  forall i h, exists h', assertReducerShape random i reducers h = (h', Normal tt).
Proof.
  induction 1 as [|[key r] rest Hr _ IH]; intros i h; simpl.
  - by eexists.
  - simpl in Hr. unfold bind at 1, probe. unfold bind, alloc.
    match goal with
    | |- context [r VUndefined ?a ?h2] =>
        destruct (Hr VUndefined a h2) as (h1 & v1 & -> & ->)
    end.
    match goal with
    | |- context [r VUndefined ?a ?h2] =>
        destruct (Hr VUndefined a h2) as (h3 & v3 & -> & ->)
    end.
    unfold ret at 1. apply IH.
Qed.

Lemma combination_loop_well_behaved reducers state action nextState :
  Forall (fun kr => well_behaved kr.2) reducers ->
  state <> VNull -> state <> VUndefined ->
  forall hasChanged h,
    exists h' b,
      combination_loop toString reducers state action nextState hasChanged h
      = (h', Normal b).
Proof.
  intros Hall Hnull Hundef.
  induction Hall as [|[key r] rest Hr _ IH]; intros hasChanged h; simpl.
  - by eexists _, _.
  - unfold bind at 1, get.
    assert (exists prev, get_prop h state key = Normal prev) as [prev ->].
    { destruct state; try done; simpl; try by eexists.
      destruct (h !! l); by eexists. }
    simpl in Hr. unfold bind at 1.
    destruct (Hr prev action h) as (h1 & next & -> & ->).
    unfold bind at 1. simpl. apply IH.
Qed.

(** Sub-reducers that always return, and never [undefined]: no validation
    error is kept, and the combined reducer returns for every state but
    [null], and never returns [undefined]. *)
Theorem well_behaved_combination reducers h :
  Forall (fun kr => well_behaved kr.2) (functions_of reducers) ->
  exists h' c,
    combineReducers random reducers h = (h', Normal c) /\
    shapeAssertionError c = None /\
    forall state action h3,
      state <> VNull ->
      exists h4 v,
        combination toString c state action h3 = (h4, Normal v) /\
        is_undefined v = false.
Proof.
  intros Hall. unfold combineReducers.
  destruct (assertReducerShape_passes _ Hall 0 h) as [h' ->].
  eexists _, _. split; [reflexivity|]. split; [done|].
  intros state action h3 Hnull. unfold combination, pending_error.
  cbn [shapeAssertionError finalReducers].
  case_bool_decide as Hundef.
  - unfold bind at 1, alloc at 1. unfold bind at 1, alloc at 1.
    unfold bind at 1.
    match goal with
    | |- context [combination_loop toString ?rs ?s ?a ?n ?b ?h0] =>
        destruct (combination_loop_well_behaved rs s a n Hall
                    ltac:(done) ltac:(done) b h0) as (h4 & b' & ->)
    end.
    eexists _, _. split; [reflexivity|]. by destruct b'.
  - unfold bind at 1, ret at 1. unfold bind at 1, alloc at 1.
    unfold bind at 1.
    match goal with
    | |- context [combination_loop toString ?rs ?s ?a ?n ?b ?h0] =>
        destruct (combination_loop_well_behaved rs s a n Hall
                    Hnull Hundef b h0) as (h4 & b' & ->)
    end.
    eexists _, _. split; [reflexivity|]. destruct b'; [done|].
    by destruct state.
Qed.

End WithEnvironment.

End CombineBehaviour.

(* ===================================================================== *)
(** ** The store: exceptions, replaceReducer, subscriptions               *)
(* ===================================================================== *)

Module StoreBehaviour.

Import Store StoreProofs.

(** *** createStore: the store as it is handed out *)

(** The object [{ type: ActionTypes.INIT }] that [createStore] and
    [replaceReducer] make in the heap [h]. *)
Definition init_action_heap (h : heap) : heap :=
  <[fresh_loc h := mkObject true {[ "type" := VStr INIT ]}]> h.

Lemma init_action_well_formed h :
  well_formed (init_action_heap h) (VRef (fresh_loc h)) = true.
Proof.
  unfold well_formed, init_action_heap. simpl.
  rewrite lookup_insert_eq. simpl. by rewrite lookup_singleton_eq.
Qed.

(** A reducer that only reads, called by the store at level [S n]. *)
Lemma call_pure_reducer code n f r s a w :
  code f [s; a] = pure_reducer r s a ->
  call code (S n) f [s; a] w = Some (set_objs (objs w) w, Normal (r (objs w) s a)).
Proof. intros Hf. simpl. rewrite Hf. reflexivity. Qed.

Lemma set_objs_same w : set_objs (objs w) w = w.
Proof. by destruct w. Qed.

(** [createStore(reducer, preloadedState)] with a reducer that only reads
    [r]: the store handed out holds [r(preloadedState, { type: INIT })] as
    its state; it is not dispatching, nothing is subscribed to it, and the
    reducer has been called that one time.  Something that is not a function
    in the place of the reducer is refused. *)
Theorem createStore_initial_state code n f r preloadedState h :
  (forall s a, code f [s; a] = pure_reducer r s a) ->
  is_function preloadedState = false ->
  (exists w,
     createStore code (S n) (VFun f) preloadedState VUndefined h
     = Some (Normal (Made w)) /\
     getState w
     = r (init_action_heap h) preloadedState (VRef (fresh_loc h)) /\
     currentReducer w = f /\
     isDispatching w = false /\
     array_at w (nextListeners w) = [] /\
     subs w = [] /\
     log w = [EvReducer f preloadedState (VRef (fresh_loc h))]) /\
  (forall reducer,
     is_function reducer = false ->
     createStore code (S n) reducer preloadedState VUndefined h
     = Some (Raise (JsError ErrorC "Expected the reducer to be a function."))).
Proof.
  intros Hf Hpre. split.
  - unfold createStore. rewrite Hpre. simpl.
    unfold alloc_init_action. simpl.
    unfold store_dispatch, dispatch.
    pose proof (init_action_well_formed h) as Hwf.
    unfold well_formed, init_action_heap in Hwf.
    apply andb_true_iff in Hwf as [Hplain Htype].
    cbn [objs set_objs init_world].
    rewrite Hplain. cbn [negb].
    destruct (get_prop _ _ "type") as [t|e]; [|done].
    apply negb_true_iff in Htype. rewrite Htype.
    cbn [isDispatching set_objs init_world currentReducer currentState].
    rewrite (call_pure_reducer code n f r _ _ _ (Hf _ _)).
    rewrite set_objs_same.
    eexists. split; [reflexivity|].
    by repeat split.
  - intros reducer Hred. unfold createStore. rewrite Hpre. simpl.
    destruct reducer; try done.
Qed.

(** *** dispatch: what its three ways out mean *)

(** [dispatch] returned: what it returns is the action it was given; the
    action was well formed and the store was not dispatching; the reducer
    was called first, with the state and the action; and the store is not
    dispatching afterwards. *)
Theorem dispatch_returns_its_action code n action w w' v :
  store_dispatch code n action w = Some (w', Normal v) ->
  v = action /\
  well_formed (objs w) action = true /\
  isDispatching w = false /\
  isDispatching w' = false /\
  exists es,
    log w' = log w ++ EvReducer (currentReducer w) (currentState w) action
                        :: es.
Proof.
  intros Hd.
  assert (well_formed (objs w) action = true /\ isDispatching w = false /\
          v = action) as (Hwf & Hflag & ->).
  { revert Hd. unfold store_dispatch, dispatch, well_formed.
    destruct (isPlainObject (objs w) action); [|done]. simpl.
    destruct (get_prop (objs w) action "type") as [t|e]; [|done].
    destruct (is_undefined t); [done|].
    destruct (isDispatching w); [done|].
    destruct (call _ _ _ _ _) as [[w1 [v1|e]]|]; [|done|done].
    destruct (notify_loop _ _ _ _ _) as [[w3 [v3|e]]|]; [|done|done].
    by intros [= _ ->]. }
  repeat split; try done.
  - pose proof (store_dispatch_R code _ same_flag_closed _ _ _ _ _ Hd) as Hsame.
    unfold same_flag in Hsame. congruence.
  - by eapply dispatch_calls_reducer.
Qed.

(** Ghost: the calls of listeners made so far. *)
Definition is_notification (e : event) : bool :=
  match e with
  | EvListener _ => true
  | _ => false
  end.

Definition notifications (w : world) : nat :=
  length (filter is_notification (log w)).

Lemma notifications_log_event e w :
  notifications (log_event e w)
  = notifications w + (if is_notification e then 1 else 0).
Proof.
  unfold notifications. simpl. rewrite filter_app, length_app. f_equal.
  rewrite filter_cons, filter_nil. by destruct (is_notification e).
Qed.

Lemma subscribe_listener_currentListeners l w :
  currentListeners (subscribe_listener l w).1 = currentListeners w.
Proof. unfold_registry. Qed.

Lemma unsubscribe_currentListeners handle w :
  currentListeners (unsubscribe handle w) = currentListeners w.
Proof. unfold_registry. Qed.

(** While a reducer runs, nothing notifies a listener and nothing moves
    [currentListeners]: every way into the notification loop goes through
    a [dispatch], and [dispatch] refuses. *)
Definition quiet (w w' : world) : Prop :=
  isDispatching w' = true /\
  notifications w' = notifications w /\
  currentListeners w' = currentListeners w.

Lemma quiet_trans w1 w2 w3 : quiet w1 w2 -> quiet w2 w3 -> quiet w1 w3.
Proof. unfold quiet. intros (? & ? & ?) (? & ? & ?). repeat split; congruence. Qed.

Lemma dispatch_flag_set fuel call action w :
  isDispatching w = true ->
  exists e, dispatch fuel call action w = Some (w, Raise e).
Proof.
  intros Hflag. unfold dispatch.
  destruct (isPlainObject (objs w) action); simpl; [|by eexists].
  destruct (get_prop (objs w) action "type") as [t|e]; [|by eexists].
  destruct (is_undefined t); [by eexists|].
  rewrite Hflag. by eexists.
Qed.

Lemma quiet_replace f w :
  isDispatching w = true ->
  quiet w (alloc_init_action (log_event (EvReplace f) (set_currentReducer f w))).1.
Proof.
  intros Hflag. unfold quiet, alloc_init_action. simpl.
  split; [done|]. split; [|done].
  change (notifications (log_event (EvReplace f) (set_currentReducer f w))
          = notifications w).
  rewrite notifications_log_event. simpl. unfold notifications. simpl. lia.
Qed.

Section InReducer.

Variable fuel : nat.
Variable call : fid -> list value -> world -> result value.
Hypothesis call_quiet :
  forall f args w w' r,
    isDispatching w = true -> call f args w = Some (w', r) -> quiet w w'.

Lemma exec_quiet p :
  forall w w' r,
    isDispatching w = true -> exec fuel call p w = Some (w', r) -> quiet w w'.
Proof.
  induction p as [v|e|f k IH|k IH|action k IH|listener k IH|handle k IH
                  |nextReducer k IH|observer k IH]; intros w w' r Hflag; simpl.
  - by intros [= <- _].
  - by intros [= <- _].
  - destruct (f (objs w)) as [h' v]. intros H. by apply IH in H.
  - intros H. by apply IH in H.
  - destruct (dispatch_flag_set fuel call action w Hflag) as [e ->].
    intros H. by apply IH in H.
  - unfold subscribe. destruct listener; try (intros H; by apply IH in H).
    destruct (subscribe_listener (UserFn f) w) as [w1 handle] eqn:Hs.
    assert (w1 = (subscribe_listener (UserFn f) w).1) as -> by by rewrite Hs.
    intros H. apply IH in H; [|by rewrite subscribe_listener_isDispatching].
    eapply quiet_trans; [|exact H]. unfold quiet, notifications.
    by rewrite subscribe_listener_isDispatching, subscribe_listener_log,
      subscribe_listener_currentListeners.
  - intros H. apply IH in H; [|by rewrite unsubscribe_isDispatching].
    eapply quiet_trans; [|exact H]. unfold quiet, notifications.
    by rewrite unsubscribe_isDispatching, unsubscribe_log,
      unsubscribe_currentListeners.
  - unfold replaceReducer. destruct nextReducer; try (intros H; by apply IH in H).
    pose proof (quiet_replace f w Hflag) as Hq.
    destruct (alloc_init_action _) as [w2 action]. simpl in Hq.
    destruct (dispatch_flag_set fuel call action w2) as [e ->]; [apply Hq|].
    intros H. apply IH in H; [|apply Hq].
    by eapply quiet_trans.
  - unfold observable_subscribe.
    destruct (negb _); [intros H; by apply IH in H|].
    unfold observeState. cbn [objs set_observers].
    destruct (get_prop (objs w) observer "next") as [next|e];
      [|intros H; apply IH in H; [|done];
        eapply quiet_trans; [|exact H]; by repeat split].
    set (subscribed w1 :=
           (subscribe_listener (ObserveState (observers w) observer) w1)).
    assert (forall w1, quiet w w1 -> quiet w (subscribed w1).1) as Hsub.
    { intros w1 Hq. eapply quiet_trans; [exact Hq|]. unfold subscribed.
      destruct Hq as (Hq & _). unfold quiet, notifications.
      by rewrite subscribe_listener_isDispatching, subscribe_listener_log,
        subscribe_listener_currentListeners. }
    destruct (truthy next).
    + destruct next;
        try (intros H; apply IH in H; [|done];
             eapply quiet_trans; [|exact H]; by repeat split).
      destruct (call f _ _) as [[w1 [v|e]]|] eqn:Hcall; [| |done].
      * apply call_quiet in Hcall; [|done].
        assert (quiet w w1) as Hq.
        { destruct Hcall as (? & Hn & ?). repeat split; try done.
          rewrite Hn, notifications_log_event. simpl. unfold notifications.
          simpl. lia. }
        fold (subscribed w1). destruct (subscribed w1) as [w2 handle] eqn:Hs.
        intros H. apply IH in H.
        -- eapply quiet_trans; [|exact H].
           replace w2 with (subscribed w1).1 by by rewrite Hs. by apply Hsub.
        -- replace w2 with (subscribed w1).1 by by rewrite Hs.
           by apply Hsub.
      * apply call_quiet in Hcall; [|done].
        intros H. apply IH in H; [|apply Hcall].
        eapply quiet_trans; [|exact H].
        destruct Hcall as (? & Hn & ?). repeat split; try done.
        rewrite Hn, notifications_log_event. simpl. unfold notifications.
        simpl. lia.
    + fold (subscribed (set_observers (S (observers w)) w)).
      destruct (subscribed _) as [w2 handle] eqn:Hs.
      assert (quiet w w2) as Hq.
      { replace w2 with (subscribed (set_observers (S (observers w)) w)).1
          by by rewrite Hs.
        apply Hsub. by repeat split. }
      intros H. apply IH in H; [|apply Hq].
      by eapply quiet_trans.
Qed.

End InReducer.

Lemma call_quiet code n :
  forall f args w w' r,
    isDispatching w = true -> call code n f args w = Some (w', r) ->
    quiet w w'.
Proof.
  induction n as [|n IH]; intros f args w w' r Hflag; simpl; [done|].
  by apply exec_quiet.
Qed.

(** The reducer threw: [dispatch] throws the same exception; the state is
    the state before, the store is not dispatching any more, no listener
    has been notified and [currentListeners] has not moved. *)
Theorem reducer_exception code n action w w1 e :
  well_formed (objs w) action = true ->
  isDispatching w = false ->
  call code n (currentReducer w) [getState w; action] (begin_dispatch action w)
  = Some (w1, Raise e) ->
  exists w',
    store_dispatch code n action w = Some (w', Raise e) /\
    getState w' = getState w /\
    isDispatching w' = false /\
    currentListeners w' = currentListeners w /\
    notifications w' = notifications w.
Proof.
  intros Hwf Hflag Hcall.
  destruct (dispatch_reducer_throws code n action w w1 e Hwf Hflag Hcall)
    as [Hd Hstate].
  exists (set_isDispatching false w1). split; [exact Hd|].
  split; [exact Hstate|]. split; [done|].
  apply call_quiet in Hcall as (_ & Hn & Hc); [|done].
  split; [exact Hc|].
  unfold notifications in *. simpl in *. rewrite Hn.
  rewrite filter_app, length_app. simpl. lia.
Qed.

(** The notification of a list stops at the first listener that throws. *)
Lemma notify_snapshot_raise call before :
  forall l after w wb x w2 e,
    notify_snapshot call before w = Some (wb, Normal x) ->
    invoke call l (log_event (EvListener l) wb) = Some (w2, Raise e) ->
    notify_snapshot call (before ++ l :: after) w = Some (w2, Raise e).
Proof.
  induction before as [|l0 before IH]; intros l after w wb x w2 e; simpl.
  - intros [= <- _] ->. reflexivity.
  - destruct (invoke call l0 _) as [[w' [v|e']]|]; [|done|done].
    apply IH.
Qed.

(** A listener threw: [dispatch] throws the same exception, and the
    listeners after it are not called (the world is the one the listener
    left).  The store is not dispatching, and the state that the reducer
    returned stays: unless a listener dispatched or replaced the reducer
    meanwhile, [getState()] is that state. *)
Theorem listener_exception code n action w w1 v before l after wb x w2 e :
  wf w ->
  well_formed (objs w) action = true ->
  isDispatching w = false ->
  call code n (currentReducer w) [currentState w; action]
       (begin_dispatch action w) = Some (w1, Normal v) ->
  array_at w1 (nextListeners w1) = before ++ l :: after ->
  length (before ++ l :: after) < n ->
  notify_snapshot (call code n) before (commit_dispatch v w1)
  = Some (wb, Normal x) ->
  invoke (call code n) l (log_event (EvListener l) wb) = Some (w2, Raise e) ->
  store_dispatch code n action w = Some (w2, Raise e) /\
  isDispatching w2 = false /\
  (writes w2 = writes w + 1 -> getState w2 = v).
Proof.
  intros Hwf Hact Hflag Hcall Harr Hfuel Hbefore Hl.
  pose proof (call_arrays_kept code n _ _ _ _ _ Hcall) as Hkept.
  pose proof (sc_commit _ arrays_kept_closed action v w w1 Hflag Hkept Hwf)
    as [Hwfc _].
  set (wc := commit_dispatch v w1) in *.
  assert (frozen wc (currentListeners wc)) as Hfrozen.
  { split; [apply Hwfc | by right]. }
  assert (array_at wc (currentListeners wc) = before ++ l :: after) as Harrc
    by exact Harr.
  assert (notify_loop (call code n) n (currentListeners wc) 0 wc
          = Some (w2, Raise e)) as Hloop.
  { rewrite (notify_loop_is_snapshot (call code n) (call_arrays_kept code n)
               n _ 0 wc Hwfc Hfrozen); [|rewrite Harrc; lia].
    rewrite drop_0, Harrc. by eapply notify_snapshot_raise. }
  assert (store_dispatch code n action w = Some (w2, Raise e)) as Hd.
  { unfold store_dispatch, dispatch.
    unfold well_formed in Hact. apply andb_true_iff in Hact as [-> Htype].
    simpl. destruct (get_prop (objs w) action "type") as [t|e']; [|done].
    apply negb_true_iff in Htype. rewrite Htype, Hflag, Hcall.
    cbv zeta.
    change (notify_loop (call code n) n (nextListeners w1) 0
              (commit_dispatch v w1))
      with (notify_loop (call code n) n (currentListeners wc) 0 wc).
    by rewrite Hloop. }
  split; [exact Hd|]. split.
  - pose proof (store_dispatch_R code _ same_flag_closed _ _ _ _ _ Hd) as Hs.
    unfold same_flag in Hs. congruence.
  - intros Hwrites.
    pose proof (call_R code _ state_follows_log_closed _ _ _ _ _ _ Hcall)
      as [Hle1 _].
    pose proof (notify_loop_R _ state_follows_log_closed (call code n)
                  (call_R code _ state_follows_log_closed n) _ _ _ _ _ _ Hloop)
      as [Hle2 Hsame].
    assert (writes (begin_dispatch action w) = writes w + 1) as Hb.
    { unfold begin_dispatch.
      change (writes (log_event (EvReducer (currentReducer w) (currentState w)
                                   action) w) = writes w + 1).
      by rewrite writes_log_event. }
    assert (writes wc = writes w1) as Hwc by reflexivity.
    destruct Hsame as [Hstate _]; [lia|]. exact Hstate.
Qed.

(** *** replaceReducer *)

Lemma notify_loop_empty call k a w :
  array_at w a = [] ->
  notify_loop call (S k) a 0 w = Some (w, Normal VUndefined).
Proof. intros Ha. simpl. by rewrite Ha. Qed.

(** A dispatch to a reducer that only reads, with nothing subscribed. *)
Lemma dispatch_pure_no_listeners code n r action w :
  (forall s a, code (currentReducer w) [s; a] = pure_reducer r s a) ->
  well_formed (objs w) action = true ->
  isDispatching w = false ->
  array_at w (nextListeners w) = [] ->
  store_dispatch code (S n) action w
  = Some (commit_dispatch (r (objs w) (currentState w) action)
            (begin_dispatch action w), Normal action).
Proof.
  intros Hf Hwf Hflag Hnone.
  unfold store_dispatch, dispatch. unfold well_formed in Hwf.
  apply andb_true_iff in Hwf as [-> Htype]. simpl negb. cbv iota.
  destruct (get_prop _ _ "type") as [t|e]; [|done].
  apply negb_true_iff in Htype. rewrite Htype, Hflag.
  rewrite (call_pure_reducer code n _ r _ _ _ (Hf _ _)).
  rewrite set_objs_same. cbv zeta.
  by rewrite notify_loop_empty.
Qed.

(** The world in which [replaceReducer(f)] dispatches its action. *)
Definition replaced (f : fid) (w : world) : world :=
  (alloc_init_action (log_event (EvReplace f) (set_currentReducer f w))).1.

Lemma replaceReducer_unfold fuel call f w :
  replaceReducer fuel call (VFun f) w
  = match dispatch fuel call (VRef (fresh_loc (objs w))) (replaced f w) with
    | Some (w', Normal _) => Some (w', Normal VUndefined)
    | r => r
    end.
Proof. reflexivity. Qed.

Lemma writes_replaced f w : writes (replaced f w) = writes w + 1.
Proof.
  unfold replaced, alloc_init_action. simpl.
  change (writes (log_event (EvReplace f) (set_currentReducer f w))
          = writes w + 1).
  by rewrite writes_log_event.
Qed.


(** [replaceReducer] called while a reducer runs: the new reducer is in
    place although the call throws (the assignment comes before the
    [dispatch] that refuses); the state and the flag are as they were.
    Something that is not a function is refused and nothing changes. *)
Theorem replaceReducer_inside_reducer code n w :
  (forall f,
     isDispatching w = true ->
     exists w',
       store_replaceReducer code n (VFun f) w
       = Some (w', Raise reducer_dispatch_error) /\
       currentReducer w' = f /\ getState w' = getState w /\
       isDispatching w' = true /\ reducer_calls w' = reducer_calls w) /\
  (forall nextReducer,
     is_function nextReducer = false ->
     store_replaceReducer code n nextReducer w
     = Some (w, Raise (JsError ErrorC
                         "Expected the nextReducer to be a function."))).
Proof.
  split.
  - intros f Hflag.
    unfold store_replaceReducer. rewrite replaceReducer_unfold.
    rewrite dispatch_while_dispatching;
      [|exact Hflag|apply init_action_well_formed].
    eexists. split; [reflexivity|]. repeat split; try done.
    unfold reducer_calls, replaced, alloc_init_action. simpl.
    rewrite filter_app, length_app. simpl. lia.
  - intros nextReducer Hnot. by destruct nextReducer.
Qed.

(** *** subscribe and unsubscribe *)

Lemma remove_first_app_fresh l arr :
  l ∉ arr -> remove_first l (arr ++ [l]) = arr.
Proof.
  induction arr as [|x arr IH]; simpl; intros Hl.
  - by rewrite bool_decide_eq_true_2.
  - apply not_elem_of_cons in Hl as [Hx Hl].
    rewrite bool_decide_eq_false_2 by done. by rewrite IH.
Qed.

Lemma occurrences_singleton l : occurrences l [l] = 1.
Proof. simpl. by rewrite bool_decide_eq_true_2. Qed.

Lemma subscribe_listener_handle l w :
  (subscribe_listener l w).2 = length (subs w).
Proof. reflexivity. Qed.

(** [subscribe(l)] and then the [unsubscribe] it returned: the array that
    the next dispatch reads holds every listener as many times as before.
    What is removed is the first occurrence of [l], not the one that was
    appended: the array is the one before when [l] was not subscribed
    already, and otherwise [l] has moved to the end.  The arrays that a
    dispatch may be iterating stay as they were. *)
Theorem subscribe_then_unsubscribe l w :
  wf w ->
  let before := array_at w (nextListeners w) in
  let w1 := (subscribe_listener l w).1 in
  let w2 := unsubscribe (subscribe_listener l w).2 w1 in
  wf w2 /\
  array_at w2 (nextListeners w2) = remove_first l (before ++ [l]) /\
  (l ∉ before -> array_at w2 (nextListeners w2) = before) /\
  (forall l', occurrences l' (array_at w2 (nextListeners w2))
              = occurrences l' before) /\
  (forall a, frozen w a -> array_at w2 a = array_at w a).
Proof.
  intros Hwf before w1 w2.
  destruct (subscribe_listener_spec l w Hwf)
    as (Hwf1 & _ & Harr1 & Hsubs1 & Hfrozen1).
  fold w1 in Hwf1, Harr1, Hsubs1, Hfrozen1. fold before in Harr1.
  assert (subs w1 !! (subscribe_listener l w).2 = Some (true, l)) as Hhandle.
  { rewrite Hsubs1, subscribe_listener_handle.
    rewrite lookup_app_r by lia. by rewrite Nat.sub_diag. }
  destruct (unsubscribe_spec _ l w1 Hwf1 Hhandle)
    as (Hwf2 & _ & Harr2 & _ & Hfrozen2).
  fold w2 in Hwf2, Harr2, Hfrozen2. rewrite Harr1 in Harr2.
  split; [exact Hwf2|]. split; [exact Harr2|]. split; [|split].
  - intros Hfresh. rewrite Harr2. by apply remove_first_app_fresh.
  - intros l'. rewrite Harr2.
    assert (0 < occurrences l (before ++ [l])) as Hpos.
    { rewrite occurrences_app, occurrences_singleton. lia. }
    pose proof (occurrences_remove_first l l' _ Hpos) as Hrem.
    rewrite occurrences_app in Hrem. simpl in Hrem.
    destruct (bool_decide (l = l')); lia.
  - intros a Ha. destruct (Hfrozen1 a Ha) as [Ha1 Heq1].
    destruct (Hfrozen2 a Ha1) as [_ Heq2].
    unfold array_at. by rewrite Heq2, Heq1.
Qed.

(** *** The observable: unsubscribing *)

Lemma subscribe_listener_other l w a :
  a <> nextListeners (subscribe_listener l w).1 ->
  arrays (subscribe_listener l w).1 !! a = arrays w !! a.
Proof.
  unfold subscribe_listener, ensureCanMutateNextListeners. simpl.
  case_bool_decide; simpl; intros Ha.
  - by rewrite !lookup_insert_ne.
  - by rewrite lookup_insert_ne.
Qed.

Lemma unsubscribe_other handle w a :
  a <> nextListeners (unsubscribe handle w) ->
  arrays (unsubscribe handle w) !! a = arrays w !! a.
Proof.
  unfold unsubscribe, ensureCanMutateNextListeners.
  destruct (subs w !! handle) as [[[] l]|]; [|done|done]. simpl.
  case_bool_decide; simpl; intros Ha.
  - by rewrite !lookup_insert_ne.
  - by rewrite lookup_insert_ne.
Qed.

(** After a [subscribe] the two references point to different arrays. *)
Lemma subscribe_listener_unshared l w :
  wf w ->
  nextListeners (subscribe_listener l w).1
  <> currentListeners (subscribe_listener l w).1.
Proof.
  intros (Hc & _ & _).
  unfold subscribe_listener, ensureCanMutateNextListeners. simpl.
  case_bool_decide as Heq; simpl; [|done].
  intros Hfresh. rewrite <- Hfresh in Hc.
  unfold fresh_loc in Hc. apply elem_of_dom in Hc. by apply is_fresh in Hc.
Qed.

Lemma unsubscribe_nextListeners handle w :
  nextListeners w <> currentListeners w ->
  nextListeners (unsubscribe handle w) = nextListeners w.
Proof.
  intros Hne. unfold unsubscribe, ensureCanMutateNextListeners.
  destruct (subs w !! handle) as [[[] l]|]; [|done|done]. simpl.
  by rewrite bool_decide_eq_false_2.
Qed.

(** The closure [observeState] number [c], subscribed and unsubscribed
    again, stands in no array if it stood in none. *)
Lemma absent_round_trip c observer w :
  wf w -> absent c w ->
  absent c (unsubscribe (length (subs w))
              (subscribe_listener (ObserveState c observer) w).1).
Proof.
  intros Hwf Habs.
  set (cl := ObserveState c observer).
  set (w1 := (subscribe_listener cl w).1).
  destruct (subscribe_listener_spec cl w Hwf)
    as (Hwf1 & _ & Harr1 & Hsubs1 & _).
  fold w1 in Hwf1, Harr1, Hsubs1.
  assert (subs w1 !! length (subs w) = Some (true, cl)) as Hhandle.
  { rewrite Hsubs1, lookup_app_r by lia. by rewrite Nat.sub_diag. }
  destruct (unsubscribe_spec _ cl w1 Hwf1 Hhandle)
    as ((_ & Hn2 & _) & _ & Harr2 & _).
  set (w2 := unsubscribe (length (subs w)) w1) in *.
  pose proof (subscribe_listener_unshared cl w Hwf) as Hne. fold w1 in Hne.
  pose proof (unsubscribe_nextListeners (length (subs w)) w1 Hne) as Hnext.
  fold w2 in Hnext.
  destruct Hwf as (_ & [arr0 Harr0] & _).
  assert (array_at w (nextListeners w) = arr0) as Hat
    by (unfold array_at; by rewrite Harr0).
  assert (forall observer', ObserveState c observer' ∉ arr0) as Hnot
    by (intros observer'; by eapply Habs).
  intros a arr observer' Ha Hin.
  destruct (decide (a = nextListeners w2)) as [->|Hother].
  - destruct Hn2 as [arr2 Hn2].
    assert (array_at w2 (nextListeners w2) = arr) as Hat2
      by (unfold array_at; by rewrite Ha).
    rewrite Harr2, Harr1, Hat in Hat2.
    rewrite remove_first_app_fresh in Hat2 by apply Hnot.
    subst arr. by eapply Hnot.
  - assert (arrays w2 !! a = arrays w1 !! a) as E2
      by (apply unsubscribe_other; exact Hother).
    rewrite Hnext in Hother.
    assert (arrays w1 !! a = arrays w !! a) as E1
      by (apply subscribe_listener_other; exact Hother).
    rewrite E2, E1 in Ha. by eapply Habs.
Qed.

(** Dispatches one after the other do not call [next] through a closure
    that stands in no array. *)
Lemma dispatch_all_silent code c m actions :
  forall w worlds,
    c < observers w -> absent c w ->
    dispatch_all code m actions w = Some worlds ->
    Forall (fun w3 => next_calls c w3 = next_calls c w) worlds.
Proof.
  induction actions as [|action rest IH]; intros w worlds Hc Habs; simpl.
  - by intros [= <-].
  - destruct (store_dispatch code m action w) as [[w1 [v|e]]|] eqn:Hd;
      [|done|done].
    destruct (dispatch_all code m rest w1) as [worlds'|] eqn:Hrest; [|done].
    intros [= <-].
    destruct (store_dispatch_R code _ (not_called_closed c) _ _ _ _ _ Hd)
      as ((Hc1 & Habs1) & Hcalls); [done|].
    constructor; [exact Hcalls|].
    eapply Forall_impl; [by eapply IH|].
    simpl. intros w3 H3. congruence.
Qed.


End StoreBehaviour.

(* ===================================================================== *)
(** ** The memo cell over one cycle                                       *)
(* ===================================================================== *)

Module ConnectBehaviour.

Import Connect.

Lemma run_returned sourceSelector getState ownProps sel h h1 nextProps :
  bind getState (fun state => sourceSelector state ownProps) h
  = (h1, Normal nextProps) ->
  run sourceSelector getState ownProps sel h
  = (h1, Normal (if negb (strict_eq nextProps (props sel))
                      || truthy_slot (error sel)
                 then mkSelector (VBool true) nextProps ErrNull
                 else sel)).
Proof.
  unfold run, try_catch, bind.
  destruct (getState h) as [h0 [state|e0]]; [|done].
  destruct (sourceSelector state ownProps h0) as [h2 [np|e2]]; [|done].
  intros [= -> ->]. by destruct (_ || _).
Qed.

(** The memo cell over one cycle.  The source selector returns [nextProps]
    (not [NaN]); [run] has the cell hold it; [render] hands it out and
    clears the flag.  When the source selector then returns the same
    [nextProps] again, [run] leaves the cell as it is, with its flag clear:
    a change of the store that does not change what is selected asks for no
    render.  And [run] without a [render] in between changes nothing
    either. *)
Theorem selector_settles sourceSelector getState ownProps sel h h1 h2
    nextProps :
  strict_eq nextProps nextProps = true ->
  bind getState (fun state => sourceSelector state ownProps) h
  = (h1, Normal nextProps) ->
  bind getState (fun state => sourceSelector state ownProps) h1
  = (h2, Normal nextProps) ->
  exists sel1,
    run sourceSelector getState ownProps sel h = (h1, Normal sel1) /\
    props sel1 = nextProps /\
    run sourceSelector getState ownProps sel1 h1 = (h2, Normal sel1) /\
    let rendered := (render sel1).1 in
    (render sel1).2 = Normal nextProps /\
    shouldComponentUpdate rendered = VBool false /\
    run sourceSelector getState ownProps rendered h1 = (h2, Normal rendered).
Proof.
  intros Hrefl Hfirst Hsecond.
  rewrite (run_returned _ _ _ sel _ _ _ Hfirst).
  destruct (negb (strict_eq nextProps (props sel)) || truthy_slot (error sel))
    eqn:Hchanged.
  - eexists. split; [reflexivity|]. split; [reflexivity|].
    rewrite !(run_returned _ _ _ _ _ _ _ Hsecond). simpl.
    rewrite Hrefl. simpl. repeat split.
    rewrite (run_returned _ _ _ _ _ _ _ Hsecond). simpl. by rewrite Hrefl.
  - apply orb_false_iff in Hchanged as [Hsame Herr].
    apply negb_false_iff in Hsame.
    assert (props sel = nextProps) as Hprops.
    { destruct nextProps, (props sel); simpl in Hsame; try done;
        by apply bool_decide_eq_true_1 in Hsame. }
    exists sel. split; [reflexivity|]. split; [exact Hprops|].
    rewrite !(run_returned _ _ _ _ _ _ _ Hsecond).
    rewrite Hsame, Herr. simpl. split; [done|].
    assert ((render sel).2 = Normal nextProps) as Hout.
    { unfold render. destruct (error sel) as [| |e]; simpl in *;
        rewrite ?Herr; by rewrite Hprops. }
    assert ((render sel).1 = mkSelector (VBool false) (props sel) (error sel))
      as Hcell.
    { unfold render. destruct (error sel) as [| |e]; simpl in *;
        by rewrite ?Herr. }
    split; [exact Hout|]. rewrite Hcell. split; [done|].
    rewrite (run_returned _ _ _ _ _ _ _ Hsecond). simpl.
    by rewrite Hsame, Herr.
Qed.

End ConnectBehaviour.

(* ===================================================================== *)
(** ** Properties of bindActionCreators                                   *)
(* ===================================================================== *)

Module BindProofs.

Import BindActionCreators.

Lemma bind_keys_other props dispatch :
  forall m key,
    key ∉ props.*1 -> bind_keys props dispatch m !! key = m !! key.
Proof.
  induction props as [|[k [f|v]] props IH]; intros m key Hkey; simpl in *.
  - done.
  - apply not_elem_of_cons in Hkey as [Hne Hkey].
    rewrite IH by done. by rewrite lookup_insert_ne.
  - apply not_elem_of_cons in Hkey as [Hne Hkey]. by apply IH.
Qed.

Lemma bind_keys_lookup props dispatch :
  NoDup props.*1 ->
  forall m key p,
    (key, p) ∈ props ->
    bind_keys props dispatch m !! key
    = match p with
      | PFn f => Some (bindActionCreator f dispatch)
      | PVal _ => m !! key
      end.
Proof.
  induction props as [|[k p0] props IH]; intros Hnd m key p Hin.
  - by apply elem_of_nil in Hin.
  - simpl in Hnd. apply NoDup_cons in Hnd as [Hk Hnd].
    apply elem_of_cons in Hin as [[= -> ->]|Hin].
    + destruct p0 as [f|v]; simpl.
      * rewrite bind_keys_other by done. by rewrite lookup_insert_eq.
      * by rewrite bind_keys_other.
    + assert (key <> k) as Hne.
      { intros ->. apply Hk. apply list_elem_of_fmap. by exists (k, p). }
      destruct p0 as [f|v]; simpl; rewrite (IH Hnd _ _ _ Hin); destruct p;
        try done.
      by rewrite lookup_insert_ne.
Qed.

(** [bindActionCreators] on an object: the object returned has, under each
    key whose value is a function, a function that calls the action creator
    with its arguments and dispatches what that returned, returning what
    [dispatch] returns (when the action creator throws, [dispatch] is not
    called); a key whose value is not a function is left out, and no key is
    added.  On a value that is neither an object nor a function it
    throws. *)
Theorem bindActionCreators_binds props dispatch :
  NoDup props.*1 ->
  exists boundActionCreators,
    bindActionCreators (Creators props) dispatch
    = Normal (BoundObject boundActionCreators) /\
    (forall key f,
        (key, PFn f) ∈ props ->
        exists g,
          boundActionCreators !! key = Some g /\
          forall args h,
            g args h = match f args h with
                       | (h', Normal action) => dispatch [action] h'
                       | (h', Raise e) => (h', Raise e)
                       end) /\
    (forall key v, (key, PVal v) ∈ props -> boundActionCreators !! key = None) /\
    (forall key, key ∉ props.*1 -> boundActionCreators !! key = None) /\
    (forall v, bindActionCreators (NotCreators v) dispatch
               = Raise (expected_error v)).
Proof.
  intros Hnd. eexists. split; [reflexivity|]. repeat split.
  - intros key f Hin. eexists. split.
    + by rewrite (bind_keys_lookup _ _ Hnd _ _ _ Hin).
    + reflexivity.
  - intros key v Hin. by rewrite (bind_keys_lookup _ _ Hnd _ _ _ Hin).
  - intros key Hkey. by rewrite bind_keys_other.
Qed.

End BindProofs.

(* ===================================================================== *)
(** ** Properties of applyMiddleware and redux-thunk                      *)
(* ===================================================================== *)

Module MiddlewareProofs.

Import Store StoreProofs Middleware.

Lemma reduce_nests {A} (rest : list (A -> A)) :
  forall (a : A -> A) (x : A),
    Compose.reduce (fun a b => fun args => a (b args)) a rest x
    = a (fold_right (fun f y => f y) x rest).
Proof.
  induction rest as [|g rest IH]; intros a x; simpl.
  - reflexivity.
  - unfold Compose.reduce in *. simpl. by rewrite IH.
Qed.

Lemma compose_nests {A} (funcs : list (A -> A)) (x : A) :
  compose funcs x = fold_right (fun f y => f y) x funcs.
Proof.
  destruct funcs as [|f [|g rest]]; [reflexivity|reflexivity|].
  unfold compose. by rewrite reduce_nests.
Qed.

Lemma chain_nests (api : middlewareAPI) (ms : list middleware)
    (next : dispatcher) :
  fold_right (fun f y => f y) next (map (fun m => m api) ms)
  = fold_right (fun m next => m api next) next ms.
Proof. induction ms as [|m ms IH]; simpl; [done|]. by rewrite IH. Qed.

(** The [dispatch] that [applyMiddleware] builds is the middlewares nested
    in the order in which they were given: the first is outermost and
    receives the action first, each [next] is the middleware after, and the
    [next] of the last is [store.dispatch].  Every middleware is given the
    same [middlewareAPI], whose [dispatch] enters the whole chain again.
    Without middleware it is [store.dispatch]. *)
Theorem applyMiddleware_nests middlewares store_dispatch store_getState n
    action w :
  let middlewareAPI :=
    mkAPI store_getState
          (dispatch middlewares store_dispatch store_getState n) in
  dispatch middlewares store_dispatch store_getState (S n) action w
  = fold_right (fun middleware next => middleware middlewareAPI next)
      store_dispatch middlewares action w /\
  dispatch [] store_dispatch store_getState (S n) action w
  = store_dispatch action w.
Proof.
  intros middlewareAPI. split; [|reflexivity].
  simpl. fold middlewareAPI. by rewrite compose_nests, chain_nests.
Qed.

(** redux-thunk as the only middleware, on a store of [createStore].  An
    action that is not a function goes to [store.dispatch] as it is.  An
    action that is a function does not reach the store, which would refuse
    it: it is called, with a [dispatch] that enters the chain again and the
    [getState] of the store, and what it returns is what [dispatch]
    returns. *)
Theorem thunk_runs_functions code bodies m n action w :
  let store_dispatch := Store.store_dispatch code m in
  let dispatch :=
    Middleware.dispatch [thunk_middleware bodies] store_dispatch getState in
  (is_function action = false ->
   dispatch (S n) action w = store_dispatch action w) /\
  (forall f,
     action = VFun f ->
     dispatch (S n) action w
     = run_thunk (dispatch n) getState (bodies f VUndefined) w /\
     store_dispatch action w = Some (w, Raise not_plain_error)) /\
  (forall f inner v,
     action = VFun f ->
     is_function inner = false ->
     bodies f VUndefined = CallDispatch inner (fun _ => Return v) ->
     dispatch (S (S n)) action w
     = match store_dispatch inner w with
       | None => None
       | Some (w', _) => Some (w', Normal v)
       end).
Proof.
  intros store_dispatch dispatch. split; [|split].
  - intros Hnot. by destruct action.
  - intros f ->. split; reflexivity.
  - intros f inner v -> Hinner Hbody.
    change (dispatch (S (S n)) (VFun f) w)
      with (run_thunk (dispatch (S n)) getState (bodies f VUndefined) w).
    rewrite Hbody. cbn [run_thunk].
    assert (dispatch (S n) inner w = store_dispatch inner w) as ->
      by by destruct inner.
    by destruct (store_dispatch inner w) as [[w' r]|].
Qed.

End MiddlewareProofs.

(* ===================================================================== *)
(** ** Properties of mergeProps                                           *)
(* ===================================================================== *)

Module MergeProofs.

Import CombineReducers MergeProps.

(** [defaultMergeProps] returns an object that was not there before, and
    leaves every other object as it was; a property of the object returned
    is that of [dispatchProps] when it has one of that name, else that of
    [stateProps], else that of [ownProps]. *)
Theorem defaultMergeProps_precedence stateProps dispatchProps ownProps h :
  let merged := fresh_loc h in
  exists h',
    defaultMergeProps stateProps dispatchProps ownProps h
    = (h', Normal (VRef merged)) /\
    h !! merged = None /\
    isPlainObject h' (VRef merged) = true /\
    (forall l, l <> merged -> h' !! l = h !! l) /\
    forall key,
      get_prop h' (VRef merged) key
      = Normal
          (match spread h dispatchProps !! key with
           | Some v => v
           | None =>
               match spread h stateProps !! key with
               | Some v => v
               | None => default VUndefined (spread h ownProps !! key)
               end
           end).
Proof.
  intros merged. eexists. split; [reflexivity|].
  split; [apply fresh_loc_None|]. split; [|split].
  - simpl. fold merged. by rewrite lookup_insert_eq.
  - intros l Hl. fold merged. by rewrite lookup_insert_ne.
  - intros key. simpl. fold merged. rewrite lookup_insert_eq. simpl.
    f_equal. rewrite <- !(assoc_L (∪)).
    destruct (spread h dispatchProps !! key) as [v|] eqn:Hd.
    + by erewrite lookup_union_Some_l.
    + rewrite lookup_union_r by done.
      destruct (spread h stateProps !! key) as [v|] eqn:Hs.
      * by erewrite lookup_union_Some_l.
      * by rewrite lookup_union_r.
Qed.

(** Calls of one proxy one after the other: the variables and the heap at
    the end, and what each call returned or threw. *)
Fixpoint proxy_calls (mergeProps : merger) (pure : value)
  (areMergedPropsEqual : comparison) (vars : memo)
  (calls : list (value * value * value)) (h : heap)
  : memo * heap * list (outcome value) :=
  match calls with
  | [] => (vars, h, [])
  | (stateProps, dispatchProps, ownProps) :: rest =>
      let '(vars1, h1, r) :=
        mergePropsProxy mergeProps pure areMergedPropsEqual vars
                        stateProps dispatchProps ownProps h in
      let '(vars2, h2, rs) :=
        proxy_calls mergeProps pure areMergedPropsEqual vars1 rest h1 in
      (vars2, h2, r :: rs)
  end.

(** The proxy that [wrapMergePropsFunc] makes.  Its first call returns
    what [mergeProps] returned and keeps it.  From then on, when [pure] is
    truthy and every new result compares equal to the one kept, every call
    returns the very reference that was kept, however many calls there
    are; when [pure] is falsy every call returns the new result and the
    comparison is not called. *)
Theorem mergePropsProxy_keeps_reference mergeProps pure areMergedPropsEqual :
  (forall s d o h h1 next,
      mergeProps s d o h = (h1, Normal next) ->
      mergePropsProxy mergeProps pure areMergedPropsEqual new_memo s d o h
      = (mkMemo true next, h1, Normal next)) /\
  (forall kept,
      truthy pure = true ->
      (forall s d o h,
          exists h1 next h2 equal,
            mergeProps s d o h = (h1, Normal next) /\
            areMergedPropsEqual next kept h1 = (h2, Normal equal) /\
            truthy equal = true) ->
      forall calls h,
        let '(vars, _, results) :=
          proxy_calls mergeProps pure areMergedPropsEqual (mkMemo true kept)
                      calls h in
        vars = mkMemo true kept /\
        results = (fun _ => Normal kept) <$> calls) /\
  (forall vars s d o h h1 next,
      truthy pure = false ->
      mergeProps s d o h = (h1, Normal next) ->
      mergePropsProxy mergeProps pure areMergedPropsEqual vars s d o h
      = (mkMemo true next, h1, Normal next)).
Proof.
  split; [|split].
  - intros s d o h h1 next Hm. unfold mergePropsProxy. by rewrite Hm.
  - intros kept Hpure Hequal calls.
    induction calls as [|[[s d] o] rest IH]; intros h; simpl.
    + done.
    + unfold mergePropsProxy at 1.
      destruct (Hequal s d o h) as (h1 & next & h2 & equal & -> & Heq & Ht).
      simpl. rewrite Hpure. simpl. rewrite Heq, Ht. simpl.
      specialize (IH h2).
      destruct (proxy_calls _ _ _ _ rest h2) as [[vars2 h3] rs].
      destruct IH as [-> ->]. done.
  - intros vars s d o h h1 next Hpure Hm. unfold mergePropsProxy.
    rewrite Hm, Hpure. simpl. by destruct (hasRunOnce vars).
Qed.

Lemma match_from_take {A R} (arg : A) (l1 l2 : list (A -> option R)) i :
  i <= length l1 ->
  match_from i arg (l1 ++ l2) = match_from i arg l1.
Proof.
  induction i as [|i IH]; intros Hi; simpl; [done|].
  rewrite lookup_app_l by lia. rewrite IH by lia. done.
Qed.

Lemma match_from_none {A R} (arg : A) (pre after : list (A -> option R)) :
  Forall (fun factory => factory arg = None) after ->
  match_from (length (pre ++ after)) arg (pre ++ after)
  = match_from (length pre) arg pre.
Proof.
  induction after as [|g after IH] using rev_ind; intros Hnone.
  - by rewrite app_nil_r.
  - apply Forall_app in Hnone as [Hafter Hg].
    apply Forall_cons in Hg as [Hg _].
    rewrite app_assoc, length_app. simpl.
    rewrite Nat.add_1_r. simpl.
    rewrite lookup_app_r by lia. rewrite Nat.sub_diag. simpl. rewrite Hg.
    rewrite match_from_take by lia. by apply IH.
Qed.

(** [match] returns what the last factory of the list that applies
    returned, the factories after it not applying; when none applies it
    returns the function that throws, whose message names the type of the
    argument.  For the argument [mergeProps] and the two factories of
    mergeProps.js: a function is wrapped, a falsy value gives the default,
    any other value is invalid; and as the two never apply to the same
    argument, their order in the list does not matter. *)
Theorem match_takes_last_applicable {R} (arg : argument) (name : string) :
  (forall (before after : list (argument -> option R)) factory result,
      factory arg = Some result ->
      Forall (fun later => later arg = None) after ->
      match_ arg (before ++ factory :: after) name = Found result) /\
  (forall factories : list (argument -> option R),
      Forall (fun factory => factory arg = None) factories ->
      match_ arg factories name
      = Invalid (type_name (typeof_argument arg)) name) /\
  match_ arg defaultMergePropsFactories name
  = match arg with
    | ArgFn f => Found (Wrapped f)
    | ArgVal v => if truthy v then Invalid (type_name (typeof v)) name
                  else Found Default
    end /\
  match_ arg (rev defaultMergePropsFactories) name
  = match_ arg defaultMergePropsFactories name.
Proof.
  split; [|split; [|split]].
  - intros before after factory result Hf Hafter. unfold match_.
    replace (before ++ factory :: after) with ((before ++ [factory]) ++ after)
      by by rewrite <- app_assoc.
    rewrite match_from_none by done.
    rewrite length_app. simpl. rewrite Nat.add_1_r. simpl.
    rewrite lookup_app_r by lia. rewrite Nat.sub_diag. simpl. by rewrite Hf.
  - intros factories Hnone. unfold match_.
    pose proof (match_from_none arg [] factories Hnone) as Hm.
    simpl in Hm. by rewrite Hm.
  - destruct arg as [f|v]; [reflexivity|].
    unfold match_. simpl. by destruct (truthy v).
  - destruct arg as [f|v]; [reflexivity|].
    unfold match_. simpl. by destruct (truthy v).
Qed.

End MergeProofs.

(* ===================================================================== *)
(** ** Properties of wrapMapToProps                                       *)
(* ===================================================================== *)

Module MapToPropsProofs.

Import MapToProps.

(** Calls of one proxy one after the other: the proxy and the heap at the
    end, and what each call returned or threw. *)
Fixpoint proxy_calls (mapToProps : mapfn) (p : proxy)
  (calls : list (value * value)) (h : heap)
  : proxy * heap * list (outcome returned) :=
  match calls with
  | [] => (p, h, [])
  | (stateOrDispatch, ownProps) :: rest =>
      let '(p1, h1, r) :=
        mapToPropsProxy mapToProps p stateOrDispatch ownProps h in
      let '(p2, h2, rs) := proxy_calls mapToProps p1 rest h1 in
      (p2, h2, r :: rs)
  end.

(** The same calls made on a function of the client directly, with the
    second argument or without it. *)
Fixpoint direct_calls (dependsOnOwnProps : bool) (f : mapfn)
  (calls : list (value * value)) (h : heap)
  : heap * list (outcome returned) :=
  match calls with
  | [] => (h, [])
  | (stateOrDispatch, ownProps) :: rest =>
      let '(h1, r) :=
        call_installed dependsOnOwnProps f stateOrDispatch ownProps h in
      let '(h2, rs) := direct_calls dependsOnOwnProps f rest h1 in
      (h2, r :: rs)
  end.

Lemma installed_calls mapToProps f depends calls :
  forall h,
    proxy_calls mapToProps (mkProxy depends (Installed f)) calls h
    = (mkProxy depends (Installed f),
       (direct_calls depends f calls h).1,
       (direct_calls depends f calls h).2).
Proof.
  induction calls as [|[s o] rest IH]; intros h; simpl; [done|].
  unfold mapToPropsProxy at 1. simpl.
  destruct (call_installed depends f s o h) as [h1 r].
  rewrite IH. by destruct (direct_calls depends f rest h1).
Qed.

(** A function that never returns a function. *)
Definition plain (f : mapfn) : Prop :=
  forall args h g, (call_fn f args h).2 <> Normal (inr g).

(** The proxy of a [mapToProps] that is not a factory is transparent: the
    calls of the proxy, the first included, return and do what the same
    calls of [mapToProps] return and do, [ownProps] being passed when
    [getDependsOnOwnProps(mapToProps)] says so and left out otherwise. *)
Theorem proxy_is_transparent mapToProps calls h :
  plain mapToProps ->
  let depends := getDependsOnOwnProps mapToProps in
  let '(p, h', results) := proxy_calls mapToProps new_proxy calls h in
  (h', results) = direct_calls depends mapToProps calls h /\
  (calls <> [] -> p = mkProxy depends (Installed mapToProps)).
Proof.
  intros Hplain depends. destruct calls as [|[s o] rest]; simpl; [done|].
  unfold mapToPropsProxy at 1. simpl. fold depends.
  pose proof (Hplain (if depends then [s; o] else [s]) h) as Hnot.
  assert (call_installed depends mapToProps s o h
          = call_fn mapToProps (if depends then [s; o] else [s]) h) as Hcall
    by (unfold call_installed; by destruct depends).
  rewrite <- Hcall in Hnot.
  destruct (call_installed depends mapToProps s o h) as [h1 [[props|g]|e]].
  - rewrite installed_calls.
    destruct (direct_calls depends mapToProps rest h1); by split.
  - by destruct (Hnot g).
  - rewrite installed_calls.
    destruct (direct_calls depends mapToProps rest h1); by split.
Qed.

(** A [mapToProps] that is a factory: its first call returns a function
    [made].  The first call of the proxy then calls [made] at once, with
    the same arguments, and returns what it returns; [made] is installed,
    and every later call of the proxy is a call of [made] ([ownProps]
    passed or not as [getDependsOnOwnProps(made)] says): the factory is
    not called again. *)
Theorem factory_is_called_once mapToProps made s o h h1 calls :
  call_installed (getDependsOnOwnProps mapToProps) mapToProps s o h
  = (h1, Normal (inr made)) ->
  let depends := getDependsOnOwnProps made in
  let '(p, h', results) := proxy_calls mapToProps new_proxy ((s, o) :: calls) h in
  p = mkProxy depends (Installed made) /\
  (h', results) = direct_calls depends made ((s, o) :: calls) h1.
Proof.
  intros Hfactory depends. simpl.
  unfold mapToPropsProxy at 1. simpl. rewrite Hfactory. fold depends.
  destruct (call_installed depends made s o h1) as [h2 r].
  rewrite installed_calls.
  destruct (direct_calls depends made calls h2). by split.
Qed.

End MapToPropsProofs.

(* ===================================================================== *)
(** ** Properties of debounce                                             *)
(* ===================================================================== *)

Module DebounceProofs.

Import Debounce.

Local Open Scope Z_scope.

(** The calls of the debounced function in a history. *)
Definition calls_of (events : list event) : list call :=
  omap (fun e => match e with Call _ call => Some call | _ => None end) events.

Lemma calls_of_app events1 events2 :
  calls_of (events1 ++ events2) = calls_of events1 ++ calls_of events2.
Proof. unfold calls_of. by rewrite omap_app. Qed.

Lemma run_snoc c events e : run c (events ++ [e]) = step c (run c events) e.
Proof. unfold run. by rewrite fold_left_app. Qed.

(** *** The arguments that [func] receives *)

(** The calls that [func] has received are among the calls made, in their
    order, and the call that [lastArgs] holds, if any, is the last one made
    and has not been passed on yet. *)
Definition served (calls : list call) (s : state) : Prop :=
  match lastCall s with
  | Some call =>
      exists before, calls = before ++ [call] /\ (invoked s).*2 `sublist_of` before
  | None => (invoked s).*2 `sublist_of` calls
  end.

Lemma served_sublist calls s :
  served calls s -> (invoked s).*2 `sublist_of` calls.
Proof.
  unfold served. destruct (lastCall s) as [call|]; [|done].
  intros (before & -> & Hsub). by apply sublist_inserts_r.
Qed.

Section Served.

Variable c : config.

Lemma invokeFunc_served calls time s :
  is_Some (lastCall s) -> served calls s ->
  served calls (invokeFunc c time s).1.
Proof.
  intros [call Hcall]. unfold served, invokeFunc. rewrite Hcall. simpl.
  intros (before & -> & Hsub).
  destruct (func c _ _); simpl; rewrite fmap_app; simpl;
    by apply sublist_app.
Qed.

Lemma trailingEdge_served calls time s :
  served calls s -> served calls (trailingEdge c time s).1.
Proof.
  intros Hs. unfold trailingEdge.
  destruct (trailing c); simpl.
  - case_bool_decide as Hcall.
    + by apply invokeFunc_served.
    + simpl. by apply served_sublist in Hs.
  - by apply served_sublist in Hs.
Qed.

Lemma step_served calls s e :
  served calls s -> served (calls ++ calls_of [e]) (step c s e).
Proof.
  intros Hs. destruct e as [now call|now id| |now]; simpl;
    rewrite ?app_nil_r.
  - (* a call *)
    set (s1 := set_lastCallTime (Some now) (set_lastCall (Some call) s)).
    assert (served (calls ++ [call]) s1) as Hs1.
    { unfold served. simpl. exists calls. split; [done|].
      by apply served_sublist. }
    assert (forall s2, lastCall s2 = lastCall s1 -> invoked s2 = invoked s1 ->
                       served (calls ++ [call]) s2) as Hsame.
    { intros s2 Hl Hi. unfold served in *. by rewrite Hl, Hi. }
    unfold debounced. fold s1.
    destruct (shouldInvoke c now s).
    + change (timerId s1) with (timerId s). destruct (timerId s) eqn:Ht.
      * destruct (maxing c).
        -- apply invokeFunc_served; [by eexists|]. by apply Hsame.
        -- exact Hs1.
      * unfold leadingEdge. destruct (leading c).
        -- apply invokeFunc_served; [by eexists|]. by apply Hsame.
        -- simpl. by apply Hsame.
    + simpl. destruct (timerId s); simpl; [exact Hs1|by apply Hsame].
  - (* a timer fires *)
    unfold fire. destruct (timers s !! id) as [due|]; [|done].
    destruct (due <=? now); [|done].
    unfold timerExpired.
    set (s0 := set_timers (delete id (timers s)) s).
    assert (served calls s0) as Hs0 by exact Hs.
    destruct (shouldInvoke c now s0).
    + by apply trailingEdge_served.
    + exact Hs.
  - (* cancel *)
    unfold cancel. apply served_sublist in Hs.
    by destruct (timerId s).
  - (* flush *)
    unfold flush. destruct (timerId s); [|done].
    by apply trailingEdge_served.
Qed.

Lemma run_served events : served (calls_of events) (run c events).
Proof.
  induction events as [|e events IH] using rev_ind.
  - unfold served. simpl. constructor.
  - rewrite run_snoc, calls_of_app. by apply step_served.
Qed.

End Served.

(** Whatever the options, and whatever the order and the times of the
    calls, of the timers and of [cancel] and [flush]: [func] is called only
    with the [this] and the arguments of a call that was made of the
    debounced function, the calls passed on come in the order in which they
    were made and each is passed on once at most; so [func] is never called
    more often than the debounced function was. *)
Theorem invocations_follow_calls (c : config) (events : list event) :
  (invoked (run c events)).*2 `sublist_of` calls_of events /\
  (length (invoked (run c events)) <= length (calls_of events))%nat.
Proof.
  pose proof (served_sublist _ _ (run_served c events)) as Hsub.
  split; [exact Hsub|].
  apply sublist_length in Hsub. by rewrite length_fmap in Hsub.
Qed.

(** *** When [func] is called *)

(** A call that [lastArgs] holds has its time in [lastCallTime]. *)
Definition timed (s : state) : Prop :=
  is_Some (lastCall s) -> is_Some (lastCallTime s).

Section Timed.

Variable c : config.

Lemma invokeFunc_lastCall time s : lastCall (invokeFunc c time s).1 = None.
Proof. unfold invokeFunc. by destruct (func c _ _). Qed.

Lemma trailingEdge_lastCall time s : lastCall (trailingEdge c time s).1 = None.
Proof.
  unfold trailingEdge. destruct (_ && _); [|done]. apply invokeFunc_lastCall.
Qed.

Lemma invokeFunc_lastCallTime time s :
  lastCallTime (invokeFunc c time s).1 = lastCallTime s.
Proof. unfold invokeFunc. by destruct (func c _ _). Qed.

Lemma step_timed s e : timed s -> timed (step c s e).
Proof.
  intros Hs. destruct e as [now call|now id| |now]; simpl.
  - intros _. unfold debounced.
    assert (forall s2, is_Some (lastCallTime s2) ->
                       is_Some (lastCallTime (invokeFunc c now s2).1)) as Hinv
      by (intros s2; by rewrite invokeFunc_lastCallTime).
    destruct (shouldInvoke c now s); simpl.
    + destruct (timerId s).
      * destruct (maxing c); [by apply Hinv|done].
      * unfold leadingEdge. destruct (leading c); [by apply Hinv|done].
    + by destruct (timerId s).
  - unfold fire. destruct (timers s !! id) as [due|]; [|done].
    destruct (due <=? now); [|done].
    unfold timerExpired. destruct (shouldInvoke c now _).
    + unfold timed. by rewrite trailingEdge_lastCall; intros [? ?].
    + exact Hs.
  - unfold timed, cancel. simpl. by intros [? ?].
  - unfold flush. destruct (timerId s); [|done].
    unfold timed. by rewrite trailingEdge_lastCall; intros [? ?].
Qed.

Lemma run_timed events : timed (run c events).
Proof.
  induction events as [|e events IH] using rev_ind.
  - by intros [? ?].
  - rewrite run_snoc. by apply step_timed.
Qed.

End Timed.

(** Without [maxWait] and without the leading edge, as with no options at
    all: a call of the debounced function never calls [func]; [func] is
    called when a timer fires, [wait] or more after the latest call of the
    debounced function (or when the clock went back behind that call), or
    by [flush]; and it is then given the latest call. *)
Theorem func_waits (c : config) (events : list event) (e : event) :
  maxing c = false ->
  leading c = false ->
  let s := run c events in
  let s' := step c s e in
  invoked s' = invoked s \/
  exists t call tc,
    invoked s' = invoked s ++ [(t, call)] /\
    lastCall s = Some call /\
    lastCallTime s = Some tc /\
    ((exists id, e = Fire t id /\ (wait c <= t - tc \/ t < tc)) \/
     e = Flush t).
Proof.
  intros Hmax Hlead s s'.
  pose proof (run_timed c events) as Htimed. fold s in Htimed.
  assert (forall t s0,
             lastCall s0 = lastCall s -> lastCallTime s0 = lastCallTime s ->
             invoked s0 = invoked s ->
             invoked (trailingEdge c t s0).1 = invoked s \/
             exists call tc,
               invoked (trailingEdge c t s0).1 = invoked s ++ [(t, call)] /\
               lastCall s = Some call /\ lastCallTime s = Some tc) as Htrail.
  { intros t s0 Hl Ht Hi. unfold trailingEdge.
    destruct (trailing c); simpl; [|by left].
    case_bool_decide as Hsome; [|by left].
    simpl in Hsome. rewrite Hl in Hsome.
    destruct Hsome as [call Hcall]. destruct (Htimed (mk_is_Some _ _ Hcall))
      as [tc Htc].
    right. exists call, tc. split; [|done].
    unfold invokeFunc. simpl. rewrite Hl, Hcall. simpl.
    by destruct (func c _ _); simpl; rewrite Hi. }
  subst s'. destruct e as [now call|now id| |now]; simpl.
  - left. unfold debounced. rewrite Hmax.
    destruct (shouldInvoke c now s); simpl.
    + destruct (timerId s); [done|].
      unfold leadingEdge. by rewrite Hlead.
    + by destruct (timerId s).
  - unfold fire. destruct (timers s !! id) as [due|]; [|by left].
    destruct (due <=? now); [|by left].
    unfold timerExpired.
    set (s0 := set_timers (delete id (timers s)) s).
    destruct (shouldInvoke c now s0) eqn:Hshould; [|by left].
    destruct (Htrail now s0) as [Hsame|(call & tc & Hi & Hl & Ht)];
      [done|done|done|by left|].
    right. exists now, call, tc. repeat split; try done.
    left. exists id. split; [done|].
    unfold shouldInvoke in Hshould. simpl in Hshould.
    rewrite Ht, Hmax in Hshould. simpl in Hshould. rewrite orb_false_r in Hshould.
    apply orb_true_iff in Hshould as [H|H]; [left|right]; lia.
  - left. unfold cancel. by destruct (timerId s).
  - unfold flush. destruct (timerId s); [|by left].
    destruct (Htrail now s) as [Hsame|(call & tc & Hi & Hl & Ht)];
      [done|done|done|by left|].
    right. exists now, call, tc. repeat split; try done. by right.
Qed.

(** *** A call is not lost *)

(** The time of an event, and the histories in which the clock does not go
    back. *)
Definition time_of (e : event) : option Z :=
  match e with
  | Call now _ | Fire now _ | Flush now => Some now
  | Cancel => None
  end.

Definition times (events : list event) : list Z := omap time_of events.

Definition in_order (events : list event) : Prop :=
  StronglySorted Z.le (times events).

(** While a call waits to be passed on, [timerId] names a timer that the
    runtime holds, which may fire [wait] after the latest call at the
    latest. *)
Record armed (c : config) (past : list Z) (s : state) : Prop := {
  armed_past : forall tc, lastCallTime s = Some tc -> tc ∈ past;
  armed_timer :
    forall id, timerId s = Some id ->
      exists due tc,
        timers s !! id = Some due /\ lastCallTime s = Some tc /\
        due <= tc + wait c;
  armed_call : is_Some (lastCall s) -> is_Some (timerId s)
}.

Section Armed.

Variable c : config.
Hypothesis wait_nonneg : 0 <= wait c.

Lemma setTimeout_lookup now delay s :
  timers (setTimeout now delay s) !! fresh (dom (timers s))
  = Some (now + Z.max 0 (default 0 delay)).
Proof. unfold setTimeout. simpl. by rewrite lookup_insert_eq. Qed.

Lemma invokeFunc_armed past time s :
  armed c past s -> armed c past (invokeFunc c time s).1.
Proof.
  intros [H1 H2 H3]. unfold invokeFunc.
  destruct (func c _ _); simpl; (split; simpl; [done|done|by intros [? ?]]).
Qed.

Lemma trailingEdge_armed past time s :
  (forall tc, lastCallTime s = Some tc -> tc ∈ past) ->
  armed c past (trailingEdge c time s).1.
Proof.
  intros H1. unfold trailingEdge. destruct (_ && _).
  - unfold invokeFunc. destruct (func c _ _); simpl;
      (split; simpl; [done|done|by intros [? ?]]).
  - split; simpl; [done|done|by intros [? ?]].
Qed.

(** A timer set for [wait] at the time of a call. *)
Lemma armed_at_call past now call s :
  (forall tc, lastCallTime s = Some tc -> tc ∈ past) ->
  armed c (past ++ [now])
    (setTimeout now (Some (wait c))
       (set_lastCallTime (Some now) (set_lastCall (Some call) s))).
Proof.
  intros H1. split; simpl.
  - intros tc [= <-]. set_solver.
  - intros id [= <-]. exists (now + Z.max 0 (wait c)), now.
    rewrite lookup_insert_eq. split; [done|]. split; [done|]. lia.
  - by eexists.
Qed.

Lemma step_armed past s e :
  Forall (fun t => forall now, time_of e = Some now -> t <= now) past ->
  armed c past s ->
  armed c (past ++ times [e]) (step c s e).
Proof.
  intros Hclock Hs. destruct Hs as [H1 H2 H3].
  assert (forall tc, lastCallTime s = Some tc -> tc ∈ past ++ times [e]) as H1'.
  { intros tc Htc. apply elem_of_app. left. by apply H1. }
  destruct e as [now call|now id| |now]; simpl.
  - (* a call *)
    change (times [Call now call]) with [now].
    set (s1 := set_lastCallTime (Some now) (set_lastCall (Some call) s)).
    assert (armed c (past ++ [now]) (setTimeout now (Some (wait c)) s1))
      as Hset by by apply armed_at_call.
    assert (forall id, timerId s = Some id -> armed c (past ++ [now]) s1)
      as Hkeep.
    { intros id Hid. destruct (H2 id Hid) as (due & tc & Hdue & Htc & Hle).
      split; simpl.
      - intros tc' [= <-]. set_solver.
      - intros id' Hid'. rewrite Hid in Hid'. injection Hid' as <-.
        exists due, now. split; [done|]. split; [done|].
        rewrite Forall_forall in Hclock.
        specialize (Hclock tc (H1 tc Htc) now eq_refl). lia.
      - by eexists. }
    unfold debounced. fold s1.
    destruct (shouldInvoke c now s).
    + change (timerId s1) with (timerId s). destruct (timerId s) as [id|] eqn:Hid.
      * destruct (maxing c).
        -- by apply invokeFunc_armed.
        -- simpl. by eapply Hkeep.
      * unfold leadingEdge. destruct (leading c).
        -- apply invokeFunc_armed.
           by apply (armed_at_call past now call (set_lastInvokeTime now s)).
        -- simpl.
           by apply (armed_at_call past now call (set_lastInvokeTime now s)).
    + simpl. destruct (timerId s) as [id|] eqn:Hid; simpl.
      * by eapply Hkeep.
      * exact Hset.
  - (* a timer fires *)
    change (times [Fire now id]) with [now].
    unfold fire. destruct (timers s !! id) as [due|] eqn:Hdue;
      [|by split; [done|exact H2|exact H3]].
    destruct (due <=? now); [|by split; [done|exact H2|exact H3]].
    unfold timerExpired.
    set (s0 := set_timers (delete id (timers s)) s).
    destruct (shouldInvoke c now s0) eqn:Hshould.
    + by apply trailingEdge_armed.
    + unfold shouldInvoke in Hshould. simpl in Hshould.
      destruct (lastCallTime s) as [tc|] eqn:Htc; [|done].
      apply orb_false_iff in Hshould as [Hshould Hmaxed].
      apply orb_false_iff in Hshould as [Hwait Hback].
      split; simpl.
      * by rewrite Htc.
      * intros id' [= <-]. eexists _, tc. rewrite lookup_insert_eq.
        split; [done|]. split; [done|].
        unfold remainingWait. simpl. rewrite Htc. simpl.
        destruct (maxing c); lia.
      * by eexists.
  - (* cancel *)
    rewrite app_nil_r. unfold cancel.
    split; simpl; [done|done|by intros [? ?]].
  - (* flush *)
    change (times [Flush now]) with [now].
    unfold flush. destruct (timerId s) as [id|] eqn:Hid.
    + by apply trailingEdge_armed.
    + split; simpl; rewrite ?Hid; [done|done|exact H3].
Qed.

Lemma run_armed events : in_order events -> armed c (times events) (run c events).
Proof.
  induction events as [|e events IH] using rev_ind; intros Hord.
  - split; simpl; [done|done|by intros [? ?]].
  - unfold in_order, times in Hord. rewrite omap_app in Hord.
    rewrite run_snoc. unfold times. rewrite omap_app.
    apply step_armed.
    + apply Forall_forall. intros t Ht now Hnow.
      eapply StronglySorted_app_1_elem_of; [exact Hord|exact Ht|].
      simpl. rewrite Hnow. set_solver.
    + apply IH. by apply StronglySorted_app_1_l in Hord.
Qed.

End Armed.

(** With a [wait] that is not negative and the trailing edge on, in a
    history in which the clock does not go back: a call that [func] has not
    received yet is not lost.  A timer of the runtime is set for it, due
    [wait] after that call at the latest; and when the runtime fires a
    timer of the debounced function [wait] or more after that call, [func]
    is called then, with that call. *)
Theorem pending_call_is_served (c : config) (events : list event)
    (call : call) :
  0 <= wait c ->
  trailing c = true ->
  in_order events ->
  let s := run c events in
  lastCall s = Some call ->
  exists id due tc,
    timerId s = Some id /\
    timers s !! id = Some due /\
    lastCallTime s = Some tc /\
    due <= tc + wait c /\
    forall id' due' t,
      timers s !! id' = Some due' -> due' <= t -> tc + wait c <= t ->
      invoked (step c s (Fire t id')) = invoked s ++ [(t, call)].
Proof.
  intros Hwait Htrailing Hord s Hcall.
  destruct (run_armed c Hwait events Hord) as [_ H2 H3]. fold s in H2, H3.
  destruct H3 as [id Hid]; [by eexists|].
  destruct (H2 id Hid) as (due & tc & Hdue & Htc & Hle).
  exists id, due, tc. repeat split; try done.
  intros id' due' t Hdue' Hready Hlate. simpl. unfold fire.
  rewrite Hdue'. destruct (Z.leb_spec due' t) as [_|]; [|lia].
  unfold timerExpired, shouldInvoke. simpl. rewrite Htc.
  destruct (Z.leb_spec (wait c) (t - tc)) as [_|]; [|lia]. simpl.
  unfold trailingEdge. rewrite Htrailing. simpl. rewrite Hcall. simpl.
  unfold invokeFunc. simpl. rewrite Hcall. simpl.
  by destruct (func c _ _).
Qed.

End DebounceProofs.

(* ===================================================================== *)
(** ** Properties of the short debounce and throttle                      *)
(* ===================================================================== *)

Module SimpleDebounceProofs.

Import Debounce SimpleDebounce.

Local Open Scope Z_scope.

Lemma run_step c events e : run c (events ++ [e]) = step c (run c events) e.
Proof. unfold run. by rewrite fold_left_app. Qed.

(** The calls of the function returned in a history. *)
Definition calls_of (events : list event) : list call :=
  omap (fun e => match e with Call _ _ call => Some call | _ => None end) events.

(** *** Without options *)

Lemma step_never c s e :
  truthy (leading c) = false ->
  truthy (trailing c) = false ->
  truthy_number (maxWait c) = false ->
  invoked (step c s e) = invoked s.
Proof.
  intros Hl Ht Hm. destruct e as [time later call|time id]; simpl.
  - unfold debounced. rewrite Hl, Hm, andb_false_r. reflexivity.
  - unfold fire. destruct (timers s !! id); [|done].
    destruct (_ <=? _); [|done]. unfold expired. by rewrite Ht.
Qed.

(** With none of [leading], [trailing] and [maxWait] truthy, as when
    [debounce(fn, delay)] is called without options, [fn] is never called:
    not by a call of the function returned and not by a timer, whatever the
    history. *)
Theorem never_called_without_options (f : function) (delay : option number) :
  (forall c events,
      truthy (leading c) = false ->
      truthy (trailing c) = false ->
      truthy_number (maxWait c) = false ->
      invoked (run c events) = []) /\
  exists c,
    debounce f delay Omitted = Normal c /\
    forall events, invoked (run c events) = [].
Proof.
  assert (forall c events,
             truthy (leading c) = false ->
             truthy (trailing c) = false ->
             truthy_number (maxWait c) = false ->
             invoked (run c events) = []) as Hnever.
  { intros c events Hl Ht Hm.
    induction events as [|e events IH] using rev_ind; [done|].
    rewrite run_step, step_never by done. exact IH. }
  split; [exact Hnever|].
  eexists. split; [reflexivity|]. intros events. by apply Hnever.
Qed.

(** *** The trailing edge alone *)

(** The runtime holds no timer but the one that [timer] names, which is due
    [delay] after the latest call. *)
Definition one_timer (c : config) (calls : list call) (s : state) : Prop :=
  latest s = last calls /\
  forall id due,
    timers s !! id = Some due ->
    timer s = Some id /\
    exists tc call,
      now s = Some tc /\ latest s = Some call /\
      due = tc + Z.max 0 (or_zero (delay c)).

Section Trailing.

Variable c : config.
Hypothesis no_leading : truthy (leading c) = false.
Hypothesis no_maxWait : truthy_number (maxWait c) = false.

Lemma debounced_trailing time later call s :
  debounced c time later call s
  = (let cleared := match timer s with
                    | Some id => delete id (timers s)
                    | None => timers s
                    end in
     mkState (last_call s) (Some call) (Some time)
             (Some (fresh (dom cleared))) (first s)
             (<[fresh (dom cleared) := time + Z.max 0 (or_zero (delay c))]>
                cleared)
             (invoked s),
     Normal VUndefined).
Proof.
  unfold debounced. cbv zeta. simpl.
  by rewrite no_leading, no_maxWait, andb_false_r.
Qed.

Lemma cleared_empty calls s :
  one_timer c calls s ->
  match timer s with
  | Some id => delete id (timers s)
  | None => timers s
  end = ∅.
Proof.
  intros [_ Hone]. apply map_empty. intros id.
  destruct (timer s) as [id0|] eqn:Htimer.
  - destruct (decide (id = id0)) as [->|Hne].
    + by rewrite lookup_delete_eq.
    + rewrite lookup_delete_ne by done.
      destruct (timers s !! id) as [due|] eqn:Hdue; [|done].
      destruct (Hone id due Hdue) as [[= ->] _]. done.
  - destruct (timers s !! id) as [due|] eqn:Hdue; [|done].
    by destruct (Hone id due Hdue) as [? _].
Qed.

Lemma step_one_timer calls s e :
  one_timer c calls s -> one_timer c (calls ++ calls_of [e]) (step c s e).
Proof.
  intros Hs. destruct e as [time later call|time id]; simpl.
  - rewrite debounced_trailing. cbv zeta. simpl.
    rewrite (cleared_empty calls s Hs).
    split; simpl; [by rewrite last_snoc|].
    intros id due Hid. apply lookup_insert_Some in Hid as [[<- <-]|[_ Hid]];
      [|by rewrite lookup_empty in Hid].
    split; [done|]. by eexists _, _.
  - rewrite app_nil_r. unfold fire.
    destruct (timers s !! id) as [due|] eqn:Hdue; [|done].
    destruct (due <=? time); [|done].
    destruct Hs as [Hlast Hone]. destruct (Hone id due Hdue) as [Htimer _].
    assert (delete id (timers s) = ∅) as Hempty.
    { apply map_empty. intros id'. destruct (decide (id' = id)) as [->|Hne].
      - by rewrite lookup_delete_eq.
      - rewrite lookup_delete_ne by done.
        destruct (timers s !! id') as [due'|] eqn:Hdue'; [|done].
        destruct (Hone id' due' Hdue') as [Ht' _]. congruence. }
    unfold expired, exec. simpl. rewrite Hempty.
    destruct (truthy (trailing c)); [destruct (fn c _ _)|]; simpl;
      (split; simpl; [done|]; intros ? ?; by rewrite lookup_empty).
Qed.

Lemma run_one_timer events : one_timer c (calls_of events) (run c events).
Proof.
  induction events as [|e events IH] using rev_ind.
  - split; [done|]. intros id due Hid. simpl in Hid.
    by rewrite lookup_empty in Hid.
  - rewrite run_step. unfold calls_of. rewrite omap_app.
    by apply step_one_timer.
Qed.

End Trailing.

(** With [trailing] truthy and neither [leading] nor [maxWait]: a call of
    the function returned never calls [fn]; it cancels the timer of the
    call before and sets the only timer there is, due [delay] later.  [fn]
    is called when that timer fires, which is [delay] or more after the
    latest call, and with the arguments of the latest call. *)
Theorem trailing_waits_for_silence (c : config) (events : list event) :
  truthy (leading c) = false ->
  truthy_number (maxWait c) = false ->
  truthy (trailing c) = true ->
  let s := run c events in
  let wait := Z.max 0 (or_zero (delay c)) in
  (forall e,
      invoked (step c s e) = invoked s \/
      exists t id call tc,
        e = Fire t id /\
        invoked (step c s e) = invoked s ++ [(t, call)] /\
        last (calls_of events) = Some call /\
        now s = Some tc /\ tc + wait <= t) /\
  (forall time later call,
      let s1 := step c s (Call time later call) in
      exists id,
        timers s1 = {[ id := time + wait ]} /\
        forall t,
          time + wait <= t ->
          invoked (step c s1 (Fire t id)) = invoked s ++ [(t, call)]).
Proof.
  intros Hl Hm Ht s wait.
  pose proof (run_one_timer c Hl Hm events) as Hs. fold s in Hs.
  split.
  - intros [time later call|time id]; simpl.
    + left. by rewrite debounced_trailing.
    + unfold fire. destruct (timers s !! id) as [due|] eqn:Hdue; [|by left].
      destruct (Z.leb_spec due time) as [Hle|]; [|by left].
      destruct Hs as [Hlast Hone].
      destruct (Hone id due Hdue) as (_ & tc & call & Hnow & Hcall & ->).
      right. exists time, id, call, tc. split; [done|].
      split; [|by rewrite <- Hlast].
      unfold expired, exec. rewrite Ht. simpl. rewrite Hcall. simpl.
      by destruct (fn c _ _).
  - intros time later call s1. subst s1. simpl.
    rewrite debounced_trailing by done. cbv zeta. simpl.
    rewrite (cleared_empty c _ s Hs).
    exists (fresh (dom (∅ : gmap nat Z))). split; [done|].
    intros t Hlate. unfold fire. simpl. rewrite lookup_insert_eq.
    destruct (Z.leb_spec (time + Z.max 0 (or_zero (delay c))) t) as [_|];
      [|unfold wait in Hlate; lia].
    unfold expired, exec. rewrite Ht. simpl.
    by destruct (fn c _ _).
Qed.

(** *** throttle *)

(** The readings of the clock in a history, in order. *)
Definition readings (events : list event) : list Z :=
  events ≫= fun e => match e with
                      | Call time later _ => [time; later]
                      | Fire time _ => [time]
                      end.

Definition in_order (events : list event) : Prop :=
  StronglySorted Z.le (readings events).

(** The times at which [fn] was called. *)
Definition invocation_times (s : state) : list Z := (invoked s).*1.

(** Two calls of [fn] are [d] apart at least. *)
Definition spaced (d : Z) (ts : list Z) : Prop :=
  StronglySorted (fun a b => a + d <= b) ts.

Record throttled (d : Z) (past : list Z) (s : state) : Prop := {
  throttled_spaced : spaced d (invocation_times s);
  throttled_past : forall t, t ∈ invocation_times s -> t ∈ past;
  throttled_last :
    forall l, last_call s = Some l ->
              l ∈ past /\ forall t, t ∈ invocation_times s -> t <= l
}.

Section Throttle.

Variable c : config.
Variable d : Z.
Hypothesis no_leading : truthy (leading c) = false.
Hypothesis no_trailing : truthy (trailing c) = false.
Hypothesis maxWait_d : maxWait c = Some (Num d).
Hypothesis d_pos : 0 < d.

Lemma step_throttled past s e :
  StronglySorted Z.le (past ++ readings [e]) ->
  throttled d past s ->
  throttled d (past ++ readings [e]) (step c s e).
Proof.
  intros Hord [Hsp Hpast Hlast].
  assert (forall t, t ∈ invocation_times s -> t ∈ past ++ readings [e])
    as Hpast' by (intros t Hin; apply elem_of_app; left; by apply Hpast).
  destruct e as [time later call|time id]; simpl.
  - change (readings [Call time later call]) with [time; later] in *.
    assert (forall t, t ∈ past -> t <= time) as Hclock.
    { intros t Hin. eapply StronglySorted_app_1_elem_of; [exact Hord|done|].
      set_solver. }
    assert (time <= later) as Hlater.
    { apply StronglySorted_app_1_r in Hord.
      apply StronglySorted_cons in Hord as [Hord _].
      by apply Forall_cons in Hord as [? _]. }
    unfold debounced. cbv zeta. simpl.
    rewrite no_leading, andb_false_r, maxWait_d. simpl.
    destruct (Z.eqb_spec d 0) as [|_]; [lia|]. simpl.
    destruct (last_call s) as [l|] eqn:Hl.
    + destruct (Hlast l eq_refl) as [Hlpast Hlmax].
      destruct (Z.eqb_spec l 0) as [->|Hl0]; simpl.
      * (* last_call is 0: it is set to the time of this call *)
        destruct (Z.leb_spec d (time - time)) as [|_]; [lia|].
        split; simpl; [done|done|].
        intros l' [= <-]. split; [set_solver|].
        intros t Hin. apply Hclock. by apply Hpast.
      * destruct (Z.leb_spec d (time - l)) as [Hdue|_].
        -- (* fn is called *)
           unfold exec. simpl.
           assert (throttled d (past ++ [time; later])
                     (mkState (Some later) (Some call) (Some time)
                        (Some (fresh (dom match timer s with
                                           | Some id => delete id (timers s)
                                           | None => timers s
                                           end))) (first s)
                        (<[fresh (dom match timer s with
                                      | Some id => delete id (timers s)
                                      | None => timers s
                                      end) :=
                             time + Z.max 0 (or_zero (delay c))]>
                           match timer s with
                           | Some id => delete id (timers s)
                           | None => timers s
                           end)
                        (invoked s ++ [(later, call)]))) as Hnew.
           { split; unfold invocation_times; simpl; rewrite fmap_app; simpl.
             - apply StronglySorted_app. split; [|split].
               + intros t1 t2 H1 H2. apply list_elem_of_singleton in H2 as ->.
                 specialize (Hlmax t1 H1). lia.
               + exact Hsp.
               + repeat constructor.
             - intros t Hin. apply elem_of_app in Hin as [Hin|Hin].
               + by apply Hpast'.
               + set_solver.
             - intros l' [= <-]. split; [set_solver|].
               intros t Hin. apply elem_of_app in Hin as [Hin|Hin].
               + specialize (Hlmax t Hin). lia.
               + apply list_elem_of_singleton in Hin as ->. lia. }
           by destruct (fn c _ _).
        -- split; simpl; [done|done|].
           intros l' [= <-]. split; [set_solver|done].
    + simpl. destruct (Z.leb_spec d (time - time)) as [|_]; [lia|].
      split; simpl; [done|done|].
      intros l' [= <-]. split; [set_solver|].
      intros t Hin. apply Hclock. by apply Hpast.
  - change (readings [Fire time id]) with [time] in *.
    unfold fire. destruct (timers s !! id) as [due|];
      [|by split; [done|done|intros l Hl; destruct (Hlast l Hl); set_solver]].
    destruct (due <=? time);
      [|by split; [done|done|intros l Hl; destruct (Hlast l Hl); set_solver]].
    unfold expired. rewrite no_trailing. by split.
Qed.

Lemma run_throttled events :
  in_order events -> throttled d (readings events) (run c events).
Proof.
  induction events as [|e events IH] using rev_ind; intros Hord.
  - split; unfold invocation_times; simpl; [constructor| |done].
    intros t Hin. by apply elem_of_nil in Hin.
  - unfold in_order, readings in *. rewrite bind_app in *.
    rewrite run_step. apply step_throttled.
    + exact Hord.
    + apply IH. by apply StronglySorted_app_1_l in Hord.
Qed.

End Throttle.

(** [throttle(fn, d)] with a [d] above 0 and no other option, in a history
    in which the clock does not go back: two calls of [fn] are never less
    than [d] apart, however often the function returned is called. *)
Theorem throttle_spaces_calls (f : function) (d : Z) (events : list event) :
  0 < d ->
  in_order events ->
  exists c,
    throttle f (Some (Num d)) Omitted = Normal c /\
    spaced d (invocation_times (run c events)).
Proof.
  intros Hd Hord. eexists. split; [reflexivity|].
  by apply (run_throttled _ d).
Qed.

End SimpleDebounceProofs.

(* ===================================================================== *)
(** ** combineReducers at work                                          *)
(* ===================================================================== *)

Module CombineExamples.

Import CombineReducers CombineProofs.

Definition toString (h : heap) (v : value) : string :=
  match v with
  | VStr s => s
  | _ => "[object Object]"
  end.

Definition random (i : nat) : string := "k.3.x.9".

(** [(state = 0, action) => action.type === 'INC' ? state + 1 : state] *)
Definition rA : reducer :=
  fun state action h =>
    let state := if is_undefined state then VNum 0 else state in
    match get_prop h action "type", state with
    | Normal (VStr "INC"), VNum z => (h, Normal (VNum (z + 1)))
    | _, _ => (h, Normal state)
    end.

(** [(state = 'x', action) => state] *)
Definition rB : reducer :=
  fun state action => ret (if is_undefined state then VStr "x" else state).

(** [(state, action) => undefined] *)
Definition rBad : reducer := fun state action => ret VUndefined.

(** [state => state]: no default for the initial state. *)
Definition rId : reducer := fun state action => ret state.

(** The actions [{type: 'INC'}] and [{type: 'OTHER'}], and the states
    [{a: 1, b: 'x'}] and [{a: NaN}]. *)
Definition objects : heap :=
  {[ 10 := mkObject true {[ "type" := VStr "INC" ]};
     14 := mkObject true {[ "type" := VStr "OTHER" ]};
     20 := mkObject true {[ "a" := VNum 1; "b" := VStr "x" ]};
     21 := mkObject true {[ "a" := VNaN ]} ]}.

(** [combineReducers({a: rA, b: rB, c: 3})] *)
Definition combined_ab : heap * outcome combined :=
  combineReducers random [("a", Fn rA); ("b", Fn rB); ("c", NotFn (VNum 3))]
                  objects.

Definition closure_ab : combined :=
  match combined_ab.2 with
  | Normal c => c
  | Raise _ => mkCombined [] None
  end.

Definition heap_ab : heap := combined_ab.1.

(** An action that no sub-reducer knows: the state comes back, the same
    reference. *)
Example unknown_action_same_reference :
  (combination toString closure_ab (VRef 20) (VRef 14) heap_ab).2
  = Normal (VRef 20).
Proof. vm_compute. reflexivity. Qed.

(** [INC] changes the slice [a]: a new object comes back, with both
    slices. *)
Definition after_inc : heap * outcome value :=
  combination toString closure_ab (VRef 20) (VRef 10) heap_ab.

Definition state_after_inc : value :=
  match after_inc.2 with
  | Normal v => v
  | Raise _ => VUndefined
  end.

Example inc_new_object :
  after_inc.2 = Normal state_after_inc /\
  state_after_inc <> VRef 20 /\
  get_prop after_inc.1 state_after_inc "a" = Normal (VNum 2) /\
  get_prop after_inc.1 state_after_inc "b" = Normal (VStr "x").
Proof. vm_compute. repeat split; congruence. Qed.


(** A slice that is [NaN] is never [===] to itself: the sub-reducer returns
    what it was given, and a new object comes back all the same. *)
Example nan_slice_new_object :
  match combineReducers random [("a", Fn rB)] objects with
  | (h, Normal c) =>
      exists l, (combination toString c (VRef 21) (VRef 14) h).2
                = Normal (VRef l) /\ l <> 21
  | _ => False
  end.
Proof. vm_compute. eexists. split; [reflexivity | lia]. Qed.

(** [combineReducers({a: rA, bad: rBad})] returns; the combined reducer
    throws the validation error of [bad] at every call. *)
Example bad_reducer_deferred :
  match combineReducers random [("a", Fn rA); ("bad", Fn rBad)] objects with
  | (h, Normal c) =>
      shapeAssertionError c = Some (init_error "bad") /\
      (combination toString c (VRef 20) (VRef 10) h).2
      = Raise (init_error "bad") /\
      (combination toString c VUndefined (VRef 10) h).2
      = Raise (init_error "bad")
  | _ => False
  end.
Proof. vm_compute. done. Qed.

Lemma shape_error_deferred_witness :
  exists h c,
    combineReducers random [("a", Fn rA); ("bad", Fn rBad)] objects
    = (h, Normal c) /\
    shapeAssertionError c = Some (init_error "bad") /\
    (combination toString c (VRef 20) (VRef 10) h).2
    = Raise (init_error "bad").
Proof.
  destruct (shape_error_deferred toString random
              [("a", Fn rA); ("bad", Fn rBad)] objects)
    as (h' & c & Hc & _ & Hstop & _).
  exists h', c. split; [exact Hc|].
  pose (h1 := (assertReducerShape random 0 [("a", rA)] objects).1).
  destruct (Hstop [("a", rA)] "bad" rBad [] h1
              (probe random 1 "bad" rBad h1).1 (init_error "bad"))
    as (_ & Herr & Hthrow).
  - reflexivity.
  - vm_compute. reflexivity.
  - vm_compute. reflexivity.
  - split; [exact Herr|].
    destruct (Hthrow eq_refl (VRef 20) (VRef 10) h') as (h4 & Hrun & _).
    by rewrite Hrun.
Defined.

(** A sub-reducer without an initial state passes no probe either. *)
Example identity_reducer_deferred :
  match combineReducers random [("id", Fn rId)] objects with
  | (h, Normal c) => shapeAssertionError c = Some (init_error "id")
  | _ => False
  end.
Proof. vm_compute. done. Qed.

End CombineExamples.

(* ===================================================================== *)
(** ** The store at work: a counter                                       *)
(* ===================================================================== *)

Module StoreExamples.

Import Store StoreProofs.

(** [(state = 0, action) => action.type === 'INC' ? state + 1 : state],
    on the integers. *)
Definition count (h : heap) (state action : value) : value :=
  let state := if is_undefined state then VNum 0 else state in
  match get_prop h action "type", state with
  | Normal (VStr "INC"), VNum z => VNum (z + 1)
  | _, _ => state
  end.

(** The functions of the client:
    - 0: the reducer [count];
    - 1: a listener that unsubscribes the subscription 1 and subscribes the
         function 3;
    - 2, 3: listeners that do nothing;
    - 4: a reducer that dispatches the action it was given and returns its
         state whatever came of it;
    - 5: the [next] of an observer, which does nothing;
    - 6: a listener that dispatches [INC] once more while the count is
         below 2;
    - 7: a reducer that, on [INC], dispatches it again and lets the
         exception through. *)
Definition code (f : fid) (args : list value) : prog :=
  match f, args with
  | 0, [s; a] => pure_reducer count s a
  | 1, _ => Unsubscribe 1 (Subscribe (VFun 3) (fun _ => Ret VUndefined))
  | 4, [s; a] => Dispatch a (fun _ => Ret s)
  | 7, [s; a] =>
      Heap (fun h => (h, count h (VNum 0) a))
           (fun t => if strict_eq t (VNum 1)
                     then Dispatch a (fun r => match r with
                                               | Raise e => Throw e
                                               | Normal _ => Ret s
                                               end)
                     else Ret s)
  | 6, _ => GetState (fun s =>
              match s with
              | VNum z => if (z <? 2)%Z
                          then Dispatch (VRef 10) (fun _ => Ret VUndefined)
                          else Ret VUndefined
              | _ => Ret VUndefined
              end)
  | _, _ => Ret VUndefined
  end.

(** The objects of the client: the action [{type: 'INC'}], two objects
    without a [type] (the second not a plain one), and an observer. *)
Definition objects : heap :=
  {[ 10 := mkObject true {[ "type" := VStr "INC" ]};
     11 := mkObject true ∅;
     12 := mkObject false {[ "type" := VStr "INC" ]};
     13 := mkObject true {[ "next" := VFun 5 ]} ]}.

Definition INC : value := VRef 10.

(** [createStore(count)] *)
Definition store0 : world :=
  match createStore code 2 (VFun 0) VUndefined VUndefined objects with
  | Some (Normal (Made w)) => w
  | _ => init_world 0 VUndefined objects
  end.

Example store0_created :
  createStore code 2 (VFun 0) VUndefined VUndefined objects
  = Some (Normal (Made store0))
  /\ getState store0 = VNum 0.
Proof. vm_compute. done. Qed.

(** A function as second argument and no third one: it is the enhancer, and
    no store is made here. *)
Example enhancer_as_second_argument :
  createStore code 2 (VFun 0) (VFun 9) VUndefined objects
  = Some (Normal (Enhanced 9 (VFun 0) VUndefined))
  /\ createStore code 2 (VFun 0) (VNum 0) (VNum 1) objects
    = Some (Raise (JsError ErrorC "Expected the enhancer to be a function.")).
Proof. vm_compute. done. Qed.

(** Ghost: the listeners called, in order. *)
Definition listener_calls (w : world) : list listener :=
  omap (fun e => match e with EvListener l => Some l | _ => None end) (log w).

(** The scenario of the specification: three [INC] give 3. *)
Definition three_incs : list world :=
  default [] (dispatch_all code 2 [INC; INC; INC] store0).

Example three_incs_states :
  getState <$> three_incs = [VNum 1; VNum 2; VNum 3].
Proof. vm_compute. done. Qed.


Lemma dispatch_rejects_malformed_witness :
  store_dispatch code 0 (VNum 5) store0
  = Some (store0, Raise not_plain_error) /\
  store_dispatch code 0 (VRef 11) store0
  = Some (store0, Raise undefined_type_error) /\
  store_dispatch code 0 (VRef 12) store0
  = Some (store0, Raise not_plain_error).
Proof.
  split; [|split].
  - apply (dispatch_rejects_malformed code 0 (VNum 5) store0). reflexivity.
  - apply (dispatch_rejects_malformed code 0 (VRef 11) store0).
    vm_compute. reflexivity.
  - apply (dispatch_rejects_malformed code 0 (VRef 12) store0).
    vm_compute. reflexivity.
Defined.

(** A store whose reducer dispatches. *)
Definition store7 : world :=
  match createStore code 2 (VFun 7) (VNum 0) VUndefined objects with
  | Some (Normal (Made w)) => w
  | _ => init_world 7 (VNum 0) objects
  end.

Definition after_inner_dispatch : world :=
  match store_dispatch code 2 INC store7 with
  | Some (w', _) => w'
  | None => store7
  end.

Lemma dispatch_inside_reducer_witness :
  (well_formed (objs store7) INC = true /\ isDispatching store7 = false) /\
  store_dispatch code 2 INC store7
  = Some (after_inner_dispatch, Raise reducer_dispatch_error) /\
  isDispatching after_inner_dispatch = false /\
  getState after_inner_dispatch = getState store7.
Proof.
  assert (well_formed (objs store7) INC = true) as Hwf
    by (vm_compute; reflexivity).
  assert (isDispatching store7 = false) as Hd by (vm_compute; reflexivity).
  assert (store_dispatch code 2 INC store7
          = Some (after_inner_dispatch, Raise reducer_dispatch_error)) as Hrun
    by (vm_compute; reflexivity).
  destruct (dispatch_inside_reducer code 2 INC store7 Hwf Hd)
    as (_ & _ & Hclear & _).
  split; [done|]. split; [done|]. split; [by eapply Hclear|].
  vm_compute. reflexivity.
Defined.

(** The reducer 4 catches the exception of its inner dispatch: the outer
    dispatch returns, and the log has the one call of the reducer. *)
Example catching_reducer :
  match createStore code 2 (VFun 4) (VNum 0) VUndefined objects with
  | Some (Normal (Made w)) =>
      match store_dispatch code 2 INC w with
      | Some (w', r) =>
          r = Normal INC /\ getState w' = VNum 0 /\
          isDispatching w' = false /\ writes w' = 2
      | None => False
      end
  | _ => False
  end.
Proof. vm_compute. done. Qed.

(** Listener 1 (subscribed first) unsubscribes listener 2 and subscribes
    listener 3 while the first dispatch notifies: that dispatch still calls
    1 then 2, and not 3; the second calls 1 then 3, and not 2. *)
Definition two_listeners : world :=
  (subscribe_listener (UserFn 2) (subscribe_listener (UserFn 1) store0).1).1.

Example subscriptions_during_dispatch :
  match store_dispatch code 3 INC two_listeners with
  | Some (w1, _) =>
      listener_calls w1 = [UserFn 1; UserFn 2] /\
      match store_dispatch code 3 INC w1 with
      | Some (w2, _) =>
          listener_calls w2 = [UserFn 1; UserFn 2; UserFn 1; UserFn 3]
      | None => False
      end
  | None => False
  end.
Proof. vm_compute. done. Qed.

Lemma store0_wf : wf store0.
Proof. eapply createStore_wf. apply store0_created. Qed.

Lemma two_listeners_wf : wf two_listeners.
Proof.
  apply subscribe_listener_spec, subscribe_listener_spec, store0_wf.
Qed.

Lemma listeners_snapshot_witness :
  is_Some (store_dispatch code 3 INC two_listeners) /\
  dispatch_snapshot (call code 3) INC two_listeners
  = store_dispatch code 3 INC two_listeners /\
  array_at (unsubscribe 1 two_listeners)
           (nextListeners (unsubscribe 1 two_listeners))
  = [UserFn 1].
Proof.
  destruct (listeners_snapshot code 3) as (Hsnap & _ & _ & Hunsub).
  split; [|split].
  - vm_compute. eauto.
  - destruct (store_dispatch code 3 INC two_listeners) as [res|] eqn:Hd.
    + by apply Hsnap; [apply two_listeners_wf|].
    + vm_compute in Hd. discriminate.
  - destruct (Hunsub 1 (UserFn 2) two_listeners two_listeners_wf)
      as (_ & Harr & _).
    + vm_compute. reflexivity.
    + rewrite Harr. vm_compute. reflexivity.
Defined.

(** A listener that dispatches: the outer dispatch returns after the
    nested ones, and [getState()] is then the state of the last of them. *)
Example nested_dispatch :
  match store_dispatch code 5 INC (subscribe_listener (UserFn 6) store0).1 with
  | Some (w1, r) => r = Normal INC /\ getState w1 = VNum 2 /\ writes w1 = 3
  | None => False
  end.
Proof. vm_compute. done. Qed.

(** An observer is told the state when it subscribes, and after each
    dispatch from then on. *)
Example observer_is_told :
  match store_observe code 2 (VRef 13) store0 with
  | Some (w1, Normal _) =>
      log w1 = log store0 ++ [EvNext 0 (VRef 13) (VNum 0)] /\
      match store_dispatch code 2 INC w1 with
      | Some (w2, _) =>
          log w2 = log w1 ++ [EvReducer 0 (VNum 0) INC;
                               EvListener (ObserveState 0 (VRef 13));
                               EvNext 0 (VRef 13) (VNum 1)]
      | None => False
      end
  | _ => False
  end.
Proof. vm_compute. done. Qed.

Definition observed : world :=
  match store_observe code 2 (VRef 13) store0 with
  | Some (w1, _) => w1
  | None => store0
  end.

Lemma observable_subscribe_calls_next_witness :
  store_observe code 2 (VRef 13) store0 = Some (observed, Normal 0) /\
  next_calls 0 store0 = 0 /\
  next_calls 0 observed = 1.
Proof.
  assert (store_observe code 2 (VRef 13) store0 = Some (observed, Normal 0))
    as Hrun by (vm_compute; reflexivity).
  assert (closures_known store0) as Hknown
    by (eapply createStore_closures_known; apply store0_created).
  destruct (observable_subscribe_calls_next code 2 (VRef 13) store0)
    as [_ Hobject].
  destruct (Hobject 5) as [_ Honce].
  - reflexivity.
  - vm_compute. reflexivity.
  - split; [exact Hrun|]. split; [vm_compute; reflexivity|].
    apply (Honce _ _ Hknown Hrun).
Defined.

Example observer_must_be_object :
  store_observe code 2 (VFun 5) store0
  = Some (store0, Raise observer_type_error) /\
  store_observe code 2 VNull store0
  = Some (set_observers 1 store0,
          Raise (JsError TypeErrorC "Cannot read property 'next' of null")).
Proof. vm_compute. done. Qed.

End StoreExamples.

(* ===================================================================== *)
(** ** The container binding at work                                    *)
(* ===================================================================== *)

Module ConnectExamples.

Import Connect ConnectProofs.

(** [state => state] and [state => 0] as source selectors, and one that
    throws. *)
Definition select_state : source_selector := fun state ownProps => ret state.
Definition select_zero : source_selector := fun state ownProps => ret (VNum 0).
Definition select_throws (e : exn) : source_selector :=
  fun state ownProps => throw e.

(** A parent (1) with two children (2, and 3 which has the child 4). *)
Definition tree : container :=
  Container 1 select_state VUndefined
    [ Container 2 select_zero VUndefined [];
      Container 3 select_state VUndefined
        [ Container 4 select_zero VUndefined [] ] ].

(** The world once the four containers have been constructed and rendered
    with the state 0, and the state has become 1. *)
Definition rendered (v : value) : instance :=
  mkInstance (mkSelector (VBool false) v ErrNull) false.

Definition world0 : world :=
  mkWorld {[ 1 := rendered (VNum 0); 2 := rendered (VNum 0);
             3 := rendered (VNum 0); 4 := rendered (VNum 0) ]}
          (VNum 1) ∅ [].

(** The parent recomputes and is rendered before its children hear of the
    change; the children whose props did not change are not rendered. *)
Example notification_order :
  log (onStateChange tree world0).1
  = [EvRun 1; EvRender 1; EvNotifyNested 1;
     EvRun 2; EvNotifyNested 2;
     EvRun 3; EvRender 3; EvNotifyNested 3;
     EvRun 4; EvNotifyNested 4].
Proof. vm_compute. reflexivity. Qed.


(** The selector of the parent throws: nothing is thrown by the run, the
    render of the parent throws the stored error, and the children are not
    notified. *)
Definition boom : exn := JsError ErrorC "boom".

Example selector_throws_at_render :
  let throwing := Container 1 (select_throws boom) VUndefined
                    [ Container 2 select_zero VUndefined [] ] in
  (onStateChange throwing world0).2 = Raise boom /\
  log (onStateChange throwing world0).1 = [EvRun 1; EvRender 1].
Proof. vm_compute. done. Qed.

Lemma selector_error_deferred_witness :
  run (select_throws boom) (ret (VNum 1)) VUndefined new_selector ∅
  = (∅, Normal (mkSelector (VBool true) VUndefined (ErrCaught boom))) /\
  render (mkSelector (VBool true) VUndefined (ErrCaught boom))
  = (mkSelector (VBool false) VUndefined (ErrCaught boom), Raise boom).
Proof.
  apply (selector_error_deferred (select_throws boom) (ret (VNum 1))
           VUndefined new_selector ∅ ∅ boom).
  reflexivity.
Defined.

(** [throw null] in a selector: the value is stored like any other, and
    [if (selector.error)] does not see it. *)
Example falsy_exception_not_rethrown :
  render (mkSelector (VBool true) (VNum 0) (ErrCaught (Thrown VNull)))
  = (mkSelector (VBool false) (VNum 0) (ErrCaught (Thrown VNull)),
     Normal (VNum 0)).
Proof. reflexivity. Qed.

End ConnectExamples.

(* ===================================================================== *)
(** ** The store at work: exceptions, replaceReducer, subscriptions       *)
(* ===================================================================== *)

Module StoreBehaviourExamples.

Import Store StoreProofs StoreBehaviour StoreExamples.

Lemma createStore_initial_state_witness :
  exists w,
    createStore code 2 (VFun 0) VUndefined VUndefined objects
    = Some (Normal (Made w)) /\
    getState w = VNum 0 /\ isDispatching w = false /\ subs w = [].
Proof.
  destruct (createStore_initial_state code 1 0 count VUndefined objects)
    as [(w & Hmade & Hstate & _ & Hflag & _ & Hsubs & _) _].
  - intros s a. reflexivity.
  - reflexivity.
  - exists w. split; [exact Hmade|]. split; [|by split].
    rewrite Hstate. vm_compute. reflexivity.
Defined.

Lemma dispatch_returns_its_action_witness :
  exists w',
    store_dispatch code 2 INC store0 = Some (w', Normal INC) /\
    isDispatching w' = false.
Proof.
  destruct (store_dispatch code 2 INC store0) as [[w' [v|e]]|] eqn:Hd.
  - destruct (dispatch_returns_its_action code 2 INC store0 w' v Hd)
      as (-> & _ & _ & Hflag & _).
    by exists w'.
  - vm_compute in Hd. discriminate.
  - vm_compute in Hd. discriminate.
Defined.

(** The reducer 7 throws when it is given [INC]. *)
Definition thrown_in_reducer : world :=
  match call code 2 7 [getState store7; INC] (begin_dispatch INC store7) with
  | Some (w1, _) => w1
  | None => store7
  end.

Lemma reducer_exception_witness :
  exists w',
    store_dispatch code 2 INC store7 = Some (w', Raise reducer_dispatch_error) /\
    getState w' = VNum 0 /\
    isDispatching w' = false /\
    notifications w' = notifications store7.
Proof.
  destruct (reducer_exception code 2 INC store7 thrown_in_reducer
              reducer_dispatch_error)
    as (w' & Hd & Hstate & Hflag & _ & Hquiet).
  - vm_compute. reflexivity.
  - vm_compute. reflexivity.
  - vm_compute. reflexivity.
  - exists w'. split; [exact Hd|]. split; [|by split].
    rewrite Hstate. vm_compute. reflexivity.
Defined.

(** The functions of [code], and the listener 8, which throws. *)
Definition code8 (f : fid) (args : list value) : prog :=
  match f with
  | 8 => Throw (Thrown (VStr "boom"))
  | _ => code f args
  end.

(** The listeners 2, 8 and 3, subscribed in that order. *)
Definition three_listeners : world :=
  (subscribe_listener (UserFn 3)
     (subscribe_listener (UserFn 8)
        (subscribe_listener (UserFn 2) store0).1).1).1.

Lemma three_listeners_wf : wf three_listeners.
Proof.
  apply subscribe_listener_spec, subscribe_listener_spec,
    subscribe_listener_spec, store0_wf.
Qed.

Definition reduced : world :=
  match call code8 5 0 [currentState three_listeners; INC]
          (begin_dispatch INC three_listeners) with
  | Some (w1, _) => w1
  | None => three_listeners
  end.

Definition notified_first : world :=
  match notify_snapshot (call code8 5) [UserFn 2]
          (commit_dispatch (VNum 1) reduced) with
  | Some (wb, _) => wb
  | None => three_listeners
  end.

Definition thrown_in_listener : world :=
  match invoke (call code8 5) (UserFn 8)
          (log_event (EvListener (UserFn 8)) notified_first) with
  | Some (w2, _) => w2
  | None => three_listeners
  end.

Lemma listener_exception_witness :
  store_dispatch code8 5 INC three_listeners
  = Some (thrown_in_listener, Raise (Thrown (VStr "boom"))) /\
  isDispatching thrown_in_listener = false /\
  getState thrown_in_listener = VNum 1 /\
  listener_calls thrown_in_listener = [UserFn 2; UserFn 8].
Proof.
  destruct (listener_exception code8 5 INC three_listeners reduced (VNum 1)
              [UserFn 2] (UserFn 8) [UserFn 3] notified_first VUndefined
              thrown_in_listener (Thrown (VStr "boom")))
    as (Hd & Hflag & Hstate).
  - exact three_listeners_wf.
  - vm_compute. reflexivity.
  - vm_compute. reflexivity.
  - vm_compute. reflexivity.
  - vm_compute. reflexivity.
  - simpl. lia.
  - vm_compute. reflexivity.
  - vm_compute. reflexivity.
  - split; [exact Hd|]. split; [exact Hflag|]. split.
    + apply Hstate. vm_compute. reflexivity.
    + vm_compute. reflexivity.
Defined.


Lemma replaceReducer_inside_reducer_witness :
  exists w',
    store_replaceReducer code 2 (VFun 4) (begin_dispatch INC store0)
    = Some (w', Raise reducer_dispatch_error) /\
    currentReducer w' = 4 /\ getState w' = VNum 0.
Proof.
  destruct (replaceReducer_inside_reducer code 2 (begin_dispatch INC store0))
    as [Hinside _].
  destruct (Hinside 4) as (w' & Hr & Hred & Hstate & _).
  - reflexivity.
  - exists w'. split; [exact Hr|]. split; [exact Hred|].
    rewrite Hstate. vm_compute. reflexivity.
Defined.

(** The listener 1 is subscribed once more to [two_listeners] and that
    subscription is ended: the listener 1 now stands after the listener 2. *)
Lemma subscribe_then_unsubscribe_witness :
  let resubscribed := subscribe_listener (UserFn 1) two_listeners in
  let w2 := unsubscribe resubscribed.2 resubscribed.1 in
  array_at two_listeners (nextListeners two_listeners) = [UserFn 1; UserFn 2] /\
  array_at w2 (nextListeners w2) = [UserFn 2; UserFn 1].
Proof.
  intros resubscribed w2.
  destruct (subscribe_then_unsubscribe (UserFn 1) two_listeners
              two_listeners_wf) as (_ & Harr & _).
  split; [vm_compute; reflexivity|].
  unfold w2, resubscribed. rewrite Harr. vm_compute. reflexivity.
Defined.


End StoreBehaviourExamples.

(* ===================================================================== *)
(** ** combineReducers and compose at work, continued                     *)
(* ===================================================================== *)

Module CombineBehaviourExamples.

Import CombineReducers CombineProofs CombineBehaviour CombineExamples.

(** [(state, action) => 7] *)
Definition rSeven : reducer := fun state action => ret (VNum 7).

(** The closures of [combineReducers({a: rA, bad: rBad})] without its
    validation error, and of [combineReducers({b: rB, c: rSeven})]. *)
Definition closure_bad : combined :=
  mkCombined [("a", rA); ("bad", rBad)] None.

Definition closure_bc : combined :=
  mkCombined [("b", rB); ("c", rSeven)] None.

Lemma rB_leaves_alone l : leaves_alone l rB.
Proof. intros previous action h. reflexivity. Qed.

Lemma rSeven_leaves_alone l : leaves_alone l rSeven.
Proof. intros previous action h. reflexivity. Qed.

Lemma rB_well_behaved : well_behaved rB.
Proof.
  intros state action h. eexists _, _. split; [reflexivity|].
  by destruct state.
Qed.

Lemma rSeven_well_behaved : well_behaved rSeven.
Proof. intros state action h. by eexists _, _. Qed.

Lemma combination_undefined_slice_witness :
  exists h2,
    combination toString closure_bad (VRef 20) (VRef 10) objects
    = (h2, Raise (JsError ErrorC
                    (getUndefinedStateErrorMessage toString h2 "bad" (VRef 10)))).
Proof.
  pose (h1 := (combination_loop toString [("a", rA)] (VRef 20) (VRef 10)
                 (fresh_loc objects) false
                 (<[fresh_loc objects := mkObject true ∅]> objects)).1).
  destruct (combination_undefined_slice toString closure_bad (VRef 20) (VRef 10)
              [("a", rA)] "bad" rBad [] objects h1 h1 true VUndefined)
    as [Hthrows _].
  - done.
  - reflexivity.
  - reflexivity.
  - vm_compute. reflexivity.
  - vm_compute. reflexivity.
  - reflexivity.
  - by exists h1.
Defined.

(** [{a: 1, b: 'x'}] through [{b: rB, c: rSeven}]: the slice [c] is new, so
    a new object comes back, with [b] and [c] and without [a]. *)
Definition after_bc : heap * outcome value :=
  combination toString closure_bc (VRef 20) (VRef 14) objects.

Definition state_bc : value :=
  match after_bc.2 with
  | Normal v => v
  | Raise _ => VUndefined
  end.



Lemma well_behaved_combination_witness :
  exists h' c,
    combineReducers random [("b", Fn rB); ("c", Fn rSeven); ("d", NotFn VNull)]
                    objects = (h', Normal c) /\
    shapeAssertionError c = None /\
    exists h4 v,
      combination toString c (VRef 20) (VRef 14) h' = (h4, Normal v) /\
      is_undefined v = false.
Proof.
  destruct (well_behaved_combination toString random
              [("b", Fn rB); ("c", Fn rSeven); ("d", NotFn VNull)] objects)
    as (h' & c & Hc & Hnone & Hreturns).
  - simpl. repeat constructor.
    + exact rB_well_behaved.
    + exact rSeven_well_behaved.
  - exists h', c. split; [exact Hc|]. split; [exact Hnone|].
    by apply Hreturns.
Defined.

End CombineBehaviourExamples.

Module ComposeExamples.

Import Compose ComposeBehaviour.

(** [x => x + 1] and [x => 2 * x] on the integers. *)
Definition increment : jsfun :=
  fun args => ret (match hd VUndefined args with
                   | VNum z => VNum (z + 1)
                   | v => v
                   end).

Definition double : jsfun :=
  fun args => ret (match hd VUndefined args with
                   | VNum z => VNum (2 * z)
                   | v => v
                   end).

Example compose_three :
  compose [increment; double; increment] [VNum 1] ∅ = (∅, Normal (VNum 5)).
Proof. reflexivity. Qed.

Lemma compose_splits_witness :
  compose ([increment] ++ [double; increment]) [VNum 1] ∅
  = compose [compose [increment]; compose [double; increment]] [VNum 1] ∅.
Proof.
  by apply (compose_splits [increment] [double; increment] [VNum 1] ∅).
Defined.

End ComposeExamples.

(* ===================================================================== *)
(** ** The memo cell, the bound action creators and the middleware at
       work                                                               *)
(* ===================================================================== *)

Module ConnectBehaviourExamples.

Import Connect ConnectBehaviour.

(** [(state, props) => state] on a store whose state is 5. *)
Definition select_all : source_selector := fun state ownProps => ret state.

Definition state_five : M value := ret (VNum 5).

Lemma selector_settles_witness :
  exists sel1,
    run select_all state_five VUndefined new_selector ∅ = (∅, Normal sel1) /\
    props sel1 = VNum 5 /\
    shouldComponentUpdate sel1 = VBool true /\
    shouldComponentUpdate (render sel1).1 = VBool false /\
    run select_all state_five VUndefined (render sel1).1 ∅
    = (∅, Normal (render sel1).1).
Proof.
  destruct (selector_settles select_all state_five VUndefined new_selector
              ∅ ∅ ∅ (VNum 5))
    as (sel1 & Hrun & Hprops & _ & _ & Hflag & Hagain).
  - reflexivity.
  - reflexivity.
  - reflexivity.
  - exists sel1. split; [exact Hrun|]. split; [exact Hprops|].
    split; [|by split].
    vm_compute in Hrun. by injection Hrun as <-.
Defined.

End ConnectBehaviourExamples.

Module BindExamples.

Import BindActionCreators BindProofs.

(** [amount => ({ type: 'ADD', amount })] as far as its result is
    concerned: it returns its argument. *)
Definition add : jsfun := fun args => ret (hd VUndefined args).

(** A [dispatch] that returns the action it is given. *)
Definition echo : jsfun := fun args => ret (hd VUndefined args).

Definition creators_object : list (string * property) :=
  [("add", PFn add); ("version", PVal (VNum 1))].

Lemma bindActionCreators_binds_witness :
  exists boundActionCreators g,
    bindActionCreators (Creators creators_object) echo
    = Normal (BoundObject boundActionCreators) /\
    boundActionCreators !! "add" = Some g /\
    g [VNum 3] ∅ = (∅, Normal (VNum 3)) /\
    boundActionCreators !! "version" = None.
Proof.
  destruct (bindActionCreators_binds creators_object echo)
    as (boundActionCreators & Hbound & Hfn & Hval & _).
  - simpl. apply NoDup_cons. split; [set_solver|]. apply NoDup_singleton.
  - destruct (Hfn "add" add) as (g & Hg & Hcall); [set_solver|].
    exists boundActionCreators, g. split; [exact Hbound|].
    split; [exact Hg|]. split; [by rewrite Hcall|].
    apply (Hval "version" (VNum 1)). set_solver.
Defined.

End BindExamples.

Module MiddlewareExamples.

Import Store StoreProofs StoreExamples Middleware MiddlewareProofs.

(** The function 20, given as an action: it dispatches [INC] and returns
    7. *)
Definition bodies (f : fid) (extraArgument : value) : thunk :=
  match f with
  | 20 => CallDispatch INC (fun _ => Return (VNum 7))
  | _ => Return VUndefined
  end.

Definition enhanced_dispatch : nat -> dispatcher :=
  Middleware.dispatch [thunk_middleware bodies] (store_dispatch code 2) getState.

Example thunk_dispatches :
  match enhanced_dispatch 2 (VFun 20) store0 with
  | Some (w', r) => r = Normal (VNum 7) /\ getState w' = VNum 1
  | None => False
  end.
Proof. vm_compute. done. Qed.

Lemma thunk_runs_functions_witness :
  enhanced_dispatch 2 (VFun 20) store0
  = match store_dispatch code 2 INC store0 with
    | None => None
    | Some (w', _) => Some (w', Normal (VNum 7))
    end /\
  store_dispatch code 2 (VFun 20) store0 = Some (store0, Raise not_plain_error).
Proof.
  destruct (thunk_runs_functions code bodies 2 0 (VFun 20) store0)
    as (_ & Hfunction & Hinner).
  split.
  - by apply (Hinner 20 INC (VNum 7)).
  - by destruct (Hfunction 20).
Defined.

End MiddlewareExamples.

Module MapToPropsExamples.

Import MapToProps MapToPropsProofs.

(** [state => state]: one declared parameter. *)
Definition of_state : mapfn :=
  MapFn 1 VUndefined (fun args => ret (inl (hd VUndefined args))).

(** [() => state => state]: a factory. *)
Definition factory : mapfn :=
  MapFn 0 VUndefined (fun _ => ret (inr of_state)).

Lemma of_state_plain : plain of_state.
Proof. intros args h g. simpl. discriminate. Qed.

Lemma proxy_is_transparent_witness :
  proxy_calls of_state new_proxy [(VNum 1, VStr "own"); (VNum 2, VStr "own")] ∅
  = (mkProxy false (Installed of_state), ∅,
     [Normal (inl (VNum 1)); Normal (inl (VNum 2))]).
Proof.
  pose proof (proxy_is_transparent of_state
                [(VNum 1, VStr "own"); (VNum 2, VStr "own")] ∅ of_state_plain)
    as Hproxy.
  cbv zeta in Hproxy.
  destruct (proxy_calls _ _ _ _) as [[p h'] results].
  destruct Hproxy as [Hdirect Hinstalled].
  rewrite Hinstalled by done. injection Hdirect as -> ->. reflexivity.
Defined.

Lemma factory_is_called_once_witness :
  proxy_calls factory new_proxy [(VNum 1, VStr "own"); (VNum 2, VStr "own")] ∅
  = (mkProxy false (Installed of_state), ∅,
     [Normal (inl (VNum 1)); Normal (inl (VNum 2))]).
Proof.
  pose proof (factory_is_called_once factory of_state (VNum 1) (VStr "own")
                ∅ ∅ [(VNum 2, VStr "own")] eq_refl) as Hproxy.
  cbv zeta in Hproxy.
  destruct (proxy_calls _ _ _ _) as [[p h'] results].
  destruct Hproxy as [-> Hdirect]. injection Hdirect as -> ->. reflexivity.
Defined.

End MapToPropsExamples.

Module DebounceExamples.

Import Debounce DebounceProofs.

Local Open Scope Z_scope.

(** A function that returns its first argument. *)
Definition first_argument : function :=
  fun this args => Normal (hd VUndefined args).

(** [debounce(func, 100)] *)
Definition debounce_100 : config :=
  mkConfig first_argument 100 false false 0 true.

Example debounce_100_configured :
  debounce (Func first_argument) (Some (Num 100)) None = Normal debounce_100.
Proof. reflexivity. Qed.

Definition call_a : call := mkCall VUndefined [VStr "a"].
Definition call_b : call := mkCall VUndefined [VStr "b"].

(** Two calls 50 ms apart; the timer of the first fires at 100 and is set
    again, and fires at 150: [func] is called once, with the second
    call. *)
Example two_calls_one_invocation :
  invoked (run debounce_100
             [Call 0 call_a; Call 50 call_b; Fire 100 0; Fire 150 0])
  = [(150, call_b)].
Proof. vm_compute. reflexivity. Qed.

Lemma func_waits_witness :
  invoked (step debounce_100 (run debounce_100 [Call 0 call_a; Call 50 call_b])
             (Fire 100 0)) = [] /\
  invoked (step debounce_100 (run debounce_100 [Call 0 call_a; Call 50 call_b])
             (Call 200 call_a)) = [].
Proof.
  split.
  - destruct (func_waits debounce_100 [Call 0 call_a; Call 50 call_b]
                (Fire 100 0) eq_refl eq_refl)
      as [Hsame|(t & call & tc & _ & _ & Htc & [(id & Hfire & Hlate)|Hflush])].
    + rewrite Hsame. vm_compute. reflexivity.
    + injection Hfire as <- <-. vm_compute in Htc. injection Htc as <-.
      simpl in Hlate. lia.
    + discriminate.
  - destruct (func_waits debounce_100 [Call 0 call_a; Call 50 call_b]
                (Call 200 call_a) eq_refl eq_refl)
      as [Hsame|(t & call & tc & _ & _ & _ & [(id & Hfire & _)|Hflush])].
    + rewrite Hsame. vm_compute. reflexivity.
    + discriminate.
    + discriminate.
Defined.

Lemma pending_call_is_served_witness :
  invoked (step debounce_100 (run debounce_100 [Call 0 call_a; Call 50 call_b])
             (Fire 150 0))
  = [(150, call_b)].
Proof.
  destruct (pending_call_is_served debounce_100
              [Call 0 call_a; Call 50 call_b] call_b)
    as (id & due & tc & _ & _ & Htc & _ & Hserved).
  - simpl. lia.
  - reflexivity.
  - unfold in_order. simpl. repeat constructor. lia.
  - vm_compute. reflexivity.
  - vm_compute in Htc. injection Htc as <-.
    rewrite (Hserved 0%nat 100 150); [vm_compute; reflexivity| |lia|simpl; lia].
    vm_compute. reflexivity.
Defined.

End DebounceExamples.

Module SimpleDebounceExamples.

Import Debounce SimpleDebounce SimpleDebounceProofs DebounceExamples.

Local Open Scope Z_scope.

(** [debounce(fn, 100, { trailing: true })] and [throttle(fn, 100)] *)
Definition trailing_100 : config :=
  mkConfig first_argument (Some (Num 100)) VUndefined (VBool true) None.

Definition throttle_100 : config :=
  mkConfig first_argument (Some (Num 100)) VUndefined VUndefined
           (Some (Num 100)).

Example throttle_100_configured :
  throttle first_argument (Some (Num 100)) Omitted = Normal throttle_100.
Proof. reflexivity. Qed.

Lemma trailing_waits_for_silence_witness :
  exists id,
    invoked (step trailing_100
               (step trailing_100 (run trailing_100 [Call 0 0 call_a])
                  (Call 50 50 call_b))
               (Fire 150 id))
    = [(150, call_b)].
Proof.
  destruct (trailing_waits_for_silence trailing_100 [Call 0 0 call_a]
              eq_refl eq_refl eq_refl) as [_ Hcall].
  destruct (Hcall 50 50 call_b) as (id & _ & Hfire).
  exists id. rewrite Hfire by (simpl; lia). vm_compute. reflexivity.
Defined.

(** Calls at 1000, 1150, 1160 and 1260: [fn] is called at 1150 and at
    1260. *)
Definition burst : list event :=
  [Call 1000 1000 call_a; Call 1150 1150 call_b; Call 1160 1160 call_a;
   Call 1260 1260 call_b].

Example throttle_burst :
  invocation_times (run throttle_100 burst) = [1150; 1260].
Proof. vm_compute. reflexivity. Qed.

Lemma throttle_spaces_calls_witness :
  spaced 100 (invocation_times (run throttle_100 burst)).
Proof.
  destruct (throttle_spaces_calls first_argument 100 burst) as (c & Hc & Hsp).
  - lia.
  - unfold in_order. simpl. repeat constructor; lia.
  - injection Hc as <-. exact Hsp.
Defined.

End SimpleDebounceExamples.

Module MergeExamples.

Import CombineReducers MergeProps MergeProofs.

(** The props [{a: 1, b: 2}], [{b: 3}] and [{b: 4, c: 5}]. *)
Definition props_heap : heap :=
  {[ 1%nat := mkObject true {[ "a" := VNum 1; "b" := VNum 2 ]};
     2%nat := mkObject true {[ "b" := VNum 3 ]};
     3%nat := mkObject true {[ "b" := VNum 4; "c" := VNum 5 ]} ]}.

(** [defaultMergeProps(stateProps, dispatchProps, ownProps)] with the
    first for [ownProps], the second for [stateProps] and the third for
    [dispatchProps]: [{a: 1, b: 4, c: 5}]. *)
Example merged_by_default :
  match defaultMergeProps (VRef 2) (VRef 3) (VRef 1) props_heap with
  | (h', Normal merged) =>
      get_prop h' merged "a" = Normal (VNum 1) /\
      get_prop h' merged "b" = Normal (VNum 4) /\
      get_prop h' merged "c" = Normal (VNum 5) /\
      get_prop h' merged "d" = Normal VUndefined
  | _ => False
  end.
Proof. vm_compute. done. Qed.

(** A string spreads its characters. *)
Example spread_string :
  spread ∅ (VStr "ab") = {[ "0" := VStr "a"; "1" := VStr "b" ]}.
Proof. vm_compute. reflexivity. Qed.

(** A [mergeProps] that makes an object anew at every call, and a
    comparison that finds them all equal. *)
Definition merge_anew : merger :=
  fun stateProps dispatchProps ownProps => alloc (mkObject true ∅).

Definition always_equal : comparison := fun a b => ret (VBool true).

Lemma mergePropsProxy_keeps_reference_witness :
  let '(vars, _, results) :=
    proxy_calls merge_anew (VBool true) always_equal (mkMemo true (VRef 7))
      [(VNull, VNull, VNull); (VNull, VNull, VNull)] ∅ in
  vars = mkMemo true (VRef 7) /\
  results = [Normal (VRef 7); Normal (VRef 7)].
Proof.
  destruct (mergePropsProxy_keeps_reference merge_anew (VBool true)
              always_equal) as (_ & Hkeeps & _).
  apply (Hkeeps (VRef 7) eq_refl).
  intros s d o h. by eexists _, _, _, _.
Defined.

Example invalid_mergeProps :
  match_ (ArgVal (VNum 3)) defaultMergePropsFactories "mergeProps"
  = Invalid "number" "mergeProps".
Proof. reflexivity. Qed.

End MergeExamples.
